(** * model_reflect: structural signatures of Go types

    A shallow embedding of the Go package [model_reflect] and the
    verification of its behaviour.  The package walks a [reflect.Type],
    renders a canonical signature string, collects diagnostics and reduces
    the signature to a 64-bit number with Argon2id.

    Two revisions of the package are embedded:
    - [ModelReflect] follows [src/model_reflect.go];
    - [Tagged] follows the second source file, the revision that resolves
      field names through the serialization tags ([getName],
      [DefaultNameTags]).
    Whatever the two revisions share ([baseType], [expandField],
    [uniqueErrors], [checkInterfaces], [Hash], the body of [structFields])
    is defined once, before the two modules. *)

From Stdlib Require Import String Ascii ZArith Strings.Byte.
From stdpp Require Import base option list gmap strings sorting pretty.

Local Open Scope string_scope.
Local Open Scope list_scope.
Local Open Scope nat_scope.

(** ** The [reflect] interface

    The run-time type graph is external to the package.  A type is a key of
    a finite map of descriptors; [reflect.Type] values are compared by
    identity, which is equality of keys. *)

Inductive Kind :=
| Invalid | Bool | Int | Int8 | Int16 | Int32 | Int64
| Uint | Uint8 | Uint16 | Uint32 | Uint64 | Uintptr
| Float32 | Float64 | Complex64 | Complex128
| Array | Chan | Func | Interface | Map | Pointer | Slice
| String_ | Struct | UnsafePointer.

#[global] Instance Kind_eq_dec : EqDecision Kind.
Proof. solve_decision. Defined.

(** [reflect.Kind.String] *)
Definition Kind_String (k : Kind) : string :=
  match k with
  | Invalid => "invalid" | Bool => "bool" | Int => "int" | Int8 => "int8"
  | Int16 => "int16" | Int32 => "int32" | Int64 => "int64"
  | Uint => "uint" | Uint8 => "uint8" | Uint16 => "uint16"
  | Uint32 => "uint32" | Uint64 => "uint64" | Uintptr => "uintptr"
  | Float32 => "float32" | Float64 => "float64"
  | Complex64 => "complex64" | Complex128 => "complex128"
  | Array => "array" | Chan => "chan" | Func => "func"
  | Interface => "interface" | Map => "map" | Pointer => "ptr"
  | Slice => "slice" | String_ => "string" | Struct => "struct"
  | UnsafePointer => "unsafe.Pointer"
  end.

Abbreviation TypeId := nat (only parsing).

(** A struct tag, seen through [StructTag.Get]: the value of the first
    binding of the key, the empty string when the key is absent. *)
Definition StructTag := list (string * string).

Fixpoint Tag_Get (tag : StructTag) (key : string) : string :=
  match tag with
  | [] => ""
  | (k, v) :: rest => if bool_decide (k = key) then v else Tag_Get rest key
  end.

(** [reflect.StructField] *)
Record StructField := mkField {
  Name : string;
  PkgPath : string;
  Typ : TypeId;
  Tag : StructTag;
  Anonymous : bool
}.

#[global] Instance StructField_eq_dec : EqDecision StructField.
Proof. solve_decision. Defined.

(** [StructField.IsExported]: the package path is empty. *)
Definition IsExported (f : StructField) : bool := bool_decide (PkgPath f = "").

(** What the package reads of a [reflect.Type]: [Kind], [Elem], [Key],
    [Len], the fields, [String], and the interfaces (by their [String])
    that the pointer to the type implements. *)
Record TypeDesc := mkType {
  tKind : Kind;
  tElem : TypeId;
  tKey : TypeId;
  tLen : nat;
  tFields : list StructField;
  tString : string;
  tPtrImplements : list string
}.

Definition invalidType : TypeDesc :=
  mkType Invalid 0 0 0 [] "<invalid reflect.Value>" [].

(** Keys outside the graph stand for the invalid type, which has no
    successor. *)
Definition desc (g : gmap nat TypeDesc) (t : TypeId) : TypeDesc :=
  default invalidType (g !! t).

Definition kindOf (g : gmap nat TypeDesc) (t : TypeId) : Kind := tKind (desc g t).

(** An [any]: the dynamic type ([None] for the nil interface) and the data
    word, of which the package reads nothing. *)
Record Any := mkAny { dynType : option TypeId; dataWord : list byte }.

Definition TypeOf (v : Any) : option TypeId := dynType v.

(** ** Errors *)

Inductive Error :=
| LoopDetectedIn (t : string)
| EmptyStructOf (t : string)
| DuplicateAt (t : string) (level count : nat) (name : string).

#[global] Instance Error_eq_dec : EqDecision Error.
Proof. solve_decision. Defined.

Definition ErrLoopDetected : string := "loop detected".
Definition ErrEmptyStruct : string := "empty struct".
Definition ErrDuplicate : string := "duplicate fields".

(** [error.Error], after the format strings of the three [fmt.Errorf]. *)
Definition Error_msg (e : Error) : string :=
  match e with
  | LoopDetectedIn t => ErrLoopDetected +:+ " in " +:+ t
  | EmptyStructOf t => ErrEmptyStruct +:+ " " +:+ t
  | DuplicateAt t level count name =>
      "type " +:+ t +:+ " (embed level " +:+ pretty level +:+ "): "
        +:+ ErrDuplicate +:+ " [" +:+ pretty count +:+ "]" +:+ name
  end.

(** [errors.Is(e, ErrLoopDetected)] *)
Definition isLoopDetected (e : Error) : bool :=
  match e with LoopDetectedIn _ => true | _ => false end.

(** [uniqueErrors]: the first error of every message, in order. *)
Definition uniqueErrors_step (st : gmap string bool * list Error) (entry : Error)
  : gmap string bool * list Error :=
  let '(keys, lst) := st in
  match keys !! Error_msg entry with
  | Some _ => (keys, lst)
  | None => (<[Error_msg entry := true]> keys, lst ++ [entry])
  end.

Definition uniqueErrors (slice : list Error) : list Error :=
  (foldl uniqueErrors_step (∅, []) slice).2.

(** [errors.Join]: nil when there is nothing to join. *)
Definition errors_Join (errs : list Error) : option (list Error) :=
  match errs with [] => None | _ => Some errs end.

(** The message of a joined error: the messages, one per line. *)
Definition Join_msg (errs : list Error) : string :=
  String.concat (String (ascii_of_nat 10) "") (Error_msg <$> errs).

(** ** Walking pointers *)

(** [baseType].  The loop runs as long as the kind is a pointer; [None]
    says that [fuel] iterations did not reach another kind. *)
Fixpoint baseType (fuel : nat) (g : gmap nat TypeDesc) (t : TypeId) : option TypeId :=
  match fuel with
  | 0 => None
  | S fuel' =>
      if bool_decide (kindOf g t = Pointer)
      then baseType fuel' g (tElem (desc g t))
      else Some t
  end.

(** [slices.Index(types, t) >= 0] *)
Definition inPath (types : list TypeId) (t : TypeId) : bool := bool_decide (t ∈ types).

(** A left fold in the option monad, for the loops whose body may itself
    run out of fuel. *)
Fixpoint foldlM {A B} (f : B → A → option B) (acc : B) (l : list A) : option B :=
  match l with
  | [] => Some acc
  | x :: l' => match f acc x with Some acc' => foldlM f acc' l' | None => None end
  end.

(** ** Sorting strings

    [sort.Strings] orders by [<] on strings, the lexicographic order of the
    bytes.  Any sorting algorithm gives the same list; merge sort is used. *)
Definition sort_Strings (l : list string) : list string := merge_sort String.le l.

(** [strings.Join] *)
Definition strings_Join (l : list string) (sep : string) : string := String.concat sep l.

(** ** Capabilities *)

Definition DefaultInterfaces : list string :=
  [ "encoding.BinaryMarshaler"; "encoding.BinaryUnmarshaler";
    "encoding.TextMarshaler"; "encoding.TextUnmarshaler" ].

(** [reflect.PtrTo(t).Implements(iface)] *)
Definition PtrTo_Implements (g : gmap nat TypeDesc) (t : TypeId) (iface : string) : Prop :=
  iface ∈ tPtrImplements (desc g t).

#[global] Instance PtrTo_Implements_dec g t iface : Decision (PtrTo_Implements g t iface).
Proof. unfold PtrTo_Implements. apply _. Defined.

(** [checkInterfaces] *)
Definition checkInterfaces (g : gmap nat TypeDesc) (t : TypeId) : list string :=
  sort_Strings (filter (PtrTo_Implements g t) DefaultInterfaces).

(** ** Expanding embedded structs *)

(** The loop that appends empty buckets to [result] until its length
    exceeds [depth]. *)
Definition growTo (depth : nat) (result : list (list StructField)) : list (list StructField) :=
  result ++ replicate (S depth - length result) [].

(** [expandField].  The buckets behind the pointer [result] are threaded
    through the call; the returned list is the errors of this call.  The
    slice [types] is only ever extended by the callee for its own use, so the
    caller's view of it is unchanged and it is passed as a value. *)
Fixpoint expandField (fuel : nat) (g : gmap nat TypeDesc) (f : StructField)
    (types : list TypeId) (result : list (list StructField))
  : option (list (list StructField) * list Error) :=
  match fuel with
  | 0 => None
  | S fuel' =>
      let depth := length types in
      let result := growTo depth result in
      t ← baseType fuel' g (Typ f);
      if inPath types t then
        Some (result, [LoopDetectedIn (tString (desc g t))])
      else
        let types := types ++ [t] in
        if negb (bool_decide (kindOf g t = Struct)) || negb (Anonymous f) then
          Some (alter (λ level, level ++ [f]) depth result, [])
        else
          foldlM (λ '(result, errs) fi,
                    '(result', e) ← expandField fuel' g fi types result;
                    Some (result', errs ++ e))
                 (result, []) (tFields (desc g t))
  end.

(** The first loop of [structFields]: every field of the struct, expanded
    from an empty path into the shared buckets. *)
Definition expandAll (fuel : nat) (g : gmap nat TypeDesc) (t : TypeId)
  : option (list (list StructField) * list Error) :=
  foldlM (λ '(expand, errs) f,
            '(expand', e) ← expandField fuel g f [] expand;
            Some (expand', errs ++ e))
         ([], []) (tFields (desc g t)).

(** ** Selecting the promoted fields

    The second part of [structFields] is the same in both revisions but for
    the name a field is counted under: [f.Name] in one, [getName(f)] in the
    other. *)

(** [m[k]] on a [map[string]int] and on a [map[string]bool]: the zero value
    when the key is absent. *)
Definition getCount (m : gmap string nat) (k : string) : nat := default 0 (m !! k).
Definition getFlag (m : gmap string bool) (k : string) : bool := default false (m !! k).

(** [m[k]++] *)
Definition incr (m : gmap string nat) (k : string) : gmap string nat :=
  <[k := S (getCount m k)]> m.

(** [f.Tag.Get("reflect") == "-"] *)
Definition ignored (f : StructField) : bool := bool_decide (Tag_Get (Tag f) "reflect" = "-").

Section Fields.
Variable displayName : StructField → string.

(** The counting loop of one level. *)
Definition countLevel (counts localCounts : gmap string nat) (level : list StructField)
  : gmap string nat * gmap string nat :=
  foldl (λ '(c, lc) f, (incr c (displayName f), incr lc (displayName f)))
        (counts, localCounts) level.

(** The body of the selecting loop of one level. *)
Definition selectStep (t : string) (i : nat) (counts localCounts : gmap string nat)
    (st : list StructField * list Error * gmap string bool) (f : StructField)
  : list StructField * list Error * gmap string bool :=
  let '(result, errs, localIgnore) := st in
  if ignored f then st
  else
    let name := displayName f in
    let result := if bool_decide (getCount counts name = 1) then result ++ [f] else result in
    if negb (getFlag localIgnore name) && bool_decide (1 < getCount localCounts name) then
      (result,
       errs ++ [DuplicateAt t i (getCount localCounts name) name],
       <[name := true]> localIgnore)
    else (result, errs, localIgnore).

(** The body of [for i, level := range expand]. *)
Definition levelStep (t : string)
    (st : gmap string nat * list StructField * list Error) (il : nat * list StructField)
  : gmap string nat * list StructField * list Error :=
  let '(counts, result, errs) := st in
  let '(counts', localCounts) := countLevel counts ∅ il.2 in
  let '(result', errs', _) :=
    foldl (selectStep t il.1 counts' localCounts) (result, errs, ∅) il.2 in
  (counts', result', errs').

Definition selectFields (t : string) (expand : list (list StructField)) (errs : list Error)
  : list StructField * list Error :=
  let '(_, result, errs') := foldl (levelStep t) (∅, [], errs) (imap pair expand) in
  (result, errs').

(** [structFields] *)
Definition structFields (fuel : nat) (g : gmap nat TypeDesc) (t : TypeId)
  : option (list StructField * list Error) :=
  if negb (bool_decide (kindOf g t = Struct)) then Some ([], [])
  else
    '(expand, errs) ← expandAll fuel g t;
    Some (selectFields (tString (desc g t)) expand errs).
End Fields.

(** ** The model and its hash *)

Record HashInfo := mkHashInfo {
  Salt : list byte;
  Time : Z;       (* uint32 *)
  Memory : Z;     (* uint32 *)
  Threads : Z     (* uint8 *)
}.

(** [ModelInfo]; [string_] is the embedded [string], the signature. *)
Record ModelInfo := mkModelInfo {
  string_ : string;
  Errs : list Error;
  Hasher : HashInfo
}.

Definition DefaultHasher : HashInfo := mkHashInfo [] 1 8 1.

Definition byteZ (b : byte) : Z := Z.of_N (Byte.to_N b).

(** [binary.LittleEndian.Uint64]; [None] is the panic on a slice of fewer
    than eight bytes.  Every operand is a byte shifted by at most 56 bits,
    so nothing leaves the 64 bits of the result. *)
Definition LittleEndian_Uint64 (b : list byte) : option Z :=
  match b with
  | b0 :: b1 :: b2 :: b3 :: b4 :: b5 :: b6 :: b7 :: _ =>
      Some (Z.lor (Z.lor (Z.lor (Z.lor (Z.lor (Z.lor (Z.lor
             (byteZ b0)
             (Z.shiftl (byteZ b1) 8))
             (Z.shiftl (byteZ b2) 16))
             (Z.shiftl (byteZ b3) 24))
             (Z.shiftl (byteZ b4) 32))
             (Z.shiftl (byteZ b5) 40))
             (Z.shiftl (byteZ b6) 48))
             (Z.shiftl (byteZ b7) 56))
  | _ => None
  end.

(** The value of a byte string read as a little-endian numeral. *)
Fixpoint le_value (b : list byte) : Z :=
  match b with
  | [] => 0
  | x :: rest => byteZ x + 256 * le_value rest
  end.

(** [[]byte(s)] *)
Definition bytes_of (s : string) : list byte := list_byte_of_string s.

Section Hash.
(** [argon2.IDKey password salt time memory threads keyLen]; the key
    derivation is external.  [None] is its panic on cost parameters it
    rejects. *)
Variable argon2_IDKey : list byte → list byte → Z → Z → Z → Z → option (list byte).

(** [ModelInfo.Hash] *)
Definition Hash (m : ModelInfo) : option Z :=
  key ← argon2_IDKey (bytes_of (string_ m)) (Salt (Hasher m))
                     (Time (Hasher m)) (Memory (Hasher m)) (Threads (Hasher m)) 8;
  LittleEndian_Uint64 key.
End Hash.

(** [ModelInfo.String] *)
Definition ModelInfo_String (m : ModelInfo) : string := string_ m.

(** * The revision of [src/model_reflect.go] *)
Module ModelReflect.

Definition isConcrete (g : gmap nat TypeDesc) (t : TypeId) : bool :=
  match kindOf g t with
  | Pointer | UnsafePointer | Interface | Func | Chan => false
  | _ => true
  end.

(** [structFields] counts a field under [f.Name]. *)
Definition structFields := structFields Name.

(** The body of the loop that fills [fieldMap] and [keys]. *)
Definition collectStep (fuel : nat) (g : gmap nat TypeDesc)
    (st : gmap string StructField * list string) (f : StructField)
  : option (gmap string StructField * list string) :=
  let '(fieldMap, keys) := st in
  if negb (IsExported f) then Some st
  else
    b ← baseType fuel g (Typ f);
    if negb (isConcrete g b) then Some st
    else
      let name := if Anonymous f then "." +:+ Name f else Name f in
      let keys := match fieldMap !! name with None => keys ++ [name] | Some _ => keys end in
      Some (<[name := f]> fieldMap, keys).

(** [typeToString].  The errors behind the pointer [errs] are threaded
    through the call.  [t] is [None] for the nil type.  As in [expandField],
    a callee extends the slice [types] for its own use only, beyond the
    length its caller sees, so the path is passed as a value. *)
Fixpoint typeToString (fuel : nat) (g : gmap nat TypeDesc) (t : option TypeId)
    (types : list TypeId) (errs : list Error) : option (string * list Error) :=
  match fuel with
  | 0 => None
  | S fuel' =>
      match t with
      | None => Some ("?", errs)
      | Some t0 =>
          t ← baseType fuel' g t0;
          if negb (isConcrete g t) then Some ("?", errs)
          else if inPath types t then
            Some ("...", errs ++ [LoopDetectedIn (tString (desc g t))])
          else
            let types := types ++ [t] in
            match kindOf g t with
            | Slice =>
                '(s, errs) ← typeToString fuel' g (Some (tElem (desc g t))) types errs;
                Some ("[]" +:+ s, errs)
            | Array =>
                '(s, errs) ← typeToString fuel' g (Some (tElem (desc g t))) types errs;
                Some ("[" +:+ pretty (tLen (desc g t)) +:+ "]" +:+ s, errs)
            | Map =>
                '(k, errs) ← typeToString fuel' g (Some (tKey (desc g t))) types errs;
                '(e, errs) ← typeToString fuel' g (Some (tElem (desc g t))) types errs;
                Some ("map[" +:+ k +:+ "]" +:+ e, errs)
            | Struct =>
                let interfaces := checkInterfaces g t in
                if bool_decide (0 < length interfaces) then
                  Some ("(" +:+ strings_Join interfaces "," +:+ ")", errs)
                else
                  '(fields, e) ← structFields fuel' g t;
                  let errs := errs ++ e in
                  '(fieldMap, keys) ← foldlM (collectStep fuel' g) (∅, []) fields;
                  let keys := sort_Strings keys in
                  let n := length keys in
                  let errs :=
                    if bool_decide (n = 0)
                    then errs ++ [EmptyStructOf (tString (desc g t))] else errs in
                  '(r, errs) ←
                    foldlM (λ '(r, errs) '(i, name),
                              match fieldMap !! name with
                              | None =>
                                  (* the zero field: no name, no tag, the nil type *)
                                  let r := r +:+ ":" +:+ "?" in
                                  Some (if bool_decide (i < n - 1) then r +:+ ", " else r, errs)
                              | Some f =>
                                  let r := if Anonymous f then r else r +:+ Name f +:+ ":" in
                                  '(r, errs) ←
                                    (let tag := Tag_Get (Tag f) "reflect" in
                                     if bool_decide (tag ≠ "") then Some (r +:+ tag, errs)
                                     else
                                       '(s, errs) ← typeToString fuel' g (Some (Typ f)) types errs;
                                       Some (r +:+ s, errs));
                                  Some (if bool_decide (i < n - 1) then r +:+ ", " else r, errs)
                              end)
                           ("{ ", errs) (imap pair keys);
                  Some (r +:+ " }", errs)
            | k => Some (Kind_String k, errs)
            end
      end
  end.

(** [New].  The result is the model and the joined error, [None] for the
    nil error. *)
Definition New (fuel : nat) (g : gmap nat TypeDesc) (v : Any)
  : option (ModelInfo * option (list Error)) :=
  '(s, errs) ← typeToString fuel g (TypeOf v) [] [];
  let errs := uniqueErrors errs in
  if bool_decide (0 < length errs) then
    Some (mkModelInfo s errs DefaultHasher, errors_Join errs)
  else
    Some (mkModelInfo s [] DefaultHasher, None).

End ModelReflect.

(** * The revision with naming tags *)
Module Tagged.

Definition DefaultNameTags : list string := ["json"; "msgpack"; "cbor"].

(** [strings.Split(s, ",")[0]]: what precedes the first comma. *)
Fixpoint beforeComma (s : string) : string :=
  match s with
  | EmptyString => EmptyString
  | String c rest =>
      if bool_decide (c = ","%char) then EmptyString else String c (beforeComma rest)
  end.

(** [strings.ToUpper] on the one-byte string [name[0:1]]: an ASCII lower
    case letter becomes its capital, another ASCII byte is kept, and a
    byte that is not ASCII, which alone is not valid UTF-8, becomes the
    encoding of U+FFFD. *)
Definition ToUpper_byte (c : ascii) : string :=
  let n := nat_of_ascii c in
  if bool_decide (97 ≤ n ∧ n ≤ 122) then String (ascii_of_nat (n - 32)) ""
  else if bool_decide (n < 128) then String c ""
  else String (ascii_of_nat 239) (String (ascii_of_nat 191) (String (ascii_of_nat 189) "")).

(** [strings.ToUpper(name[0:1]) + name[1:]], for a name that is not
    empty. *)
Definition capitalize (name : string) : string :=
  match name with
  | EmptyString => EmptyString
  | String c rest => ToUpper_byte c +:+ rest
  end.

(** The loop of [getName] over the naming tags still to try. *)
Fixpoint getName_from (tags : list string) (f : StructField) : string :=
  match tags with
  | [] => Name f
  | tag :: tags' =>
      let name := beforeComma (Tag_Get (Tag f) tag) in
      if bool_decide (name ≠ "") then capitalize name else getName_from tags' f
  end.

(** [getName] *)
Definition getName (f : StructField) : string := getName_from DefaultNameTags f.

(** [isConcrete]: the capabilities and the verdict. *)
Definition isConcrete (g : gmap nat TypeDesc) (t : TypeId) : list string * bool :=
  let interfaces := checkInterfaces g t in
  if bool_decide (0 < length interfaces) then (interfaces, true)
  else
    match kindOf g t with
    | Pointer | UnsafePointer | Interface | Func | Chan => ([], false)
    | _ => ([], true)
    end.

(** [structFields] counts a field under [getName(f)]. *)
Definition structFields := structFields getName.

(** The body of the loop that fills [fieldMap] and [keys]. *)
Definition collectStep (fuel : nat) (g : gmap nat TypeDesc)
    (st : gmap string StructField * list string) (f : StructField)
  : option (gmap string StructField * list string) :=
  let '(fieldMap, keys) := st in
  if negb (IsExported f) then Some st
  else
    b ← baseType fuel g (Typ f);
    if negb (isConcrete g b).2 then Some st
    else
      let name := if Anonymous f then "." +:+ getName f else getName f in
      let keys := match fieldMap !! name with None => keys ++ [name] | Some _ => keys end in
      Some (<[name := f]> fieldMap, keys).

(** [typeToString] *)
Fixpoint typeToString (fuel : nat) (g : gmap nat TypeDesc) (t : option TypeId)
    (types : list TypeId) (errs : list Error) : option (string * list Error) :=
  match fuel with
  | 0 => None
  | S fuel' =>
      match t with
      | None => Some ("<nil>", errs)
      | Some t0 =>
          t ← baseType fuel' g t0;
          if inPath types t then
            Some ("<...>", errs ++ [LoopDetectedIn (tString (desc g t))])
          else
            let types := types ++ [t] in
            let '(interfaces, ok) := isConcrete g t in
            if bool_decide (0 < length interfaces) then
              Some ("<" +:+ strings_Join interfaces "," +:+ ">", errs)
            else if negb ok then Some ("<?>", errs)
            else
              match kindOf g t with
              | Slice =>
                  '(s, errs) ← typeToString fuel' g (Some (tElem (desc g t))) types errs;
                  Some ("[]" +:+ s, errs)
              | Array =>
                  '(s, errs) ← typeToString fuel' g (Some (tElem (desc g t))) types errs;
                  Some ("[" +:+ pretty (tLen (desc g t)) +:+ "]" +:+ s, errs)
              | Map =>
                  '(k, errs) ← typeToString fuel' g (Some (tKey (desc g t))) types errs;
                  '(e, errs) ← typeToString fuel' g (Some (tElem (desc g t))) types errs;
                  Some ("map[" +:+ k +:+ "]" +:+ e, errs)
              | Struct =>
                  '(fields, e) ← structFields fuel' g t;
                  let errs := errs ++ e in
                  '(fieldMap, keys) ← foldlM (collectStep fuel' g) (∅, []) fields;
                  let keys := sort_Strings keys in
                  let n := length keys in
                  let errs :=
                    if bool_decide (n = 0)
                    then errs ++ [EmptyStructOf (tString (desc g t))] else errs in
                  '(r, errs) ←
                    foldlM (λ '(r, errs) '(i, name),
                              match fieldMap !! name with
                              | None =>
                                  (* the zero field: no name, no tag, the nil type *)
                                  let r := r +:+ ":" +:+ "<nil>" in
                                  Some (if bool_decide (i < n - 1) then r +:+ ", " else r, errs)
                              | Some f =>
                                  let r := if Anonymous f then r else r +:+ getName f +:+ ":" in
                                  '(r, errs) ←
                                    (let tag := Tag_Get (Tag f) "reflect" in
                                     if bool_decide (tag ≠ "") then Some (r +:+ tag, errs)
                                     else
                                       '(s, errs) ← typeToString fuel' g (Some (Typ f)) types errs;
                                       Some (r +:+ s, errs));
                                  Some (if bool_decide (i < n - 1) then r +:+ ", " else r, errs)
                              end)
                           ("{ ", errs) (imap pair keys);
                  Some (r +:+ " }", errs)
              | k => Some (Kind_String k, errs)
              end
      end
  end.

(** [New] *)
Definition New (fuel : nat) (g : gmap nat TypeDesc) (v : Any)
  : option (ModelInfo * option (list Error)) :=
  '(s, errs) ← typeToString fuel g (TypeOf v) [] [];
  let errs := uniqueErrors errs in
  if bool_decide (0 < length errs) then
    Some (mkModelInfo s errs DefaultHasher, errors_Join errs)
  else
    Some (mkModelInfo s [] DefaultHasher, None).

End Tagged.

(** * Type graphs used as examples *)

Definition primType (k : Kind) : TypeDesc := mkType k 0 0 0 [] (Kind_String k) [].
Definition structType (name : string) (fields : list StructField) : TypeDesc :=
  mkType Struct 0 0 0 fields name [].
Definition pointerTo (name : string) (t : TypeId) : TypeDesc :=
  mkType Pointer t 0 0 [] name [].
Definition field (name : string) (t : TypeId) : StructField := mkField name "" t [] false.
Definition embedded (name : string) (t : TypeId) : StructField := mkField name "" t [] true.
Definition tagged (f : StructField) (key value : string) : StructField :=
  mkField (Name f) (PkgPath f) (Typ f) ((key, value) :: Tag f) (Anonymous f).

(** [type A struct{X int}; type B struct{A; X int}], [B] is 2. *)
Definition shadowGraph : gmap nat TypeDesc :=
  list_to_map [ (0, primType Int);
                (1, structType "main.A" [field "X" 0]);
                (2, structType "main.B" [embedded "A" 1; field "X" 0]) ].

(** [type A1 struct{X int}; type A2 struct{X int};
    type B struct{X int; A1; A2}], [B] is 3. *)
Definition shadowTwiceGraph : gmap nat TypeDesc :=
  list_to_map [ (0, primType Int);
                (1, structType "main.A1" [field "X" 0]);
                (2, structType "main.A2" [field "X" 0]);
                (3, structType "main.B" [field "X" 0; embedded "A1" 1; embedded "A2" 2]) ].

(** [type A1 struct{X int}; type A2 struct{X int}; type B struct{A1; A2}],
    [B] is 3. *)
Definition collisionGraph : gmap nat TypeDesc :=
  list_to_map [ (0, primType Int);
                (1, structType "main.A1" [field "X" 0]);
                (2, structType "main.A2" [field "X" 0]);
                (3, structType "main.B" [embedded "A1" 1; embedded "A2" 2]) ].

(** As [collisionGraph], with [A2] declared as
    [struct{X int `reflect:"-"`}]. *)
Definition ignoredGraph : gmap nat TypeDesc :=
  list_to_map [ (0, primType Int);
                (1, structType "main.A1" [field "X" 0]);
                (2, structType "main.A2" [tagged (field "X" 0) "reflect" "-"]);
                (3, structType "main.B" [embedded "A1" 1; embedded "A2" 2]) ].


(** [type A struct{X int}; type B struct{A; X func()}], [B] is 3. *)
Definition shadowFuncGraph : gmap nat TypeDesc :=
  list_to_map [ (0, primType Int);
                (1, structType "main.A" [field "X" 0]);
                (2, mkType Func 0 0 0 [] "func()" []);
                (3, structType "main.B" [embedded "A" 1; field "X" 2]) ].

(** [type C struct{A1; A2}; type B struct{A1; A2; C}] over the [A1] and
    [A2] of [collisionGraph], [B] is 4. *)
Definition twoLevelCollisionGraph : gmap nat TypeDesc :=
  list_to_map [ (0, primType Int);
                (1, structType "main.A1" [field "X" 0]);
                (2, structType "main.A2" [field "X" 0]);
                (3, structType "main.C" [embedded "A1" 1; embedded "A2" 2]);
                (4, structType "main.B" [embedded "A1" 1; embedded "A2" 2; embedded "C" 3]) ].

(** As [collisionGraph], with [reflect:"-"] on the field [X] of [A1] and
    on that of [A2]. *)
Definition allIgnoredGraph : gmap nat TypeDesc :=
  list_to_map [ (0, primType Int);
                (1, structType "main.A1" [tagged (field "X" 0) "reflect" "-"]);
                (2, structType "main.A2" [tagged (field "X" 0) "reflect" "-"]);
                (3, structType "main.B" [embedded "A1" 1; embedded "A2" 2]) ].

(** The recursive types of the test suite:
    [type testA struct{A int; *testB; X *testB}] and
    [type testB struct{B int; *testA}]; [testA] is 1, [testB] is 2,
    [*testB] is 3 and [*testA] is 4. *)
Definition recursiveGraph : gmap nat TypeDesc :=
  list_to_map [ (0, primType Int);
                (1, structType "main.testA"
                      [field "A" 0; mkField "testB" "main" 3 [] true; field "X" 3]);
                (2, structType "main.testB"
                      [field "B" 0; mkField "testA" "main" 4 [] true]);
                (3, pointerTo "*main.testB" 2);
                (4, pointerTo "*main.testA" 1) ].

(** [type P *P] *)
Definition selfPointerGraph : gmap nat TypeDesc :=
  list_to_map [ (0, pointerTo "main.P" 0) ].

(** A stand-in for the key derivation in the examples: the first [keyLen]
    bytes of the password, padded with zero bytes. *)
Definition prefixKDF (password salt : list byte) (time memory threads keyLen : Z)
  : option (list byte) :=
  Some (take (Z.to_nat keyLen) (password ++ replicate (Z.to_nat keyLen) Byte.x00)).

(** [type Stamp struct{Sec int; Nsec int}] with methods [MarshalText] and
    [UnmarshalText] on [*Stamp], and [type Event struct{At Stamp}];
    [Stamp] is 1, [*Stamp] is 2, [Event] is 3. *)
Definition capabilityGraph : gmap nat TypeDesc :=
  list_to_map [ (0, primType Int);
                (1, mkType Struct 0 0 0 [field "Sec" 0; field "Nsec" 0] "main.Stamp"
                      ["encoding.TextUnmarshaler"; "encoding.TextMarshaler"]);
                (2, pointerTo "*main.Stamp" 1);
                (3, structType "main.Event" [field "At" 1]) ].

(** [type T struct{Lolipop float32; Stuff int; Data int}], [T] is 2. *)
Definition lolipopGraph : gmap nat TypeDesc :=
  list_to_map [ (0, primType Int);
                (1, primType Float32);
                (2, structType "main.T" [field "Lolipop" 1; field "Stuff" 0; field "Data" 0]) ].

(** [type A struct{X string}; type B struct{A; X int}]: [int] is 0,
    [string] is 1 and [B] is 3. *)
Definition shadowStringGraph : gmap nat TypeDesc :=
  list_to_map [ (0, primType Int);
                (1, primType String_);
                (2, structType "main.A" [field "X" 1]);
                (3, structType "main.B" [embedded "A" 2; field "X" 0]) ].

(** [type B struct{Y *B; Z int}; type C struct{Y int};
    type A struct{B; C}]: [B] is 1, the pointer to [B] is 2 and [A] is 4. *)
Definition loopGuardGraph : gmap nat TypeDesc :=
  list_to_map [ (0, primType Int);
                (1, structType "main.B" [field "Y" 2; field "Z" 0]);
                (2, pointerTo "*main.B" 1);
                (3, structType "main.C" [field "Y" 0]);
                (4, structType "main.A" [embedded "B" 1; embedded "C" 3]) ].



(** [type T struct{A int `json:"alpha,omitempty"`;
    B int `json:",omitempty" cbor:"beta"`; C int}] and
    [type U struct{A int `json:"x"`; B int `json:"x"`}]; [T] is 1 and [U]
    is 2. *)
Definition tagsGraph : gmap nat TypeDesc :=
  list_to_map [ (0, primType Int);
                (1, structType "main.T"
                      [ tagged (field "A" 0) "json" "alpha,omitempty";
                        tagged (tagged (field "B" 0) "cbor" "beta") "json" ",omitempty";
                        field "C" 0 ]);
                (2, structType "main.U"
                      [ tagged (field "A" 0) "json" "x"; tagged (field "B" 0) "json" "x" ]) ].

(** * Vocabulary of the statements *)

(** Every chain of pointers of the graph ends within [F] steps. *)
Definition ptrBounded (g : gmap nat TypeDesc) (F : nat) : Prop :=
  ∀ t, is_Some (baseType F g t).

(** The types of the graph that are not on a path. *)
Definition room (g : gmap nat TypeDesc) (types : list TypeId) : nat :=
  size (dom g ∖ list_to_set types).

(** Two graphs with the same types but for the fields and the names of the
    types. *)
Definition sameShape (g g' : gmap nat TypeDesc) : Prop :=
  ∀ t, tKind (desc g t) = tKind (desc g' t) ∧
       tElem (desc g t) = tElem (desc g' t) ∧
       tKey (desc g t) = tKey (desc g' t) ∧
       tLen (desc g t) = tLen (desc g' t) ∧
       tPtrImplements (desc g t) = tPtrImplements (desc g' t).

(** A type with other fields. *)
Definition withFields (d : TypeDesc) (fields : list StructField) : TypeDesc :=
  mkType (tKind d) (tElem d) (tKey d) (tLen d) fields (tString d) (tPtrImplements d).

(** Two graphs that differ only in the order in which structs declare
    their fields (and in the names of the types). *)
Definition fieldPerm (g g' : gmap nat TypeDesc) : Prop :=
  sameShape g g' ∧ ∀ t, tFields (desc g t) ≡ₚ tFields (desc g' t).

(** A string that begins with a dot. *)
Definition dotted (s : string) : Prop := ∃ rest, s = String "."%char rest.

#[global] Instance dotted_dec s : Decision (dotted s).
Proof.
  destruct s as [|c rest].
  - right. by intros [? ?].
  - destruct (decide (c = "."%char)) as [->|Hne].
    + left. by eexists.
    + right. intros [r [= ? ?]]. done.
Defined.

(** No field of the graph has a name that begins with a dot: Go
    identifiers have no dot. *)
Definition identNames (g : gmap nat TypeDesc) : Prop :=
  ∀ t f, f ∈ tFields (desc g t) → ¬ dotted (Name f).

(** Buckets added level by level: what one call of [expandField] does to
    the buckets it is given. *)
Fixpoint merge (r c : list (list StructField)) : list (list StructField) :=
  match r, c with
  | [], _ => c
  | _, [] => r
  | x :: r', y :: c' => (x ++ y) :: merge r' c'
  end.

(** A loop body that adds a contribution to the buckets and appends the
    errors that come with it. *)
Definition addStep (contrib : StructField → option (list (list StructField) * list Error))
    (st : list (list StructField) * list Error) (f : StructField)
  : option (list (list StructField) * list Error) :=
  '(c, e) ← contrib f; Some (merge st.1 c, st.2 ++ e).

(** Two states of the expansion whose buckets hold the same fields level
    by level, in any order. *)
Definition sameBuckets (st st' : list (list StructField) * list Error) : Prop :=
  Forall2 (≡ₚ) st.1 st'.1.

(** The key under which [typeToString] files a field. *)
Definition keyOf (f : StructField) : string :=
  if Anonymous f then "." +:+ Name f else Name f.

(** What the collecting loop of [typeToString] does with a field it keeps:
    the field is filed under its key, and the key is new or not. *)
Definition fileField (st : gmap string StructField * list string) (f : StructField)
  : gmap string StructField * list string :=
  (<[keyOf f := f]> st.1,
   match st.1 !! keyOf f with None => st.2 ++ [keyOf f] | Some _ => st.2 end).

(** Whether the collecting loop keeps a field; [None] when the walk of the
    pointers of its type runs out of fuel. *)
Definition verdict (fuel : nat) (g : gmap nat TypeDesc) (f : StructField) : option bool :=
  if negb (IsExported f) then Some false
  else b ← baseType fuel g (Typ f); Some (ModelReflect.isConcrete g b).

(** Two states of the collecting loop with the same map and the same keys
    in any order. *)
Definition sameKeys (st st' : gmap string StructField * list string) : Prop :=
  st.1 = st'.1 ∧ st.2 ≡ₚ st'.2.

(** Two results of [typeToString] with the same signature. *)
Definition sameSig (a b : string * list Error) : Prop := a.1 = b.1.

(** What [getName] reads of a naming tag: the value up to its first
    comma. *)
Definition tagPortion (f : StructField) (tag : string) : string :=
  Tagged.beforeComma (Tag_Get (Tag f) tag).

(** A string without a comma. *)
Fixpoint noComma (s : string) : Prop :=
  match s with
  | EmptyString => True
  | String c rest => c ≠ ","%char ∧ noComma rest
  end.

(** The base type of a type, on a graph whose chains of pointers end
    within [F] steps. *)
Definition base (g : gmap nat TypeDesc) (F : nat) (t : TypeId) : TypeId :=
  default t (baseType F g t).

(** Embedding depths.  [reach g F d types f] is what the field [f], met on
    the path [types] of embedded structs, contributes [d] levels further
    down: nothing when its base type is already on the path, itself at
    level 0 when it is a named field or not a struct, and otherwise what
    the fields of its struct contribute one level less far down, the
    struct being added to the path. *)
Fixpoint reach (g : gmap nat TypeDesc) (F : nat) (d : nat) (types : list TypeId)
    (f : StructField) {struct d} : list StructField :=
  let b := base g F (Typ f) in
  if inPath types b then []
  else if negb (bool_decide (kindOf g b = Struct)) || negb (Anonymous f) then
    match d with 0 => [f] | S _ => [] end
  else
    match d with
    | 0 => []
    | S d' => flat_map (reach g F d' (types ++ [b])) (tFields (desc g b))
    end.

(** The fields of the struct [t] at embedding depth [d]: its own named
    fields at depth 0, those of the structs it embeds at depth 1, and so
    on, in the order of the declarations. *)
Definition fieldsAt (g : gmap nat TypeDesc) (F : nat) (t : TypeId) (d : nat)
  : list StructField :=
  flat_map (reach g F d []) (tFields (desc g t)).

(** The bucket of a level, empty beyond the last one. *)
Definition bucket (c : list (list StructField)) (j : nat) : list StructField :=
  default [] (c !! j).

(** Fields ordered by their keys. *)
Definition keyLe (key : StructField → string) : relation StructField :=
  λ a b, String.le (key a) (key b).

#[global] Instance keyLe_dec key a b : Decision (keyLe key a b).
Proof. unfold keyLe. apply _. Defined.

Definition sortByKey (key : StructField → string) (l : list StructField)
  : list StructField :=
  merge_sort (keyLe key) l.

(** The entry of a field in the signature of its struct: the label and a
    colon unless the field is embedded, then the value of the [reflect] tag
    when it has one and the signature [sub] of its type otherwise. *)
Definition entryOf (label : StructField → string) (f : StructField) (sub : string)
  : string :=
  (if Anonymous f then "" else label f +:+ ":")
  +:+ (if bool_decide (Tag_Get (Tag f) "reflect" ≠ "")
       then Tag_Get (Tag f) "reflect" else sub).

(** The signature of the type of a field on a path, in
    [src/model_reflect.go]. *)
Definition signatureAt (fuel : nat) (g : gmap nat TypeDesc) (types : list TypeId)
    (f : StructField) : string :=
  from_option fst "" (ModelReflect.typeToString fuel g (Some (Typ f)) types []).

(** The same notions for the revision with naming tags: the key under
    which a field is filed, whether the collecting loop keeps it, the
    signature of its type, and graphs in which no display name begins with
    a dot. *)
Definition taggedKey (f : StructField) : string :=
  if Anonymous f then "." +:+ Tagged.getName f else Tagged.getName f.

Definition taggedVerdict (fuel : nat) (g : gmap nat TypeDesc) (f : StructField)
  : option bool :=
  if negb (IsExported f) then Some false
  else b ← baseType fuel g (Typ f); Some (Tagged.isConcrete g b).2.

Definition taggedSignatureAt (fuel : nat) (g : gmap nat TypeDesc) (types : list TypeId)
    (f : StructField) : string :=
  from_option fst "" (Tagged.typeToString fuel g (Some (Typ f)) types []).

Definition tagNames (g : gmap nat TypeDesc) : Prop :=
  ∀ t f, f ∈ tFields (desc g t) → ¬ dotted (Tagged.getName f).

(** Upper case by the alphabet: the capital of a byte is the letter of
    [upperLetters] at the place the byte has in [lowerLetters]. *)
Definition lowerLetters : string := "abcdefghijklmnopqrstuvwxyz".
Definition upperLetters : string := "ABCDEFGHIJKLMNOPQRSTUVWXYZ".

Fixpoint capitalOf (lower upper : string) (c : ascii) : option ascii :=
  match lower, upper with
  | String l lower', String u upper' =>
      if bool_decide (c = l) then Some u else capitalOf lower' upper' c
  | _, _ => None
  end.

(** A byte below 128. *)
Definition isASCII (c : ascii) : bool :=
  match c with Ascii _ _ _ _ _ _ _ b7 => negb b7 end.

(** The encoding of U+FFFD. *)
Definition replacementChar : string :=
  String "239"%char (String "191"%char (String "189"%char "")).

(** A name with its first byte in upper case: a letter from a to z
    becomes its capital, another ASCII byte is kept, and a byte that is
    not ASCII, which alone is no character, becomes U+FFFD. *)
Definition upperFirst (name : string) : string :=
  match name with
  | EmptyString => EmptyString
  | String c rest =>
      match capitalOf lowerLetters upperLetters c with
      | Some u => String u rest
      | None => if isASCII c then String c rest else replacementChar +:+ rest
      end
  end.

Section Vocabulary.
Variable displayName : StructField → string.

(** The number of fields of a level that are counted under [k]. *)
Definition occ (k : string) (level : list StructField) : nat :=
  length (filter (λ f, displayName f = k) level).

(** Whether the selecting loop keeps a field, given the counts so far. *)
Definition keeps (counts : gmap string nat) (f : StructField) : bool :=
  negb (ignored f) && bool_decide (getCount counts (displayName f) = 1).

(** An error is a duplicate diagnostic about the name [k]. *)
Definition dupFor (k : string) (e : Error) : bool :=
  match e with DuplicateAt _ _ _ n => bool_decide (n = k) | _ => false end.

(** A level has a field counted under [k] that the ignore tag does not
    hide. *)
Definition visible (k : string) (level : list StructField) : Prop :=
  Exists (λ f, ignored f = false ∧ displayName f = k) level.

#[global] Instance visible_dec k level : Decision (visible k level).
Proof. unfold visible. apply _. Defined.

Definition levelDup (t : string) (i : nat) (lc : gmap string nat)
    (k : string) (level : list StructField) : list Error :=
  if decide (1 < getCount lc k ∧ visible k level)
  then [DuplicateAt t i (getCount lc k) k] else [].

Definition emits (lc : gmap string nat) (ign : gmap string bool) (k : string) : bool :=
  negb (getFlag ign k) && bool_decide (1 < getCount lc k).

(** What the loop over the levels promotes, [seen k] being the number of
    fields counted under [k] on the levels above. *)
Fixpoint promoted (seen : string → nat) (levels : list (list StructField))
  : list StructField :=
  match levels with
  | [] => []
  | level :: rest =>
      filter (λ f, ignored f = false
                   ∧ seen (displayName f) + occ (displayName f) level = 1) level
        ++ promoted (λ k, seen k + occ k level) rest
  end.

(** An error is the duplicate diagnostic of level [d] about the name
    [k]. *)
Definition dupAt (d : nat) (k : string) (e : Error) : bool :=
  match e with
  | DuplicateAt _ l _ n => bool_decide (l = d) && bool_decide (n = k)
  | _ => false
  end.

(** The diagnostic that a level owes to the name [k]: one when several
    fields are counted under [k] and the ignore tag does not hide them
    all. *)
Definition owed (t : string) (d : nat) (k : string) (level : list StructField)
  : list Error :=
  if decide (1 < occ k level ∧ visible k level)
  then [DuplicateAt t d (occ k level) k] else [].

(** The fields of a list that are counted under [k]. *)
Definition named (k : string) (l : list StructField) : list StructField :=
  filter (λ f, displayName f = k) l.

(** The number of fields counted under [k] on a list of levels. *)
Definition occs (k : string) (levels : list (list StructField)) : nat :=
  sum_list (occ k <$> levels).
End Vocabulary.

(** * Properties *)

(** ** The selection of promoted fields *)

Section FieldsFacts.
Variable displayName : StructField → string.

Local Abbreviation occ := (occ displayName).
Local Abbreviation named := (named displayName).
Local Abbreviation visible := (visible displayName).
Local Abbreviation keeps := (keeps displayName).
Local Abbreviation promoted := (promoted displayName).
Local Abbreviation owed := (owed displayName).
Local Abbreviation levelDup := (levelDup displayName).

Lemma occ_nil k : occ k [] = 0.
Proof. reflexivity. Qed.

Lemma occ_cons k f level :
  occ k (f :: level) = (if bool_decide (displayName f = k) then 1 else 0) + occ k level.
Proof.
  unfold occ. rewrite filter_cons. case_bool_decide; case_decide; simpl; congruence.
Qed.

Lemma occ_app k l1 l2 : occ k (l1 ++ l2) = occ k l1 + occ k l2.
Proof. unfold occ. by rewrite filter_app, length_app. Qed.

Lemma getCount_empty k : getCount ∅ k = 0.
Proof. unfold getCount. by rewrite lookup_empty. Qed.

Lemma getCount_incr m k k' :
  getCount (incr m k) k' = (if bool_decide (k = k') then 1 else 0) + getCount m k'.
Proof.
  unfold incr, getCount. case_bool_decide as E.
  - subst. by rewrite lookup_insert_eq.
  - by rewrite lookup_insert_ne.
Qed.

Lemma countLevel_spec level : ∀ c lc k,
  getCount (countLevel displayName c lc level).1 k = getCount c k + occ k level ∧
  getCount (countLevel displayName c lc level).2 k = getCount lc k + occ k level.
Proof.
  unfold countLevel. induction level as [|f level IH]; intros c lc k; simpl.
  - rewrite occ_nil. lia.
  - destruct (IH (incr c (displayName f)) (incr lc (displayName f)) k) as [H1 H2].
    rewrite H1, H2, !getCount_incr, occ_cons. lia.
Qed.

Lemma visible_cons k f level :
  visible k (f :: level) ↔ (ignored f = false ∧ displayName f = k) ∨ visible k level.
Proof. unfold visible. apply Exists_cons. Qed.

Lemma getFlag_insert ign k k' :
  getFlag (<[k := true]> ign) k' = if decide (k = k') then true else getFlag ign k'.
Proof.
  unfold getFlag. case_decide as E; [subst; by rewrite lookup_insert_eq|].
  by rewrite lookup_insert_ne.
Qed.

Lemma selectStep_ignored t i counts lc st f :
  ignored f = true → selectStep displayName t i counts lc st f = st.
Proof. intros H. unfold selectStep. destruct st as [[??]?]. by rewrite H. Qed.

Lemma selectStep_visible t i counts lc result errs ign f :
  ignored f = false →
  selectStep displayName t i counts lc (result, errs, ign) f
  = (result ++ (if bool_decide (getCount counts (displayName f) = 1) then [f] else []),
     errs ++ (if emits lc ign (displayName f)
              then [DuplicateAt t i (getCount lc (displayName f)) (displayName f)] else []),
     if emits lc ign (displayName f) then <[displayName f := true]> ign else ign).
Proof.
  intros H. unfold selectStep, emits. rewrite H.
  destruct (negb _ && _); case_bool_decide; by rewrite ?app_nil_r.
Qed.

Lemma filter_keeps_cons counts f level :
  filter (λ f, keeps counts f = true) (f :: level)
  = (if ignored f then []
     else if bool_decide (getCount counts (displayName f) = 1) then [f] else [])
    ++ filter (λ f, keeps counts f = true) level.
Proof.
  rewrite filter_cons. unfold keeps at 1.
  destruct (decide _) as [H|H]; destruct (ignored f); simpl in H |- *;
    destruct (bool_decide (getCount counts (displayName f) = 1)); simpl in *; congruence.
Qed.

Lemma levelDup_skip t i lc k f level :
  ignored f = true ∨ displayName f ≠ k →
  levelDup t i lc k (f :: level) = levelDup t i lc k level.
Proof.
  intros H. unfold levelDup.
  destruct (decide _) as [[? Hv]|Hn]; destruct (decide _) as [[? Hv']|Hn']; try done.
  - apply visible_cons in Hv. exfalso. apply Hn'. split; [done|].
    destruct Hv as [[??]|?]; [|done]. destruct H; congruence.
  - exfalso. apply Hn. rewrite visible_cons. auto.
Qed.

Lemma levelDup_hit t i lc f level :
  ignored f = false → 1 < getCount lc (displayName f) →
  levelDup t i lc (displayName f) (f :: level)
  = [DuplicateAt t i (getCount lc (displayName f)) (displayName f)].
Proof.
  intros ??. unfold levelDup. rewrite decide_True; [done|].
  rewrite visible_cons. auto.
Qed.

Lemma levelDup_few t i lc k level :
  ¬ 1 < getCount lc k → levelDup t i lc k level = [].
Proof. intros ?. unfold levelDup. rewrite decide_False; [done|]. by intros [??]. Qed.

Lemma levelDup_nil t i lc k : levelDup t i lc k [] = [].
Proof.
  unfold levelDup. rewrite decide_False; [done|]. intros [_ H]. by apply Exists_nil in H.
Qed.

Lemma select_loop t i counts lc level : ∀ result errs ign,
  ∃ E ign',
    foldl (selectStep displayName t i counts lc) (result, errs, ign) level
      = (result ++ filter (λ f, keeps counts f = true) level, errs ++ E, ign') ∧
    Forall (λ e, ∃ k, e = DuplicateAt t i (getCount lc k) k ∧ 1 < getCount lc k
                      ∧ visible k level) E ∧
    ∀ k, filter (λ e, dupFor k e = true) E
         = if getFlag ign k then [] else levelDup t i lc k level.
Proof.
  induction level as [|f level IH]; intros result errs ign.
  - exists [], ign. simpl. rewrite !app_nil_r. split; [done|]. split; [done|].
    intros k. rewrite levelDup_nil. by destruct (getFlag ign k).
  - cbn [foldl]. rewrite filter_keeps_cons.
    assert (Hmono : ∀ E, Forall (λ e, ∃ k, e = DuplicateAt t i (getCount lc k) k
                       ∧ 1 < getCount lc k ∧ visible k level) E →
              Forall (λ e, ∃ k, e = DuplicateAt t i (getCount lc k) k
                       ∧ 1 < getCount lc k ∧ visible k (f :: level)) E).
    { intros E HE. eapply Forall_impl; [exact HE|]. intros e (k & -> & ? & ?).
      exists k. rewrite visible_cons. auto. }
    destruct (ignored f) eqn:Hig.
    { rewrite selectStep_ignored by done.
      destruct (IH result errs ign) as (E & ign' & Heq & HE & Hk).
      exists E, ign'. split; [done|]. split; [auto|].
      intros k. rewrite Hk, levelDup_skip by auto. done. }
    rewrite selectStep_visible by done.
    set (k0 := displayName f).
    destruct (emits lc ign k0) eqn:Hemit.
    + pose proof Hemit as Hemit'. unfold emits in Hemit'.
      apply andb_true_iff in Hemit' as [Hflag Hlc].
      apply negb_true_iff in Hflag. apply bool_decide_eq_true in Hlc.
      edestruct IH as (E & ign' & Heq & HE & Hk).
      exists (DuplicateAt t i (getCount lc k0) k0 :: E), ign'.
      rewrite Heq, <- !app_assoc. split; [done|]. split.
      * constructor; [|auto]. exists k0. rewrite visible_cons. auto.
      * intros k. rewrite filter_cons. simpl. rewrite Hk.
        rewrite getFlag_insert. destruct (decide (k0 = k)) as [<-|Hne].
        -- rewrite bool_decide_eq_true_2 by done.
           rewrite decide_True by done. rewrite Hflag.
           unfold k0. by rewrite levelDup_hit.
        -- rewrite bool_decide_eq_false_2 by done. rewrite decide_False by done.
           rewrite levelDup_skip by auto. done.
    + edestruct IH as (E & ign' & Heq & HE & Hk).
      exists E, ign'. rewrite Heq, <- !app_assoc. simpl. split; [done|].
      split; [auto|].
      intros k. rewrite Hk. destruct (getFlag ign k) eqn:Hf; [done|].
      destruct (decide (k0 = k)) as [<-|Hne]; [|by rewrite levelDup_skip by auto].
      unfold emits in Hemit. rewrite Hf in Hemit. simpl in Hemit.
      apply bool_decide_eq_false in Hemit. by rewrite !levelDup_few.
Qed.

Lemma promoted_ext levels : ∀ seen seen',
  (∀ k, seen k = seen' k) → promoted seen levels = promoted seen' levels.
Proof.
  induction levels as [|level rest IH]; intros seen seen' H; [done|].
  simpl. f_equal.
  - apply list_filter_iff. intros f. by rewrite H.
  - apply IH. intros k. by rewrite H.
Qed.

Lemma levelStep_spec t i counts result errs level :
  ∃ counts' E,
    levelStep displayName t (counts, result, errs) (i, level)
      = (counts',
         result ++ filter (λ f, ignored f = false
              ∧ getCount counts (displayName f) + occ (displayName f) level = 1) level,
         errs ++ E) ∧
    (∀ k, getCount counts' k = getCount counts k + occ k level) ∧
    Forall (λ e, ∃ k, e = DuplicateAt t i (occ k level) k ∧ 1 < occ k level
                      ∧ visible k level) E ∧
    ∀ k, filter (λ e, dupFor k e = true) E = owed t i k level.
Proof.
  unfold levelStep. simpl.
  pose proof (countLevel_spec level counts ∅) as Hc.
  destruct (countLevel displayName counts ∅ level) as [counts' lc]. simpl in Hc.
  assert (Hlc : ∀ k, getCount lc k = occ k level).
  { intros k. destruct (Hc k) as [_ ->]. by rewrite getCount_empty. }
  destruct (select_loop t i counts' lc level result errs ∅)
    as (E & ign' & -> & HE & Hk).
  exists counts', E. split; [|split; [|split]].
  - f_equal. f_equal. f_equal. apply list_filter_iff. intros f.
    unfold keeps. destruct (Hc (displayName f)) as [-> _].
    destruct (ignored f); simpl; [split; [done|by intros [??]]|].
    rewrite bool_decide_eq_true. split; [done|by intros [??]].
  - intros k. by destruct (Hc k).
  - eapply Forall_impl; [exact HE|]. intros e (k & -> & ? & ?).
    exists k. by rewrite <- Hlc.
  - intros k. rewrite Hk. unfold getFlag. rewrite lookup_empty. simpl.
    unfold levelDup, owed. rewrite Hlc. done.
Qed.

Lemma filter_none {A} (P : A → bool) (l : list A) :
  Forall (λ x, P x = false) l → filter (λ x, P x = true) l = [].
Proof.
  induction 1 as [|x l Hx _ IH]; [done|].
  rewrite filter_cons, decide_False by congruence. done.
Qed.

Lemma filter_same {A} (P Q : A → bool) (l : list A) :
  Forall (λ x, P x = Q x) l →
  filter (λ x, P x = true) l = filter (λ x, Q x = true) l.
Proof.
  induction 1 as [|x l Hx _ IH]; [done|].
  rewrite !filter_cons, IH, Hx. done.
Qed.

Lemma level_loop t levels : ∀ i counts result errs,
  ∃ counts' E,
    foldl (levelStep displayName t) (counts, result, errs)
          (imap (λ j level, (i + j, level)) levels)
      = (counts', result ++ promoted (getCount counts) levels, errs ++ E) ∧
    Forall (λ e, ∃ k d level, levels !! d = Some level
              ∧ e = DuplicateAt t (i + d) (occ k level) k
              ∧ 1 < occ k level ∧ visible k level) E ∧
    ∀ d k, filter (λ e, dupAt (i + d) k e = true) E
           = from_option (owed t (i + d) k) [] (levels !! d).
Proof.
  induction levels as [|level rest IH]; intros i counts result errs.
  - exists counts, []. simpl. by rewrite !app_nil_r.
  - cbn [imap foldl]. rewrite Nat.add_0_r.
    destruct (levelStep_spec t i counts result errs level)
      as (counts1 & E1 & -> & Hc & HE1 & Hk1).
    edestruct (IH (S i) counts1) as (counts' & E & Heq & HE & Hk).
    exists counts', (E1 ++ E).
    rewrite (imap_ext _ (λ j l, (S i + j, l))) by (intros; simpl; f_equal; lia).
    rewrite Heq, <- !app_assoc. split; [|split].
    + f_equal. f_equal. f_equal. simpl. f_equal. by apply promoted_ext.
    + apply Forall_app. split.
      * eapply Forall_impl; [exact HE1|]. intros e (k & -> & ? & ?).
        exists k, 0, level. rewrite Nat.add_0_r. done.
      * eapply Forall_impl; [exact HE|]. intros e (k & d & l & ? & -> & ? & ?).
        exists k, (S d), l. split; [done|]. split; [f_equal; lia|done].
    + intros d k. rewrite filter_app. destruct d as [|d]; simpl.
      * rewrite Nat.add_0_r, <- Hk1.
        rewrite (filter_none (dupAt i k) E), app_nil_r.
        -- apply filter_same. eapply Forall_impl; [exact HE1|].
           intros e (k' & -> & _). simpl. by rewrite bool_decide_eq_true_2.
        -- eapply Forall_impl; [exact HE|]. intros e (k' & d' & l & _ & -> & _).
           simpl. rewrite bool_decide_eq_false_2 by lia. done.
      * rewrite (filter_none (dupAt (i + S d) k) E1); simpl.
        -- replace (i + S d) with (S i + d) by lia. apply Hk.
        -- eapply Forall_impl; [exact HE1|]. intros e (k' & -> & _).
           simpl. rewrite bool_decide_eq_false_2 by lia. done.
Qed.

Lemma selectFields_spec t expand errs :
  ∃ E,
    selectFields displayName t expand errs = (promoted (λ _, 0) expand, errs ++ E) ∧
    Forall (λ e, ∃ k d level, expand !! d = Some level
              ∧ e = DuplicateAt t d (occ k level) k
              ∧ 1 < occ k level ∧ visible k level) E ∧
    ∀ d k, filter (λ e, dupAt d k e = true) E
           = from_option (owed t d k) [] (expand !! d).
Proof.
  unfold selectFields.
  destruct (level_loop t expand 0 ∅ [] errs) as (counts' & E & Heq & HE & Hk).
  rewrite (imap_ext _ (λ j l, (0 + j, l))) by done.
  rewrite Heq. exists E. split; [|done].
  simpl. f_equal.
Qed.

(** *** What is promoted under one name *)

Lemma named_app k l1 l2 : named k (l1 ++ l2) = named k l1 ++ named k l2.
Proof. apply filter_app. Qed.

Lemma occ_named k level : occ k level = length (named k level).
Proof. reflexivity. Qed.

Lemma occ_pos k f level : f ∈ level → displayName f = k → 0 < occ k level.
Proof.
  intros Hin Hk. unfold occ.
  assert (f ∈ filter (λ f, displayName f = k) level) as H
    by (apply list_elem_of_filter; done).
  destruct (filter _ level); [by apply elem_of_nil in H|simpl; lia].
Qed.

Lemma filter_empty {A} (P : A → Prop) `{∀ x, Decision (P x)} (l : list A) :
  (∀ x, x ∈ l → ¬ P x) → filter P l = [].
Proof.
  induction l as [|x l IH]; intros H'; [done|].
  rewrite filter_cons_False by (apply H'; left).
  apply IH. intros y Hy. apply H'. by right.
Qed.

(** The selection of one level, restricted to the name [k]. *)
Lemma named_level_filter seen k level :
  named k (filter (λ f, ignored f = false
                        ∧ seen (displayName f) + occ (displayName f) level = 1) level)
  = if decide (seen k + occ k level = 1)
    then filter (λ f, ignored f = false) (named k level) else [].
Proof.
  unfold named. rewrite !list_filter_filter. case_decide as Hc.
  - apply list_filter_iff. intros f. split.
    + intros (? & ? & ?). done.
    + intros (? & <-). done.
  - apply filter_empty. intros f _ (<- & _ & ?). done.
Qed.

(** A name already counted above is never promoted. *)
Lemma promoted_shadowed levels : ∀ seen k,
  0 < seen k → named k (promoted seen levels) = [].
Proof.
  induction levels as [|level rest IH]; intros seen k Hs; [done|].
  cbn [promoted]. rewrite named_app.
  rewrite named_level_filter, IH by lia.
  case_decide as Hc; [|done].
  assert (occ k level = 0) as H0 by lia.
  rewrite occ_named in H0. apply nil_length_inv in H0. by rewrite H0.
Qed.

(** A level without the name leaves it to the levels below. *)
Lemma promoted_absent seen k level rest :
  occ k level = 0 →
  named k (promoted seen (level :: rest))
  = named k (promoted (λ k', seen k' + occ k' level) rest).
Proof.
  intros H0. cbn [promoted]. rewrite named_app.
  rewrite named_level_filter.
  rewrite occ_named in H0. apply nil_length_inv in H0. rewrite H0.
  by case_decide.
Qed.

(** A level with several fields under the name promotes none of them,
    and nothing of that name from below. *)
Lemma promoted_collision seen k level rest :
  1 < occ k level → named k (promoted seen (level :: rest)) = [].
Proof.
  intros H2. cbn [promoted]. rewrite named_app.
  rewrite named_level_filter, promoted_shadowed by lia.
  rewrite decide_False by lia. done.
Qed.

(** A level with one field under a name not yet counted promotes that
    field, unless it carries the ignore tag, and nothing from below. *)
Lemma promoted_single seen k f level rest :
  seen k = 0 → named k level = [f] →
  named k (promoted seen (level :: rest)) = if ignored f then [] else [f].
Proof.
  intros Hs Hf. cbn [promoted]. rewrite named_app.
  rewrite named_level_filter, promoted_shadowed; rewrite occ_named, Hf; simpl; [|lia].
  rewrite decide_True, app_nil_r by lia.
  rewrite filter_cons, filter_nil. by destruct (ignored f).
Qed.

(** No promoted field carries the ignore tag. *)
Lemma promoted_not_ignored levels : ∀ seen,
  Forall (λ f, ignored f = false) (promoted seen levels).
Proof.
  induction levels as [|level rest IH]; intros seen; simpl; [done|].
  apply Forall_app. split; [|apply IH].
  apply Forall_forall. intros f Hf. apply list_elem_of_filter in Hf. tauto.
Qed.


(** The name first met on level [d], where several fields carry it. *)
Lemma promoted_ambiguous levels : ∀ seen k d level,
  (∀ j l, j < d → levels !! j = Some l → occ k l = 0) →
  levels !! d = Some level →
  1 < occ k level →
  named k (promoted seen levels) = [].
Proof.
  induction levels as [|l0 rest IH]; intros seen k d level Habove Hd H2; [done|].
  destruct d as [|d].
  - simpl in Hd. injection Hd as ->. by apply promoted_collision.
  - rewrite promoted_absent by (apply (Habove 0); [lia|done]).
    apply (IH _ k d level); [intros j l ??; apply (Habove (S j)); [lia|done]|done..].
Qed.

End FieldsFacts.

(** ** Loops in the option monad *)

Lemma foldlM_inv {A B} (P : B → Prop) (f : B → A → option B) l : ∀ acc r,
  P acc → (∀ a x a', x ∈ l → P a → f a x = Some a' → P a') →
  foldlM f acc l = Some r → P r.
Proof.
  induction l as [|x l IH]; intros acc r Hacc Hstep Hr; simpl in Hr.
  - by injection Hr as <-.
  - destruct (f acc x) as [acc'|] eqn:Hf; [|done].
    apply (IH acc'); [by eapply Hstep; [left|..]| |done].
    intros a y a' Hy. apply Hstep. by right.
Qed.

(** Two loops over the same list whose bodies keep a relation between the
    states. *)
Lemma foldlM_rel {A B C} (R : B → C → Prop)
    (f : B → A → option B) (f' : C → A → option C) l : ∀ acc acc',
  R acc acc' →
  (∀ a a' x, x ∈ l → R a a' → option_Forall2 R (f a x) (f' a' x)) →
  option_Forall2 R (foldlM f acc l) (foldlM f' acc' l).
Proof.
  induction l as [|x l IH]; intros acc acc' Hacc Hstep; simpl.
  - by constructor.
  - destruct (Hstep acc acc' x) as [b c Hbc|]; [left|done| |constructor].
    apply IH; [done|]. intros a a' y Hy. apply Hstep. by right.
Qed.

(** ** Walking pointers, expanding fields: what the errors are *)

Lemma baseType_not_pointer fuel g : ∀ t b,
  baseType fuel g t = Some b → kindOf g b ≠ Pointer.
Proof.
  induction fuel as [|fuel IH]; intros t b H; [done|].
  simpl in H. case_bool_decide; [by eapply IH|]. by injection H as <-.
Qed.

Lemma baseType_mono fuel g : ∀ fuel' t b,
  baseType fuel g t = Some b → fuel ≤ fuel' → baseType fuel' g t = Some b.
Proof.
  induction fuel as [|fuel IH]; intros fuel' t b H Hle; [done|].
  destruct fuel' as [|fuel']; [lia|]. simpl in *.
  case_bool_decide; [|done]. apply IH; [done|lia].
Qed.

Lemma expandField_errors fuel g : ∀ f types result result' errs,
  expandField fuel g f types result = Some (result', errs) →
  Forall (λ e, isLoopDetected e = true) errs.
Proof.
  induction fuel as [|fuel IH]; intros f types result result' errs H; [done|].
  simpl in H. destruct (baseType fuel g (Typ f)) as [t|]; [|done]. simpl in H.
  destruct (inPath types t).
  { injection H as <- <-. by repeat constructor. }
  destruct (negb _ || negb _).
  { by injection H as <- <-. }
  revert H.
  apply (foldlM_inv (λ st, Forall (λ e, isLoopDetected e = true) st.2)); [done|].
  intros [r e] fi [r' e'] _ He Hstep. simpl in *.
  destruct (expandField fuel g fi _ r) as [[r1 e1]|] eqn:Hfi; [|done].
  simpl in Hstep. injection Hstep as <- <-.
  apply Forall_app. split; [done|]. by eapply IH.
Qed.

Lemma expandAll_errors fuel g t expand errs :
  expandAll fuel g t = Some (expand, errs) →
  Forall (λ e, isLoopDetected e = true) errs.
Proof.
  unfold expandAll.
  apply (foldlM_inv (λ st, Forall (λ e, isLoopDetected e = true) st.2)); [done|].
  intros [r e] fi [r' e'] _ He Hstep. simpl in *.
  destruct (expandField fuel g fi [] r) as [[r1 e1]|] eqn:Hfi; [|done].
  simpl in Hstep. injection Hstep as <- <-.
  apply Forall_app. split; [done|]. by eapply expandField_errors.
Qed.

(** ** [structFields] as a whole *)

Section StructFieldsFacts.
Variable displayName : StructField → string.

Local Abbreviation occ := (occ displayName).
Local Abbreviation occs := (occs displayName).
Local Abbreviation named := (named displayName).
Local Abbreviation visible := (visible displayName).
Local Abbreviation promoted := (promoted displayName).
Local Abbreviation owed := (owed displayName).

Lemma occs_nil k : occs k [] = 0.
Proof. reflexivity. Qed.

Lemma occs_cons k level rest : occs k (level :: rest) = occ k level + occs k rest.
Proof. reflexivity. Qed.

Lemma promoted_app l1 : ∀ seen l2,
  promoted seen (l1 ++ l2)
  = promoted seen l1 ++ promoted (λ k, seen k + occs k l1) l2.
Proof.
  induction l1 as [|level l1 IH]; intros seen l2.
  - simpl. apply promoted_ext. intros k. rewrite occs_nil. lia.
  - cbn [app promoted]. rewrite IH, <- app_assoc. do 2 f_equal.
    apply promoted_ext. intros k. rewrite occs_cons. lia.
Qed.

(** From a level on which a name is counted and not promoted, and from the
    levels below, nothing is promoted under that name. *)
Lemma promoted_cut seen k d level levels :
  levels !! d = Some level →
  named k (promoted (λ k', seen k' + occs k' (take d levels)) [level]) = [] →
  0 < occ k level →
  named k (promoted seen levels) = named k (promoted seen (take d levels)).
Proof.
  intros Hd Hnone Hpos.
  rewrite <- (take_drop d levels) at 1.
  rewrite promoted_app, named_app.
  rewrite (drop_S _ _ _ Hd).
  change (level :: drop (S d) levels) with ([level] ++ drop (S d) levels).
  rewrite promoted_app, named_app, Hnone.
  rewrite (promoted_shadowed _ (drop (S d) levels)).
  - simpl. by rewrite app_nil_r.
  - simpl. rewrite occs_cons. lia.
Qed.

Lemma structFields_spec fuel g t expand errs0 :
  kindOf g t = Struct →
  expandAll fuel g t = Some (expand, errs0) →
  ∃ E,
    structFields displayName fuel g t = Some (promoted (λ _, 0) expand, errs0 ++ E) ∧
    Forall (λ e, isLoopDetected e = true) errs0 ∧
    Forall (λ e, ∃ k d level, expand !! d = Some level
              ∧ e = DuplicateAt (tString (desc g t)) d (occ k level) k
              ∧ 1 < occ k level ∧ visible k level) E ∧
    ∀ d k, filter (λ e, dupAt d k e = true) (errs0 ++ E)
           = from_option (owed (tString (desc g t)) d k) [] (expand !! d).
Proof.
  intros Hk Hex. unfold structFields. rewrite Hk, Hex. simpl.
  destruct (selectFields_spec displayName (tString (desc g t)) expand errs0)
    as (E & -> & HE & Hd).
  exists E. split; [done|].
  pose proof (expandAll_errors _ _ _ _ _ Hex) as H0.
  split; [done|]. split; [done|].
  intros d k. rewrite filter_app, Hd.
  rewrite (filter_none (dupAt d k)); [done|].
  eapply Forall_impl; [exact H0|]. by intros [] ?.
Qed.
End StructFieldsFacts.

(** ** Reading a naming tag *)

Lemma beforeComma_noComma s : noComma s → Tagged.beforeComma s = s.
Proof.
  induction s as [|c s IH]; [done|]. intros [Hc Hs]. simpl.
  rewrite bool_decide_eq_false_2 by done. by rewrite IH.
Qed.

Lemma beforeComma_split a b :
  noComma a → Tagged.beforeComma (a +:+ "," +:+ b) = a.
Proof.
  induction a as [|c a IH]; [done|]. intros [Hc Ha]. simpl.
  rewrite bool_decide_eq_false_2 by done. by rewrite IH.
Qed.

Lemma getName_from_first f tags : ∀ before tag after,
  tags = before ++ tag :: after →
  Forall (λ t, tagPortion f t = "") before →
  tagPortion f tag ≠ "" →
  Tagged.getName_from tags f = Tagged.capitalize (tagPortion f tag).
Proof.
  intros before. revert tags.
  induction before as [|t0 before IH]; intros tags tag after -> Hb Hne; simpl.
  - fold (tagPortion f tag). by rewrite bool_decide_eq_true_2.
  - apply Forall_cons_1 in Hb as [H0 Hb]. fold (tagPortion f t0).
    rewrite bool_decide_eq_false_2 by (by intros ?). by eapply IH.
Qed.

Lemma getName_from_none f tags :
  Forall (λ t, tagPortion f t = "") tags → Tagged.getName_from tags f = Name f.
Proof.
  induction 1 as [|t0 tags H0 _ IH]; [done|]. simpl. fold (tagPortion f t0).
  rewrite bool_decide_eq_false_2 by (by intros ?). done.
Qed.

(** ** The hash *)

Local Open Scope Z_scope.

Lemma byteZ_range b : 0 ≤ byteZ b < 256.
Proof.
  unfold byteZ. pose proof (Byte.to_N_bounded b) as H.
  lia.
Qed.

Lemma lor_shiftl_add a b n :
  0 ≤ n → 0 ≤ a < 2 ^ n → 0 ≤ b → Z.lor a (Z.shiftl b n) = a + b * 2 ^ n.
Proof.
  intros Hn Ha Hb.
  assert (Z.land a (Z.shiftl b n) = 0) as Hland.
  { apply Z.bits_inj'. intros i Hi. rewrite Z.land_spec, Z.bits_0.
    destruct (Z.lt_ge_cases i n) as [Hlt|Hge].
    - rewrite Z.shiftl_spec_low by done. apply andb_false_r.
    - destruct (Z.eq_dec a 0) as [->|Hne]; [by rewrite Z.bits_0|].
      rewrite (Z.bits_above_log2 a i); [done|lia|].
      apply Z.log2_lt_pow2; [lia|].
      eapply Z.lt_le_trans; [apply Ha|]. apply Z.pow_le_mono_r; lia. }
  rewrite <- Z.lxor_lor by done.
  rewrite <- Z.add_nocarry_lxor by done.
  by rewrite Z.shiftl_mul_pow2.
Qed.

Lemma Uint64_value b0 b1 b2 b3 b4 b5 b6 b7 :
  LittleEndian_Uint64 [b0; b1; b2; b3; b4; b5; b6; b7]
  = Some (le_value [b0; b1; b2; b3; b4; b5; b6; b7]).
Proof.
  unfold LittleEndian_Uint64. f_equal.
  pose proof (byteZ_range b0). pose proof (byteZ_range b1).
  pose proof (byteZ_range b2). pose proof (byteZ_range b3).
  pose proof (byteZ_range b4). pose proof (byteZ_range b5).
  pose proof (byteZ_range b6). pose proof (byteZ_range b7).
  rewrite (lor_shiftl_add _ _ 8) by lia.
  rewrite (lor_shiftl_add _ _ 16) by lia.
  rewrite (lor_shiftl_add _ _ 24) by lia.
  rewrite (lor_shiftl_add _ _ 32) by lia.
  rewrite (lor_shiftl_add _ _ 40) by lia.
  rewrite (lor_shiftl_add _ _ 48) by lia.
  rewrite (lor_shiftl_add _ _ 56) by lia.
  simpl le_value. lia.
Qed.

Lemma le_value_range b : 0 ≤ le_value b < 256 ^ Z.of_nat (length b).
Proof.
  induction b as [|x b IH]; [simpl; lia|].
  cbn [le_value length]. rewrite Nat2Z.inj_succ, Z.pow_succ_r by lia.
  pose proof (byteZ_range x). lia.
Qed.

(** C4.  When Argon2id returns its eight bytes for the bytes of the
    signature as password, the salt and the three costs of the model and a
    key length of 8, [Hash] is the number those bytes spell in little-endian
    order, below [2^64]; and two models with the same signature and the same
    hasher have the same hash. *)
Theorem Hash_little_endian
    (argon2_IDKey : list byte → list byte → Z → Z → Z → Z → option (list byte))
    (m : ModelInfo) (key : list byte) :
  argon2_IDKey (bytes_of (string_ m)) (Salt (Hasher m)) (Time (Hasher m))
               (Memory (Hasher m)) (Threads (Hasher m)) 8 = Some key →
  length key = 8%nat →
  Hash argon2_IDKey m = Some (le_value key) ∧
  0 ≤ le_value key < 2 ^ 64 ∧
  ∀ m', string_ m' = string_ m → Hasher m' = Hasher m →
        Hash argon2_IDKey m' = Hash argon2_IDKey m.
Proof.
  intros Hkey Hlen. split; [|split].
  - unfold Hash. rewrite Hkey. simpl.
    do 9 (destruct key as [|? key]; try discriminate Hlen). apply Uint64_value.
  - pose proof (le_value_range key) as H. rewrite Hlen in H. exact H.
  - intros m' Hs Hh. unfold Hash. by rewrite Hs, Hh.
Qed.

Lemma Hash_little_endian_witness :
  let m := mkModelInfo "{ X:int }" [] DefaultHasher in
  let key := take 8 (bytes_of "{ X:int }" ++ replicate 8 Byte.x00) in
  Hash prefixKDF m = Some (le_value key) ∧
  0 ≤ le_value key < 2 ^ 64 ∧
  ∀ m', string_ m' = string_ m → Hasher m' = Hasher m →
        Hash prefixKDF m' = Hash prefixKDF m.
Proof.
  apply (Hash_little_endian prefixKDF (mkModelInfo "{ X:int }" [] DefaultHasher)
           (take 8 (bytes_of "{ X:int }" ++ replicate 8 Byte.x00))).
  - reflexivity.
  - reflexivity.
Defined.

Local Close Scope Z_scope.

(** ** Termination *)

Lemma foldlM_total {A B} (f : B → A → option B) l : ∀ acc,
  (∀ a x, x ∈ l → is_Some (f a x)) → is_Some (foldlM f acc l).
Proof.
  induction l as [|x l IH]; intros acc Hstep; simpl; [done|].
  destruct (Hstep acc x) as [acc' ->]; [left|].
  apply IH. intros a y Hy. apply Hstep. by right.
Qed.

Lemma kind_in_graph g t : kindOf g t ≠ Invalid → t ∈ dom g.
Proof.
  unfold kindOf, desc. intros H. apply elem_of_dom.
  destruct (g !! t); [done|]. by destruct H.
Qed.

Lemma room_push g types t :
  t ∈ dom g → t ∉ types → room g (types ++ [t]) < room g types.
Proof.
  intros Hin Hnot. unfold room. apply subset_size.
  rewrite list_to_set_app_L. apply strict_spec_alt. split.
  - intros x. rewrite !elem_of_difference, elem_of_union. tauto.
  - intros Heq. assert (t ∈ dom g ∖ list_to_set (C:=gset nat) types) as H.
    { apply elem_of_difference. split; [done|]. by rewrite elem_of_list_to_set. }
    rewrite <- Heq in H. apply elem_of_difference in H as [_ H]. apply H.
    apply elem_of_union. right. apply elem_of_list_to_set. by left.
Qed.

Lemma room_nil g : room g [] = size (dom g).
Proof. unfold room. f_equal. simpl. apply difference_empty_L. Qed.

Lemma baseType_bounded g F fuel t :
  ptrBounded g F → F ≤ fuel → is_Some (baseType fuel g t).
Proof.
  intros HF Hle. destruct (HF t) as [b Hb].
  exists b. by apply (baseType_mono F).
Qed.

Lemma inPath_false types t : inPath types t = false → t ∉ types.
Proof. unfold inPath. by intros ?%bool_decide_eq_false. Qed.

Lemma expandField_terminates g F : ptrBounded g F →
  ∀ fuel n f types result,
    room g types ≤ n → F + n + 1 ≤ fuel →
    is_Some (expandField fuel g f types result).
Proof.
  intros HF. induction fuel as [|fuel IH]; intros n f types result Hroom Hfuel; [lia|].
  simpl.
  destruct (baseType_bounded g F fuel (Typ f) HF) as [t Ht]; [lia|].
  rewrite Ht. simpl.
  destruct (inPath types t) eqn:Hpath; [done|].
  destruct (bool_decide (kindOf g t = Struct)) eqn:Hk; simpl; [|done].
  destruct (Anonymous f); simpl; [|done].
  apply bool_decide_eq_true in Hk.
  assert (room g (types ++ [t]) < room g types) as Hlt.
  { apply room_push; [|by apply inPath_false].
    apply kind_in_graph. by rewrite Hk. }
  apply foldlM_total. intros [r e] fi _.
  destruct (IH (n - 1) fi (types ++ [t]) r) as [[r' e'] ->]; [lia..|].
  done.
Qed.

Lemma expandAll_terminates g F fuel t :
  ptrBounded g F → F + size (dom g) + 1 ≤ fuel →
  is_Some (expandAll fuel g t).
Proof.
  intros HF Hfuel. unfold expandAll.
  apply foldlM_total. intros [r e] fi _.
  destruct (expandField_terminates g F HF fuel (size (dom g)) fi [] r) as [[r' e'] ->];
    [by rewrite room_nil|lia|].
  done.
Qed.

Lemma structFields_terminates displayName g F fuel t :
  ptrBounded g F → F + size (dom g) + 1 ≤ fuel →
  is_Some (structFields displayName fuel g t).
Proof.
  intros HF Hfuel. unfold structFields.
  destruct (negb _); [done|].
  destruct (expandAll_terminates g F fuel t HF Hfuel) as [[expand errs] ->].
  done.
Qed.

Lemma collect_terminates g F fuel fields :
  ptrBounded g F → F ≤ fuel →
  is_Some (foldlM (ModelReflect.collectStep fuel g) (∅, []) fields).
Proof.
  intros HF Hfuel.
  apply foldlM_total. intros [fm ks] f _. unfold ModelReflect.collectStep.
  destruct (negb (IsExported f)); [done|].
  destruct (baseType_bounded g F fuel (Typ f) HF Hfuel) as [b ->]. simpl.
  by destruct (negb _).
Qed.

Lemma typeToString_terminates_on g F : ptrBounded g F →
  ∀ fuel n t types errs,
    room g types ≤ n → F + size (dom g) + n + 2 ≤ fuel →
    is_Some (ModelReflect.typeToString fuel g t types errs).
Proof.
  intros HF. induction fuel as [|fuel IH]; intros n t types errs Hroom Hfuel; [lia|].
  simpl. destruct t as [t0|]; [|done].
  destruct (baseType_bounded g F fuel t0 HF) as [t Ht]; [lia|].
  rewrite Ht. simpl.
  destruct (negb (ModelReflect.isConcrete g t)); [done|].
  destruct (inPath types t) eqn:Hpath; [done|].
  assert (kindOf g t ≠ Invalid → room g (types ++ [t]) < room g types) as Hlt.
  { intros Hk. apply room_push; [|by apply inPath_false]. by apply kind_in_graph. }
  assert (∀ t' errs', kindOf g t ≠ Invalid →
            is_Some (ModelReflect.typeToString fuel g t' (types ++ [t]) errs')) as Hrec.
  { intros t' errs' Hk. apply (IH (n - 1)); [specialize (Hlt Hk); lia|].
    specialize (Hlt Hk). lia. }
  destruct (kindOf g t) eqn:Hk; try done.
  - (* Array *)
    destruct (Hrec (Some (tElem (desc g t))) errs) as [[s e] ->]; done.
  - (* Map *)
    destruct (Hrec (Some (tKey (desc g t))) errs) as [[k e] ->]; [done|]. simpl.
    destruct (Hrec (Some (tElem (desc g t))) e) as [[s e'] ->]; done.
  - (* Slice *)
    destruct (Hrec (Some (tElem (desc g t))) errs) as [[s e] ->]; done.
  - (* Struct *)
    destruct (bool_decide (0 < length (checkInterfaces g t))); [done|].
    destruct (structFields_terminates Name g F fuel t HF) as [[fields e] Hsf]; [lia|].
    unfold ModelReflect.structFields. rewrite Hsf. simpl.
    destruct (collect_terminates g F fuel fields HF) as [[fieldMap keys] ->]; [lia|].
    simpl.
    match goal with
    | |- is_Some (foldlM ?f ?a ?l ≫= _) =>
        destruct (foldlM_total f l a) as [[r e'] ->]; [|done]
    end.
    intros [r e'] [i name] _.
    destruct (fieldMap !! name) as [f|]; [|done].
    destruct (bool_decide (Tag_Get (Tag f) "reflect" ≠ "")); simpl; [done|].
    destruct (Hrec (Some (Typ f)) e') as [[s e''] ->]; done.
Qed.

(** On a graph whose chains of pointers end, [typeToString] returns from
    the empty path, and so does [New]. *)
Lemma typeToString_terminates g F fuel t errs :
  ptrBounded g F → F + 2 * size (dom g) + 2 ≤ fuel →
  is_Some (ModelReflect.typeToString fuel g t [] errs).
Proof.
  intros HF Hfuel.
  apply (typeToString_terminates_on g F HF fuel (size (dom g)));
    [by rewrite room_nil|lia].
Qed.

(** ** More fuel, same result *)

Lemma foldlM_mono {A B} (f f' : B → A → option B) l : ∀ acc r,
  (∀ a x a', x ∈ l → f a x = Some a' → f' a x = Some a') →
  foldlM f acc l = Some r → foldlM f' acc l = Some r.
Proof.
  induction l as [|x l IH]; intros acc r Hstep Hr; simpl in *; [done|].
  destruct (f acc x) as [acc'|] eqn:Hf; [|done].
  rewrite (Hstep acc x acc') by (done || left).
  apply IH; [|done]. intros a y a' Hy. apply Hstep. by right.
Qed.

Lemma expandField_mono g : ∀ n m f types result r,
  expandField n g f types result = Some r → n ≤ m →
  expandField m g f types result = Some r.
Proof.
  induction n as [|n IH]; intros m f types result r Hr Hle; [done|].
  destruct m as [|m]; [lia|]. simpl in *.
  destruct (baseType n g (Typ f)) as [t|] eqn:Hb; [|done].
  rewrite (baseType_mono n g m (Typ f) t Hb) by lia. simpl in *.
  destruct (inPath types t); [done|].
  destruct (negb _ || negb _); [done|].
  revert Hr. apply foldlM_mono.
  intros [a ea] fi [a' ea'] _ Hstep.
  destruct (expandField n g fi (types ++ [t]) a) as [[c ec]|] eqn:Hc; [|done].
  rewrite (IH m fi (types ++ [t]) a (c, ec)) by (done || lia). done.
Qed.

Lemma structFields_mono displayName g n m t r :
  structFields displayName n g t = Some r → n ≤ m →
  structFields displayName m g t = Some r.
Proof.
  unfold structFields. intros Hr Hle. destruct (negb _); [done|].
  destruct (expandAll n g t) as [[ex e]|] eqn:Hex; [|done].
  assert (expandAll m g t = Some (ex, e)) as ->; [|done].
  revert Hex. unfold expandAll. apply foldlM_mono.
  intros [a ea] fi [a' ea'] _ Hstep.
  destruct (expandField n g fi [] a) as [[c ec]|] eqn:Hc; [|done].
  rewrite (expandField_mono g n m fi [] a (c, ec)) by (done || lia). done.
Qed.

Lemma collect_mono g n m fields st r :
  foldlM (ModelReflect.collectStep n g) st fields = Some r → n ≤ m →
  foldlM (ModelReflect.collectStep m g) st fields = Some r.
Proof.
  intros Hr Hle. revert Hr. apply foldlM_mono.
  intros [fm ks] f a' _. unfold ModelReflect.collectStep.
  destruct (negb (IsExported f)); [done|].
  destruct (baseType n g (Typ f)) as [b|] eqn:Hb; [|done].
  by rewrite (baseType_mono n g m (Typ f) b Hb) by lia.
Qed.

Lemma typeToString_mono g : ∀ n m t types errs r,
  ModelReflect.typeToString n g t types errs = Some r → n ≤ m →
  ModelReflect.typeToString m g t types errs = Some r.
Proof.
  induction n as [|n IH]; intros m t types errs r Hr Hle; [done|].
  destruct m as [|m]; [lia|]. cbn [ModelReflect.typeToString] in *.
  destruct t as [t0|]; [|done].
  destruct (baseType n g t0) as [b|] eqn:Hb; [|done].
  rewrite (baseType_mono n g m t0 b Hb) by lia. cbn [mbind option_bind] in *.
  destruct (negb (ModelReflect.isConcrete g b)); [done|].
  destruct (inPath types b); [done|].
  assert (∀ t1 e1 (k : string * list Error → option (string * list Error)),
            ModelReflect.typeToString n g t1 (types ++ [b]) e1 ≫= k = Some r →
            ModelReflect.typeToString m g t1 (types ++ [b]) e1 ≫= k = Some r) as Hbind.
  { intros t1 e1 k Hk.
    destruct (ModelReflect.typeToString n g t1 (types ++ [b]) e1) as [a|] eqn:Ha; [|done].
    by rewrite (IH m t1 (types ++ [b]) e1 a Ha) by lia. }
  destruct (kindOf g b); try done; try (by apply Hbind).
  - (* Map *)
    destruct (ModelReflect.typeToString n g (Some (tKey (desc g b))) (types ++ [b]) errs)
      as [[k e]|] eqn:Hk; [|done].
    rewrite (IH m _ _ _ _ Hk) by lia. cbn [mbind option_bind] in *.
    by apply Hbind.
  - (* Struct *)
    destruct (bool_decide (0 < length (checkInterfaces g b))); [done|].
    unfold ModelReflect.structFields in *.
    destruct (structFields Name n g b) as [[fields e]|] eqn:Hsf; [|done].
    rewrite (structFields_mono Name g n m b _ Hsf) by lia. cbn [mbind option_bind] in *.
    destruct (foldlM (ModelReflect.collectStep n g) (∅, []) fields)
      as [[fieldMap keys]|] eqn:Hc; [|done].
    rewrite (collect_mono g n m fields _ _ Hc) by lia. cbn [mbind option_bind] in *.
    match type of Hr with
    | foldlM ?f ?a ?l ≫= _ = _ => destruct (foldlM f a l) as [[r0 e0]|] eqn:Hren; [|done]
    end.
    erewrite foldlM_mono; [exact Hr| |exact Hren].
    intros [r1 e1] [i name] a' _. simpl.
    destruct (fieldMap !! name) as [f|]; [|done].
    destruct (bool_decide (Tag_Get (Tag f) "reflect" ≠ "")); [done|].
    destruct (ModelReflect.typeToString n g (Some (Typ f)) (types ++ [b]) e1)
      as [a|] eqn:Ha; [|done].
    by rewrite (IH m _ _ _ _ Ha) by lia.
Qed.

(** On a graph whose chains of pointers end, one result is returned for
    every amount of fuel from a bound on. *)
Lemma typeToString_total g F t errs :
  ptrBounded g F →
  ∃ r, ∀ fuel, F + 2 * size (dom g) + 2 ≤ fuel →
    ModelReflect.typeToString fuel g t [] errs = Some r.
Proof.
  intros HF.
  destruct (typeToString_terminates g F (F + 2 * size (dom g) + 2) t errs HF)
    as [r Hr]; [lia|].
  exists r. intros fuel Hle. by apply (typeToString_mono g _ fuel _ _ _ _ Hr).
Qed.

(** ** Errors without repetition *)

Lemma uniqueErrors_loop l : ∀ keys lst,
  (∀ s, is_Some (keys !! s) ↔ s ∈ Error_msg <$> lst) →
  NoDup (Error_msg <$> lst) →
  ∃ keys' added,
    foldl uniqueErrors_step (keys, lst) l = (keys', lst ++ added) ∧
    sublist added l ∧
    NoDup (Error_msg <$> (lst ++ added)) ∧
    ∀ e, e ∈ l → Error_msg e ∈ Error_msg <$> (lst ++ added).
Proof.
  induction l as [|e l IH]; intros keys lst Hkeys Hnd.
  - exists keys, []. rewrite app_nil_r. split; [done|]. split; [done|].
    split; [done|]. intros e He. by apply elem_of_nil in He.
  - cbn [foldl]. unfold uniqueErrors_step at 2.
    destruct (keys !! Error_msg e) eqn:Hlook.
    + destruct (IH keys lst Hkeys Hnd) as (keys' & added & Heq & Hsub & Hnd' & Hall).
      exists keys', added. split; [done|]. split; [by apply sublist_cons|].
      split; [done|]. intros e' [->|He']%elem_of_cons; [|by apply Hall].
      rewrite fmap_app. apply elem_of_app. left. apply Hkeys. by rewrite Hlook.
    + assert (Error_msg e ∉ Error_msg <$> lst) as Hfresh.
      { intros Hin. apply Hkeys in Hin. rewrite Hlook in Hin. by destruct Hin. }
      destruct (IH (<[Error_msg e := true]> keys) (lst ++ [e]))
        as (keys' & added & Heq & Hsub & Hnd' & Hall).
      * intros s. rewrite fmap_app, elem_of_app. simpl.
        rewrite list_elem_of_singleton, <- Hkeys.
        destruct (decide (Error_msg e = s)) as [<-|Hne].
        -- rewrite lookup_insert_eq. split; [by right|eauto].
        -- rewrite lookup_insert_ne by done. split; [by left|].
           by intros [?|?].
      * rewrite fmap_app. apply NoDup_app. split; [done|]. split.
        -- intros s Hs Hs'. apply list_elem_of_singleton in Hs'. by subst.
        -- apply NoDup_singleton.
      * exists keys', (e :: added). rewrite <- app_assoc in Heq, Hnd', Hall.
        split; [done|]. split; [by apply sublist_skip|]. split; [done|].
        intros e' [->|He']%elem_of_cons; [|by apply Hall].
        rewrite fmap_app. apply elem_of_app. right. simpl. left.
Qed.

Lemma uniqueErrors_spec l :
  NoDup (Error_msg <$> uniqueErrors l) ∧
  sublist (uniqueErrors l) l ∧
  ∀ e, e ∈ l → Error_msg e ∈ Error_msg <$> uniqueErrors l.
Proof.
  unfold uniqueErrors.
  destruct (uniqueErrors_loop l ∅ []) as (keys' & added & -> & Hsub & Hnd & Hall).
  - intros s. rewrite lookup_empty. simpl. split; [by intros []|].
    intros H. by apply elem_of_nil in H.
  - constructor.
  - done.
Qed.

Lemma uniqueErrors_nil l : uniqueErrors l = [] ↔ l = [].
Proof.
  split; [|by intros ->].
  intros Hu. destruct l as [|e l]; [done|].
  destruct (uniqueErrors_spec (e :: l)) as (_ & _ & Hall).
  specialize (Hall e (list_elem_of_here _ _)). rewrite Hu in Hall.
  by apply elem_of_nil in Hall.
Qed.

(** ** [New] *)

Lemma ptrBounded_intro g F :
  0 < F →
  bool_decide (map_Forall (λ t _, is_Some (baseType F g t)) g) = true →
  ptrBounded g F.
Proof.
  intros HF Hall%bool_decide_eq_true t.
  destruct (g !! t) as [d|] eqn:Ht; [by apply (Hall t d)|].
  destruct F as [|F]; [lia|]. simpl.
  rewrite bool_decide_eq_false_2; [done|].
  unfold kindOf, desc. by rewrite Ht.
Qed.

(** C5.  On a graph whose chains of pointers end, [New] returns, and
    returns the same for every amount of fuel from a bound on.  Its error is
    nil exactly when [typeToString] collected no diagnostic; otherwise it
    joins the diagnostics that [uniqueErrors] keeps, which are the first of
    every message, in order; and the model carries the whole signature in
    either case. *)
Theorem New_error_iff_diagnostics g F v :
  ptrBounded g F →
  ∃ sig diags m err,
    (∀ fuel, F + 2 * size (dom g) + 2 ≤ fuel →
       ModelReflect.typeToString fuel g (TypeOf v) [] [] = Some (sig, diags) ∧
       ModelReflect.New fuel g v = Some (m, err)) ∧
    string_ m = sig ∧
    (err = None ↔ diags = []) ∧
    err = errors_Join (uniqueErrors diags) ∧
    Errs m = uniqueErrors diags ∧
    NoDup (Error_msg <$> uniqueErrors diags) ∧
    sublist (uniqueErrors diags) diags ∧
    (∀ e, e ∈ diags → Error_msg e ∈ Error_msg <$> uniqueErrors diags).
Proof.
  intros HF.
  destruct (typeToString_total g F (TypeOf v) [] HF) as [[sig diags] Ht].
  destruct (uniqueErrors_spec diags) as (Hnd & Hsub & Hall).
  destruct (uniqueErrors diags) as [|e u] eqn:Hu.
  - assert (diags = []) as Hd by (by apply uniqueErrors_nil).
    exists sig, diags, (mkModelInfo sig [] DefaultHasher), None. split.
    + intros fuel Hfuel. unfold ModelReflect.New. rewrite (Ht fuel Hfuel). simpl.
      by rewrite Hu.
    + rewrite Hu. split; [done|]. split; [by split|]. done.
  - assert (diags ≠ []) as Hd by (intros Hd%uniqueErrors_nil; congruence).
    exists sig, diags, (mkModelInfo sig (e :: u) DefaultHasher), (Some (e :: u)). split.
    + intros fuel Hfuel. unfold ModelReflect.New. rewrite (Ht fuel Hfuel). simpl.
      by rewrite Hu.
    + rewrite Hu. split; [done|]. split; [by split|]. done.
Qed.

Lemma New_error_iff_diagnostics_witness :
  ∃ sig diags m err,
    (∀ fuel, 1 + 2 * size (dom collisionGraph) + 2 ≤ fuel →
       ModelReflect.typeToString fuel collisionGraph (TypeOf (mkAny (Some 3) [])) [] []
         = Some (sig, diags) ∧
       ModelReflect.New fuel collisionGraph (mkAny (Some 3) []) = Some (m, err)) ∧
    string_ m = sig ∧
    (err = None ↔ diags = []) ∧
    err = errors_Join (uniqueErrors diags) ∧
    Errs m = uniqueErrors diags ∧
    NoDup (Error_msg <$> uniqueErrors diags) ∧
    sublist (uniqueErrors diags) diags ∧
    (∀ e, e ∈ diags → Error_msg e ∈ Error_msg <$> uniqueErrors diags).
Proof.
  apply (New_error_iff_diagnostics collisionGraph 1 (mkAny (Some 3) [])).
  apply ptrBounded_intro; [lia|]. vm_compute. reflexivity.
Defined.

(** A repeated diagnostic is joined once: [struct{A T; B T}] where [T] is
    the empty struct. *)
Example New_joins_each_message_once :
  let g : gmap nat TypeDesc :=
    list_to_map [ (0, structType "main.T" []);
                  (1, structType "main.U" [field "A" 0; field "B" 0]) ] in
  ModelReflect.typeToString 10 g (Some 1) [] []
    = Some ("{ A:{  }, B:{  } }", [EmptyStructOf "main.T"; EmptyStructOf "main.T"]) ∧
  ModelReflect.New 10 g (mkAny (Some 1) [])
    = Some (mkModelInfo "{ A:{  }, B:{  } }" [EmptyStructOf "main.T"] DefaultHasher,
            Some [EmptyStructOf "main.T"]).
Proof. split; vm_compute; reflexivity. Qed.

(** C10.  [New] reads of its argument the dynamic type only: two values of
    the same dynamic type give the same result in both revisions, with the
    same signature, the same diagnostics, the same error and, under any one
    hasher, the same hash. *)
Theorem New_depends_on_type_only
    (argon2_IDKey : list byte → list byte → Z → Z → Z → Z → option (list byte))
    fuel g (v1 v2 : Any) :
  TypeOf v1 = TypeOf v2 →
  ModelReflect.New fuel g v1 = ModelReflect.New fuel g v2 ∧
  Tagged.New fuel g v1 = Tagged.New fuel g v2 ∧
  ∀ m1 e1 m2 e2,
    (ModelReflect.New fuel g v1 = Some (m1, e1) ∧
     ModelReflect.New fuel g v2 = Some (m2, e2)) ∨
    (Tagged.New fuel g v1 = Some (m1, e1) ∧ Tagged.New fuel g v2 = Some (m2, e2)) →
    string_ m1 = string_ m2 ∧ Errs m1 = Errs m2 ∧ e1 = e2 ∧
    Hash argon2_IDKey m1 = Hash argon2_IDKey m2 ∧
    ∀ h, Hash argon2_IDKey (mkModelInfo (string_ m1) (Errs m1) h)
         = Hash argon2_IDKey (mkModelInfo (string_ m2) (Errs m2) h).
Proof.
  intros Hty.
  assert (ModelReflect.New fuel g v1 = ModelReflect.New fuel g v2) as H1
    by (unfold ModelReflect.New; by rewrite Hty).
  assert (Tagged.New fuel g v1 = Tagged.New fuel g v2) as H2
    by (unfold Tagged.New; by rewrite Hty).
  split; [done|]. split; [done|].
  intros m1 e1 m2 e2 [[Ha Hb]|[Ha Hb]].
  - rewrite H1, Hb in Ha. injection Ha as <- <-. done.
  - rewrite H2, Hb in Ha. injection Ha as <- <-. done.
Qed.

Lemma New_depends_on_type_only_witness :
  let v1 := mkAny (Some 3) [Byte.x01] in
  let v2 := mkAny (Some 3) [Byte.x02; Byte.x03] in
  ModelReflect.New 10 shadowTwiceGraph v1 = ModelReflect.New 10 shadowTwiceGraph v2 ∧
  Tagged.New 10 shadowTwiceGraph v1 = Tagged.New 10 shadowTwiceGraph v2 ∧
  ∀ m1 e1 m2 e2,
    (ModelReflect.New 10 shadowTwiceGraph v1 = Some (m1, e1) ∧
     ModelReflect.New 10 shadowTwiceGraph v2 = Some (m2, e2)) ∨
    (Tagged.New 10 shadowTwiceGraph v1 = Some (m1, e1) ∧
     Tagged.New 10 shadowTwiceGraph v2 = Some (m2, e2)) →
    string_ m1 = string_ m2 ∧ Errs m1 = Errs m2 ∧ e1 = e2 ∧
    Hash prefixKDF m1 = Hash prefixKDF m2 ∧
    ∀ h, Hash prefixKDF (mkModelInfo (string_ m1) (Errs m1) h)
         = Hash prefixKDF (mkModelInfo (string_ m2) (Errs m2) h).
Proof.
  apply (New_depends_on_type_only prefixKDF 10 shadowTwiceGraph
           (mkAny (Some 3) [Byte.x01]) (mkAny (Some 3) [Byte.x02; Byte.x03])).
  reflexivity.
Defined.

(** ** The cycle guards *)

(** The guard of [typeToString]: a concrete base type that is on the path
    is rendered as the sentinel, with one more diagnostic, and is not
    entered. *)
Lemma typeToString_loop fuel g t b types errs :
  baseType fuel g t = Some b →
  ModelReflect.isConcrete g b = true →
  b ∈ types →
  ModelReflect.typeToString (S fuel) g (Some t) types errs
  = Some ("...", errs ++ [LoopDetectedIn (tString (desc g b))]).
Proof.
  intros Hb Hc Hin. simpl. rewrite Hb. simpl. rewrite Hc. simpl.
  unfold inPath. by rewrite bool_decide_eq_true_2.
Qed.

(** The guard of [expandField]: a base type that is on the path yields one
    diagnostic and no field, and the buckets are kept for the siblings. *)
Lemma expandField_loop fuel g f b types result :
  baseType fuel g (Typ f) = Some b →
  b ∈ types →
  expandField (S fuel) g f types result
  = Some (growTo (length types) result, [LoopDetectedIn (tString (desc g b))]).
Proof.
  intros Hb Hin. simpl. rewrite Hb. simpl.
  unfold inPath. by rewrite bool_decide_eq_true_2.
Qed.

(** A pointer type that is its own element is walked without end. *)
Lemma baseType_self_pointer fuel : baseType fuel selfPointerGraph 0 = None.
Proof. induction fuel as [|fuel IH]; [done|]. simpl. exact IH. Qed.

(** C3, at [type P *P].  The graph has one node and is cyclic; [baseType]
    never leaves the pointer, so that no amount of fuel lets
    [typeToString], and hence [New], return: the guards of [typeToString]
    and [expandField] are never reached. *)
Theorem self_pointer_diverges (fuel : nat) :
  ModelReflect.typeToString fuel selfPointerGraph (Some 0) [] [] = None ∧
  ModelReflect.New fuel selfPointerGraph (mkAny (Some 0) []) = None.
Proof.
  assert (ModelReflect.typeToString fuel selfPointerGraph (Some 0) [] [] = None) as H.
  { destruct fuel as [|fuel]; [done|]. simpl. by rewrite baseType_self_pointer. }
  split; [done|]. unfold ModelReflect.New. simpl. by rewrite H.
Qed.

(** ** Graphs of the same shape *)

Lemma baseType_sameShape g g' fuel : sameShape g g' →
  ∀ t, baseType fuel g t = baseType fuel g' t.
Proof.
  intros Hs. induction fuel as [|fuel IH]; intros t; [done|].
  simpl. unfold kindOf. destruct (Hs t) as (-> & -> & _). by rewrite IH.
Qed.

Lemma checkInterfaces_sameShape g g' t :
  sameShape g g' → checkInterfaces g t = checkInterfaces g' t.
Proof.
  intros Hs. unfold checkInterfaces. f_equal.
  apply list_filter_iff. intros iface. unfold PtrTo_Implements.
  destruct (Hs t) as (_ & _ & _ & _ & ->). done.
Qed.

Lemma isConcrete_sameShape g g' t :
  sameShape g g' → ModelReflect.isConcrete g t = ModelReflect.isConcrete g' t.
Proof.
  intros Hs. unfold ModelReflect.isConcrete, kindOf. by destruct (Hs t) as (-> & _).
Qed.

Lemma desc_insert g b d t :
  desc (<[b := d]> g) t = if decide (b = t) then d else desc g t.
Proof.
  unfold desc. case_decide as E; [subst; by rewrite lookup_insert_eq|].
  by rewrite lookup_insert_ne.
Qed.

Lemma sameShape_withFields g b fields :
  sameShape g (<[b := withFields (desc g b) fields]> g).
Proof.
  intros t. rewrite !desc_insert. by destruct (decide (b = t)) as [->|Hne].
Qed.

Example capability_signature :
  ModelReflect.New 10 capabilityGraph (mkAny (Some 3) [])
  = Some (mkModelInfo "{ At:(encoding.TextMarshaler,encoding.TextUnmarshaler) }" []
                      DefaultHasher, None).
Proof. vm_compute. reflexivity. Qed.

(** ** The order of the fields *)

(** *** Expansion adds to the buckets *)

Lemma merge_nil_r r : merge r [] = r.
Proof. by destruct r. Qed.

Lemma merge_assoc a : ∀ b c, merge (merge a b) c = merge a (merge b c).
Proof.
  induction a as [|x a IH]; intros b c; [done|].
  destruct b as [|y b]; [done|]. destruct c as [|z c]; [done|].
  simpl. by rewrite IH, app_assoc.
Qed.

Lemma pad_merge r : ∀ n,
  r ++ replicate (n - length r) [] = merge r (replicate n []).
Proof.
  induction r as [|x r IH]; intros n; simpl.
  - by rewrite Nat.sub_0_r.
  - destruct n as [|n]; simpl; [by rewrite app_nil_r|].
    by rewrite IH, app_nil_r.
Qed.

Lemma growTo_merge d r : growTo d r = merge r (replicate (S d) []).
Proof. unfold growTo. apply pad_merge. Qed.

Lemma alter_blank (f : StructField) d :
  alter (λ level, level ++ [f]) d (replicate (S d) []) = replicate d [] ++ [[f]].
Proof.
  induction d as [|d IH]; [done|].
  change (replicate (S (S d)) []) with (@nil StructField :: replicate (S d) []).
  change (replicate (S d) [] ++ [[f]]) with (@nil StructField :: (replicate d [] ++ [[f]])).
  rewrite <- IH. done.
Qed.

Lemma alter_merge f r : ∀ d,
  alter (λ level, level ++ [f]) d (merge r (replicate (S d) []))
  = merge r (replicate d [] ++ [[f]]).
Proof.
  induction r as [|x r IH]; intros d.
  - apply alter_blank.
  - destruct d as [|d].
    + simpl. by rewrite merge_nil_r, app_nil_r.
    + change (replicate (S (S d)) []) with (@nil StructField :: replicate (S d) []).
      change (replicate (S d) [] ++ [[f]])
        with (@nil StructField :: (replicate d [] ++ [[f]])).
      cbn [merge]. rewrite app_nil_r, <- IH. done.
Qed.

Lemma foldlM_ext {A B} (f f' : B → A → option B) l : ∀ acc,
  (∀ a x, x ∈ l → f a x = f' a x) → foldlM f acc l = foldlM f' acc l.
Proof.
  induction l as [|x l IH]; intros acc H; simpl; [done|].
  rewrite <- H by left. destruct (f acc x); [|done].
  apply IH. intros a y Hy. apply H. by right.
Qed.

Lemma addStep_shift contrib base fields : ∀ X errs,
  foldlM (addStep contrib) (merge base X, errs) fields
  = (λ st, (merge base st.1, st.2)) <$> foldlM (addStep contrib) (X, errs) fields.
Proof.
  induction fields as [|f fields IH]; intros X errs; simpl; [done|].
  unfold addStep at 1 3. destruct (contrib f) as [[c e]|]; simpl; [|done].
  by rewrite merge_assoc, IH.
Qed.

Lemma expandField_merge fuel g : ∀ f types result,
  expandField fuel g f types result
  = (λ st, (merge result st.1, st.2)) <$> expandField fuel g f types [].
Proof.
  induction fuel as [|fuel IH]; intros f types result; [done|].
  simpl. destruct (baseType fuel g (Typ f)) as [t|]; [|done]. simpl.
  rewrite !growTo_merge.
  destruct (inPath types t); [done|].
  destruct (negb _ || negb _).
  { simpl. rewrite !alter_merge, <- alter_blank. done. }
  assert (∀ fs st,
    foldlM (λ '(result, errs) fi,
              '(result', e) ← expandField fuel g fi (types ++ [t]) result;
              Some (result', errs ++ e)) st fs
    = foldlM (addStep (λ fi, expandField fuel g fi (types ++ [t]) [])) st fs) as Hstep.
  { intros fs st. apply foldlM_ext. intros [r e] fi _. unfold addStep.
    rewrite (IH fi (types ++ [t]) r).
    by destruct (expandField fuel g fi (types ++ [t]) []) as [[??]|]. }
  rewrite !Hstep, addStep_shift. done.
Qed.

(** *** Expansion and the order of the fields *)

#[local] Instance sameBuckets_refl : Reflexive sameBuckets.
Proof. intros st. unfold sameBuckets. reflexivity. Qed.

#[local] Instance sameBuckets_trans : Transitive sameBuckets.
Proof. intros a b c. unfold sameBuckets. intros ??. by etrans. Qed.

Lemma merge_perm a : ∀ a' b b',
  Forall2 (≡ₚ) a a' → Forall2 (≡ₚ) b b' → Forall2 (≡ₚ) (merge a b) (merge a' b').
Proof.
  induction a as [|x a IH]; intros a' b b' Ha Hb.
  - apply Forall2_nil_inv_l in Ha as ->. done.
  - apply Forall2_cons_inv_l in Ha as (x' & a'' & Hx & Ha & ->).
    destruct Hb as [|y y' b b' Hy Hb]; simpl.
    + by constructor.
    + constructor; [by rewrite Hx, Hy|]. by apply IH.
Qed.

Lemma merge_comm a : ∀ b, Forall2 (≡ₚ) (merge a b) (merge b a).
Proof.
  induction a as [|x a IH]; intros b.
  - rewrite merge_nil_r. simpl. reflexivity.
  - destruct b as [|y b]; simpl; [reflexivity|].
    constructor; [apply Permutation_app_comm|apply IH].
Qed.

Lemma addStep_rel contrib contrib' l :
  (∀ f, f ∈ l → option_Forall2 sameBuckets (contrib f) (contrib' f)) →
  ∀ st st', sameBuckets st st' →
    option_Forall2 sameBuckets (foldlM (addStep contrib) st l)
                               (foldlM (addStep contrib') st' l).
Proof.
  intros Hc st st' Hst. apply foldlM_rel; [done|].
  intros a a' f Hf Ha. unfold addStep.
  destruct (Hc f Hf) as [[c e] [c' e'] Hcc|]; simpl; constructor.
  unfold sameBuckets in *. simpl in *. by apply merge_perm.
Qed.

Lemma addStep_perm contrib l l' :
  l ≡ₚ l' →
  ∀ st st', sameBuckets st st' →
    option_Forall2 sameBuckets (foldlM (addStep contrib) st l)
                               (foldlM (addStep contrib) st' l').
Proof.
  induction 1 as [|x l l' _ IH|x y l|l l' l'' _ IH1 _ IH2]; intros st st' Hst.
  - by constructor.
  - simpl. unfold addStep at 1 3.
    destruct (contrib x) as [[c e]|]; simpl; [|constructor].
    apply IH. unfold sameBuckets in *. simpl. by apply merge_perm.
  - simpl. unfold addStep at 1 2 4 5.
    destruct (contrib x) as [[cx ex]|], (contrib y) as [[cy ey]|]; simpl;
      try constructor.
    apply addStep_rel; [intros; reflexivity|].
    unfold sameBuckets in *. simpl.
    rewrite !merge_assoc. apply merge_perm; [done|apply merge_comm].
  - etrans; [by apply IH1|]. by apply IH2.
Qed.

Lemma expandField_step fuel g f types result :
  expandField (S fuel) g f types result
  = (t ← baseType fuel g (Typ f);
     if inPath types t then
       Some (growTo (length types) result, [LoopDetectedIn (tString (desc g t))])
     else if negb (bool_decide (kindOf g t = Struct)) || negb (Anonymous f) then
       Some (alter (λ level, level ++ [f]) (length types) (growTo (length types) result), [])
     else
       foldlM (addStep (λ fi, expandField fuel g fi (types ++ [t]) []))
              (growTo (length types) result, []) (tFields (desc g t))).
Proof.
  simpl. destruct (baseType fuel g (Typ f)) as [t|]; [|done]. simpl.
  destruct (inPath types t); [done|].
  destruct (negb _ || negb _); [done|].
  apply foldlM_ext. intros [r e] fi _. unfold addStep.
  rewrite (expandField_merge fuel g fi (types ++ [t]) r).
  by destruct (expandField fuel g fi (types ++ [t]) []) as [[??]|].
Qed.

Lemma expandAll_step fuel g t :
  expandAll fuel g t
  = foldlM (addStep (λ f, expandField fuel g f [] [])) ([], []) (tFields (desc g t)).
Proof.
  unfold expandAll. apply foldlM_ext. intros [r e] fi _. unfold addStep.
  rewrite (expandField_merge fuel g fi [] r).
  by destruct (expandField fuel g fi [] []) as [[??]|].
Qed.

Lemma expandField_perm g g' : fieldPerm g g' →
  ∀ fuel f types,
    option_Forall2 sameBuckets (expandField fuel g f types [])
                               (expandField fuel g' f types []).
Proof.
  intros [Hs Hf]. induction fuel as [|fuel IH]; intros f types; [constructor|].
  rewrite !expandField_step.
  rewrite <- (baseType_sameShape g g' fuel Hs).
  destruct (baseType fuel g (Typ f)) as [t|]; [|constructor]. simpl.
  destruct (inPath types t); [apply Some_Forall2; unfold sameBuckets; reflexivity|].
  unfold kindOf. destruct (Hs t) as (<- & _).
  destruct (negb _ || negb _); [apply Some_Forall2; unfold sameBuckets; reflexivity|].
  etrans.
  - apply addStep_perm; [apply (Hf t)|reflexivity].
  - apply addStep_rel; [|reflexivity]. intros fi _. apply IH.
Qed.

Lemma expandAll_perm g g' fuel t :
  fieldPerm g g' →
  option_Forall2 sameBuckets (expandAll fuel g t) (expandAll fuel g' t).
Proof.
  intros Hp. rewrite !expandAll_step. etrans.
  - apply addStep_perm; [apply (proj2 Hp t)|reflexivity].
  - apply addStep_rel; [|reflexivity]. intros fi _. by apply expandField_perm.
Qed.

(** *** Selection and the order of the fields *)

Section SelectionOrder.
Variable displayName : StructField → string.

Local Abbreviation occ := (occ displayName).
Local Abbreviation named := (named displayName).
Local Abbreviation promoted := (promoted displayName).

Lemma occ_perm k l l' : l ≡ₚ l' → occ k l = occ k l'.
Proof. intros H. rewrite !occ_named. unfold named. by rewrite H. Qed.

Lemma promoted_perm ls ls' :
  Forall2 (≡ₚ) ls ls' → ∀ seen, promoted seen ls ≡ₚ promoted seen ls'.
Proof.
  induction 1 as [|l l' ls ls' Hl _ IH]; intros seen; [done|].
  cbn [promoted]. apply Permutation_app.
  - erewrite (list_filter_iff _ (λ f, ignored f = false
        ∧ seen (displayName f) + occ (displayName f) l' = 1)).
    + by rewrite Hl.
    + intros f. by rewrite (occ_perm _ l l').
  - rewrite (promoted_ext displayName ls _ (λ k, seen k + occ k l')).
    + apply IH.
    + intros k. by rewrite (occ_perm _ l l').
Qed.

Lemma promoted_at_most_one levels : ∀ seen k,
  length (named k (promoted seen levels)) ≤ 1.
Proof.
  induction levels as [|level rest IH]; intros seen k; [simpl; lia|].
  destruct (decide (occ k level = 0)) as [H0|H0].
  { rewrite promoted_absent by done. apply IH. }
  cbn [promoted]. rewrite named_app, named_level_filter.
  rewrite promoted_shadowed by lia. rewrite app_nil_r.
  case_decide as H1; [|simpl; lia].
  etrans; [apply length_filter|]. rewrite <- occ_named. lia.
Qed.

Lemma NoDup_names (l : list StructField) :
  (∀ k, length (named k l) ≤ 1) → NoDup (displayName <$> l).
Proof.
  induction l as [|f l IH]; intros H; [constructor|].
  simpl. constructor.
  - intros Hin. apply list_elem_of_fmap in Hin as (f' & Heq & Hin).
    specialize (H (displayName f)). unfold named in H.
    rewrite filter_cons_True in H by done. simpl in H.
    assert (f' ∈ filter (λ x, displayName x = displayName f) l) as Hf'
      by (apply list_elem_of_filter; done).
    destruct (filter _ l); [by apply elem_of_nil in Hf'|simpl in H; lia].
  - apply IH. intros k. specialize (H k). unfold named in *.
    rewrite filter_cons in H. case_decide; simpl in H; lia.
Qed.

Lemma promoted_Forall (P : StructField → Prop) levels : ∀ seen,
  Forall (Forall P) levels → Forall P (promoted seen levels).
Proof.
  induction levels as [|level rest IH]; intros seen H; [constructor|].
  apply Forall_cons_1 in H as [Hl Hr]. cbn [promoted].
  apply Forall_app. split; [|by apply IH].
  apply Forall_forall. intros f Hf. apply list_elem_of_filter in Hf as [_ Hf].
  by eapply Forall_forall in Hl.
Qed.

Lemma structFields_perm g g' fuel t :
  fieldPerm g g' →
  option_Forall2 (λ a b, a.1 ≡ₚ b.1)
    (structFields displayName fuel g t) (structFields displayName fuel g' t).
Proof.
  intros Hp. unfold structFields, kindOf.
  destruct (proj1 Hp t) as (<- & _).
  destruct (negb _); [by constructor|].
  destruct (expandAll_perm g g' fuel t Hp) as [[ex e] [ex' e'] Hex|]; [|constructor].
  simpl. constructor.
  destruct (selectFields_spec displayName (tString (desc g t)) ex e) as (E & -> & _).
  destruct (selectFields_spec displayName (tString (desc g' t)) ex' e') as (E' & -> & _).
  simpl. by apply promoted_perm.
Qed.
End SelectionOrder.

Lemma merge_nil_l c : merge [] c = c.
Proof. reflexivity. Qed.

Lemma merge_Forall (P : StructField → Prop) a : ∀ b,
  Forall (Forall P) a → Forall (Forall P) b → Forall (Forall P) (merge a b).
Proof.
  induction a as [|x a IH]; intros b Ha Hb; [done|].
  destruct Hb as [|y b Hy Hb]; [done|].
  apply Forall_cons_1 in Ha as [Hx Ha]. simpl. constructor; [|by apply IH].
  by apply Forall_app.
Qed.

Lemma expandField_fields (P : StructField → Prop) g :
  (∀ t f, f ∈ tFields (desc g t) → P f) →
  ∀ fuel f types r e,
    P f → expandField fuel g f types [] = Some (r, e) → Forall (Forall P) r.
Proof.
  intros Hg. induction fuel as [|fuel IH]; intros f types r e Hf Hr; [done|].
  rewrite expandField_step in Hr.
  destruct (baseType fuel g (Typ f)) as [t|]; [|done]. simpl in Hr.
  rewrite growTo_merge, merge_nil_l in Hr.
  assert (∀ n, Forall (Forall P) (replicate n [])) as Hblank
    by (intros n; apply Forall_replicate; constructor).
  destruct (inPath types t).
  { injection Hr as <- <-. apply (Hblank (S _)). }
  destruct (negb _ || negb _).
  { rewrite alter_blank in Hr. injection Hr as <- <-. apply Forall_app. split.
    - apply Hblank.
    - by repeat constructor. }
  revert Hr. apply (foldlM_inv (λ st, Forall (Forall P) st.1)).
  - apply (Hblank (S _)).
  - intros [a ea] fi [a' ea'] Hfi Ha Hstep. unfold addStep in Hstep. simpl in *.
    destruct (expandField fuel g fi (types ++ [t]) []) as [[c ec]|] eqn:Hc; [|done].
    simpl in Hstep. injection Hstep as <- <-.
    apply merge_Forall; [done|]. eapply IH; [|exact Hc]. by eapply Hg.
Qed.

Lemma structFields_fields (P : StructField → Prop) displayName g fuel t fields e :
  (∀ t f, f ∈ tFields (desc g t) → P f) →
  structFields displayName fuel g t = Some (fields, e) → Forall P fields.
Proof.
  intros Hg. unfold structFields. destruct (negb _).
  { intros [= <- <-]. constructor. }
  destruct (expandAll fuel g t) as [[ex e0]|] eqn:Hex; [|done]. simpl.
  destruct (selectFields_spec displayName (tString (desc g t)) ex e0) as (E & -> & _).
  intros [= <- <-]. apply promoted_Forall.
  revert Hex. rewrite expandAll_step.
  apply (foldlM_inv (λ st, Forall (Forall P) st.1)); [constructor|].
  intros [a ea] fi [a' ea'] Hfi Ha Hstep. unfold addStep in Hstep. simpl in *.
  destruct (expandField fuel g fi [] []) as [[c ec]|] eqn:Hc; [|done].
  simpl in Hstep. injection Hstep as <- <-.
  apply merge_Forall; [done|]. eapply expandField_fields; [exact Hg| |exact Hc].
  by eapply Hg.
Qed.

Lemma structFields_NoDup displayName g fuel t fields e :
  structFields displayName fuel g t = Some (fields, e) →
  NoDup (displayName <$> fields).
Proof.
  unfold structFields. destruct (negb _).
  { intros [= <- <-]. constructor. }
  destruct (expandAll fuel g t) as [[ex e0]|]; [|done]. simpl.
  destruct (selectFields_spec displayName (tString (desc g t)) ex e0) as (E & -> & _).
  intros [= <- <-]. apply NoDup_names. apply promoted_at_most_one.
Qed.

(** *** The collecting loop and the order of the fields *)

Lemma collectStep_verdict fuel g st f :
  ModelReflect.collectStep fuel g st f
  = (v ← verdict fuel g f; Some (if v : bool then fileField st f else st)).
Proof.
  unfold ModelReflect.collectStep, verdict, fileField, keyOf. destruct st as [fm ks].
  destruct (negb (IsExported f)); [done|].
  destruct (baseType fuel g (Typ f)) as [b|]; [|done]. simpl.
  by destruct (ModelReflect.isConcrete g b).
Qed.

Lemma verdict_sameShape g g' fuel f :
  sameShape g g' → verdict fuel g f = verdict fuel g' f.
Proof.
  intros Hs. unfold verdict. destruct (negb _); [done|].
  rewrite <- (baseType_sameShape g g' fuel Hs).
  destruct (baseType fuel g (Typ f)) as [b|]; [|done]. simpl.
  by rewrite (isConcrete_sameShape g g' b Hs).
Qed.

#[local] Instance sameKeys_refl : Reflexive sameKeys.
Proof. by intros st. Qed.

#[local] Instance sameKeys_trans : Transitive sameKeys.
Proof. intros a b c [H1 H2] [H3 H4]. split; [congruence|by etrans]. Qed.

Lemma fileField_sameKeys st st' f :
  sameKeys st st' → sameKeys (fileField st f) (fileField st' f).
Proof.
  intros [Hm Hk]. unfold fileField, sameKeys. simpl. rewrite <- Hm.
  split; [done|]. destruct (st.1 !! keyOf f); [done|]. by rewrite Hk.
Qed.

Lemma fileField_swap st x y :
  keyOf x ≠ keyOf y →
  sameKeys (fileField (fileField st y) x) (fileField (fileField st x) y).
Proof.
  intros Hne. unfold fileField, sameKeys. simpl.
  rewrite !lookup_insert_ne by done. split; [by apply insert_insert_ne|].
  destruct (st.1 !! keyOf x), (st.1 !! keyOf y); try done.
  rewrite <- !app_assoc. apply Permutation_app_head, Permutation_app_comm.
Qed.

Lemma collect_rel fuel g l : ∀ st st',
  sameKeys st st' →
  option_Forall2 sameKeys (foldlM (ModelReflect.collectStep fuel g) st l)
                          (foldlM (ModelReflect.collectStep fuel g) st' l).
Proof.
  intros st st' Hst. apply foldlM_rel; [done|].
  intros a a' f _ Ha. rewrite !collectStep_verdict.
  destruct (verdict fuel g f) as [[|]|]; simpl; constructor; [|done].
  by apply fileField_sameKeys.
Qed.

Lemma foldlM_cons {A B} (f : B → A → option B) acc x l :
  foldlM f acc (x :: l) = f acc x ≫= λ acc', foldlM f acc' l.
Proof. simpl. by destruct (f acc x). Qed.

Lemma collect_perm fuel g l l' :
  l ≡ₚ l' → NoDup (keyOf <$> l) →
  ∀ st st', sameKeys st st' →
    option_Forall2 sameKeys (foldlM (ModelReflect.collectStep fuel g) st l)
                            (foldlM (ModelReflect.collectStep fuel g) st' l').
Proof.
  induction 1 as [|x l l' _ IH|x y l|l l' l'' Hp IH1 _ IH2]; intros Hnd st st' Hst.
  - by constructor.
  - rewrite !foldlM_cons, !collectStep_verdict.
    apply NoDup_cons in Hnd as [_ Hnd].
    destruct (verdict fuel g x) as [[|]|]; cbn [mbind option_bind];
      [|by apply IH|constructor].
    apply IH; [done|]. by apply fileField_sameKeys.
  - simpl in Hnd. apply NoDup_cons in Hnd as [Hy Hnd].
    assert (keyOf x ≠ keyOf y) as Hne.
    { intros Heq. apply Hy. rewrite Heq. left. }
    rewrite (foldlM_cons _ st y), (foldlM_cons _ st' x), !collectStep_verdict.
    destruct (verdict fuel g x) as [vx|] eqn:Hvx, (verdict fuel g y) as [vy|] eqn:Hvy;
      cbn [mbind option_bind];
      rewrite ?foldlM_cons, ?collectStep_verdict, ?Hvx, ?Hvy; cbn [mbind option_bind];
      try constructor.
    apply collect_rel.
    destruct vx, vy; try done; try (by apply fileField_sameKeys).
    etrans; [apply fileField_swap; exact Hne|].
    by apply fileField_sameKeys, fileField_sameKeys.
  - etrans; [by apply IH1|]. apply IH2; [|done]. by rewrite <- Hp.
Qed.

Lemma sort_Strings_perm ks ks' : ks ≡ₚ ks' → sort_Strings ks = sort_Strings ks'.
Proof.
  intros Hp. unfold sort_Strings.
  apply (Sorted_unique String.le).
  - apply Sorted_merge_sort. apply _.
  - apply Sorted_merge_sort. apply _.
  - by rewrite !merge_sort_Permutation.
Qed.

Lemma keyOf_inj (x y : StructField) :
  ¬ dotted (Name x) → ¬ dotted (Name y) → keyOf x = keyOf y → Name x = Name y.
Proof.
  unfold keyOf. intros Hx Hy.
  destruct (Anonymous x), (Anonymous y); simpl; intros Heq.
  - by injection Heq.
  - destruct Hy. by eexists.
  - destruct Hx. by eexists.
  - done.
Qed.

Lemma NoDup_keys (l : list StructField) :
  Forall (λ f, ¬ dotted (Name f)) l → NoDup (Name <$> l) → NoDup (keyOf <$> l).
Proof.
  induction l as [|f l IH]; intros Hd Hn; [constructor|].
  apply Forall_cons_1 in Hd as [Hf Hd]. simpl in Hn.
  apply NoDup_cons in Hn as [Hnot Hn]. simpl. constructor; [|by apply IH].
  intros Hin. apply list_elem_of_fmap in Hin as (f' & Heq & Hin).
  apply Hnot. apply list_elem_of_fmap. exists f'. split; [|done].
  apply keyOf_inj; [done| |done]. by eapply Forall_forall in Hd.
Qed.

(** *** The signature and the order of the fields *)

#[local] Instance sameSig_refl : Reflexive sameSig.
Proof. by intros a. Qed.

Lemma collect_sameShape g g' fuel fields st :
  sameShape g g' →
  foldlM (ModelReflect.collectStep fuel g') st fields
  = foldlM (ModelReflect.collectStep fuel g) st fields.
Proof.
  intros Hs. apply foldlM_ext. intros a f _.
  by rewrite !collectStep_verdict, (verdict_sameShape g g' fuel f Hs).
Qed.

Lemma option_Forall2_Some_l {A B} (R : A → B → Prop) x my :
  option_Forall2 R (Some x) my → ∃ y, my = Some y ∧ R x y.
Proof. inversion 1; eauto. Qed.

Lemma option_Forall2_None_l {A B} (R : A → B → Prop) my :
  option_Forall2 R None my → my = None.
Proof. by inversion 1. Qed.

Lemma typeToString_perm g g' : fieldPerm g g' → identNames g →
  ∀ fuel t types errs errs',
    option_Forall2 sameSig (ModelReflect.typeToString fuel g t types errs)
                           (ModelReflect.typeToString fuel g' t types errs').
Proof.
  intros Hp Hid. pose proof (proj1 Hp) as Hs.
  induction fuel as [|fuel IH]; intros t types errs errs'; [constructor|].
  cbn [ModelReflect.typeToString]. destruct t as [t0|]; [|by constructor].
  rewrite <- (baseType_sameShape g g' fuel Hs).
  destruct (baseType fuel g t0) as [b|]; [|constructor]. cbn [mbind option_bind].
  rewrite <- (isConcrete_sameShape g g' b Hs).
  destruct (negb (ModelReflect.isConcrete g b)); [by constructor|].
  destruct (inPath types b); [by constructor|].
  rewrite <- (checkInterfaces_sameShape g g' b Hs).
  unfold kindOf. destruct (Hs b) as (<- & <- & <- & <- & _).
  assert (∀ t1 e1 e1' (k k' : string * list Error → option (string * list Error)),
            (∀ a a', sameSig a a' → option_Forall2 sameSig (k a) (k' a')) →
            option_Forall2 sameSig
              (ModelReflect.typeToString fuel g t1 (types ++ [b]) e1 ≫= k)
              (ModelReflect.typeToString fuel g' t1 (types ++ [b]) e1' ≫= k')) as Hbind.
  { intros t1 e1 e1' k k' Hk.
    destruct (IH t1 (types ++ [b]) e1 e1') as [a a' Ha|]; [|constructor].
    by apply Hk. }
  destruct (tKind (desc g b)); try (by constructor).
  - (* Array *)
    apply Hbind. intros [s e] [s' e'] Hss. constructor.
    unfold sameSig in *. simpl in *. by rewrite Hss.
  - (* Map *)
    apply Hbind. intros [s e] [s' e'] Hss. simpl.
    apply Hbind. intros [s2 e2] [s2' e2'] Hss2. constructor.
    unfold sameSig in *. simpl in *. by rewrite Hss, Hss2.
  - (* Slice *)
    apply Hbind. intros [s e] [s' e'] Hss. constructor.
    unfold sameSig in *. simpl in *. by rewrite Hss.
  - (* Struct *)
    destruct (bool_decide (0 < length (checkInterfaces g b))); [by constructor|].
    unfold ModelReflect.structFields.
    pose proof (structFields_perm Name g g' fuel b Hp) as Hsf.
    destruct (structFields Name fuel g b) as [[fields e]|] eqn:Hfields;
      [apply option_Forall2_Some_l in Hsf as ([fields' e'] & -> & Hperm)
      |apply option_Forall2_None_l in Hsf as ->; constructor].
    simpl in Hperm. cbn [mbind option_bind].
    rewrite (collect_sameShape g g' fuel fields' _ Hs).
    assert (NoDup (keyOf <$> fields)) as Hnd.
    { apply NoDup_keys; [|by eapply structFields_NoDup].
      eapply (structFields_fields (λ f, ¬ dotted (Name f))); [exact Hid|exact Hfields]. }
    pose proof (collect_perm fuel g fields fields' Hperm Hnd (∅, []) (∅, [])
                  (reflexivity _)) as Hcol.
    destruct (foldlM (ModelReflect.collectStep fuel g) (∅, []) fields)
      as [[fieldMap keys]|];
      [apply option_Forall2_Some_l in Hcol as ([fieldMap' keys'] & -> & Hfm & Hks)
      |apply option_Forall2_None_l in Hcol as ->; constructor].
    simpl in Hfm, Hks. subst fieldMap'. cbn [mbind option_bind].
    rewrite <- (sort_Strings_perm keys keys' Hks).
    set (n := length (sort_Strings keys)).
    match goal with
    | |- option_Forall2 _ (foldlM ?f ?a ?l ≫= _) (foldlM ?f' ?a' ?l ≫= _) =>
        assert (option_Forall2 sameSig (foldlM f a l) (foldlM f' a' l)) as Hren
    end.
    { apply foldlM_rel; [done|].
      intros [r e1] [r' e1'] [i name] _ Hr. unfold sameSig in Hr. simpl in Hr. subst r'.
      destruct (fieldMap !! name) as [f|]; [|by constructor].
      destruct (bool_decide (Tag_Get (Tag f) "reflect" ≠ "")).
      { by constructor. }
      destruct (IH (Some (Typ f)) (types ++ [b]) e1 e1') as [[s e2] [s' e2'] Hss|];
        [|constructor].
      constructor. unfold sameSig in *. simpl in *. by rewrite Hss. }
    destruct Hren as [[r e1] [r' e1'] Hr|]; [|constructor].
    constructor. unfold sameSig in *. simpl in *. by rewrite Hr.
Qed.

Lemma identNames_intro g :
  bool_decide (map_Forall (λ _ d, Forall (λ f, ¬ dotted (Name f)) (tFields d)) g) = true →
  identNames g.
Proof.
  intros Hall%bool_decide_eq_true t f Hin. unfold desc in Hin.
  destruct (g !! t) as [d|] eqn:Ht; simpl in Hin.
  - specialize (Hall t d Ht). simpl in Hall. by eapply Forall_forall in Hall.
  - by apply elem_of_nil in Hin.
Qed.

Lemma fieldPerm_withFields g t fields :
  tFields (desc g t) ≡ₚ fields →
  fieldPerm g (<[t := withFields (desc g t) fields]> g).
Proof.
  intros Hperm. split; [apply sameShape_withFields|].
  intros t'. rewrite desc_insert. by destruct (decide (t = t')) as [->|].
Qed.

(** C7.  Two graphs that differ only in the order in which their structs
    declare their fields give every type the same signature: on every path
    and from any list of diagnostics [typeToString] returns the same string
    in both or returns in neither, and so does [New].  Field names are Go
    identifiers: none begins with a dot. *)
Theorem signature_ignores_field_order g g' fuel :
  fieldPerm g g' →
  identNames g →
  (∀ t types errs errs',
     fst <$> ModelReflect.typeToString fuel g t types errs
     = fst <$> ModelReflect.typeToString fuel g' t types errs') ∧
  (∀ v, string_ <$> (fst <$> ModelReflect.New fuel g v)
        = string_ <$> (fst <$> ModelReflect.New fuel g' v)).
Proof.
  intros Hp Hid.
  assert (∀ t types errs errs',
     fst <$> ModelReflect.typeToString fuel g t types errs
     = fst <$> ModelReflect.typeToString fuel g' t types errs') as H.
  { intros t types errs errs'.
    destruct (typeToString_perm g g' Hp Hid fuel t types errs errs') as [a a' Ha|];
      [|done].
    simpl. by rewrite Ha. }
  split; [exact H|].
  intros v. unfold ModelReflect.New.
  specialize (H (TypeOf v) [] [] []).
  destruct (ModelReflect.typeToString fuel g (TypeOf v) [] []) as [[s e]|],
           (ModelReflect.typeToString fuel g' (TypeOf v) [] []) as [[s' e']|];
    simpl in *; try done.
  injection H as <-.
  by destruct (bool_decide _), (bool_decide _).
Qed.

Lemma signature_ignores_field_order_witness :
  let g' := <[2 := withFields (desc lolipopGraph 2)
                     [field "Data" 0; field "Lolipop" 1; field "Stuff" 0]]> lolipopGraph in
  (∀ t types errs errs',
     fst <$> ModelReflect.typeToString 10 lolipopGraph t types errs
     = fst <$> ModelReflect.typeToString 10 g' t types errs') ∧
  (∀ v, string_ <$> (fst <$> ModelReflect.New 10 lolipopGraph v)
        = string_ <$> (fst <$> ModelReflect.New 10 g' v)).
Proof.
  apply (signature_ignores_field_order lolipopGraph
           (<[2 := withFields (desc lolipopGraph 2)
                     [field "Data" 0; field "Lolipop" 1; field "Stuff" 0]]> lolipopGraph)
           10).
  - apply fieldPerm_withFields.
    apply (Permutation_app_comm [field "Lolipop" 1; field "Stuff" 0] [field "Data" 0]).
  - apply identNames_intro. vm_compute. reflexivity.
Defined.

(** The end-to-end scenario of the test suite, in two declaration
    orders. *)
Example lolipop_signature :
  string_ <$> (fst <$> ModelReflect.New 10 lolipopGraph (mkAny (Some 2) []))
    = Some "{ Data:int, Lolipop:float32, Stuff:int }" ∧
  string_ <$> (fst <$> ModelReflect.New 10
      (<[2 := withFields (desc lolipopGraph 2)
                [field "Data" 0; field "Lolipop" 1; field "Stuff" 0]]> lolipopGraph)
      (mkAny (Some 2) []))
    = Some "{ Data:int, Lolipop:float32, Stuff:int }".
Proof. split; vm_compute; reflexivity. Qed.

(** * Embedding depths and the signature of a struct *)

(** ** The buckets of [expandField], depth by depth *)

Lemma baseType_base g F fuel t b :
  ptrBounded g F → baseType fuel g t = Some b → b = base g F t.
Proof.
  intros HF Hb. unfold base. destruct (HF t) as [b' Hb'].
  rewrite Hb'. simpl.
  pose proof (baseType_mono fuel g (fuel `max` F) t b Hb ltac:(lia)) as H1.
  pose proof (baseType_mono F g (fuel `max` F) t b' Hb' ltac:(lia)) as H2.
  congruence.
Qed.

Lemma bucket_merge a : ∀ b j, bucket (merge a b) j = bucket a j ++ bucket b j.
Proof.
  unfold bucket.
  induction a as [|x a IH]; intros b j; [done|].
  destruct b as [|y b]; [by rewrite app_nil_r|].
  destruct j as [|j]; simpl; [done|]. apply IH.
Qed.

Lemma bucket_replicate n j : bucket (replicate n []) j = [].
Proof.
  unfold bucket. destruct (replicate n [] !! j) as [l|] eqn:H; [|done].
  apply lookup_replicate in H as [-> _]. done.
Qed.

Lemma bucket_blank_one (f : StructField) n j :
  bucket (replicate n [] ++ [[f]]) j = if decide (j = n) then [f] else [].
Proof.
  unfold bucket. case_decide as Hj.
  - subst. rewrite lookup_app_r by (rewrite length_replicate; lia).
    rewrite length_replicate, Nat.sub_diag. done.
  - destruct (decide (j < n)).
    + rewrite lookup_app_l by (rewrite length_replicate; lia).
      by rewrite lookup_replicate_2.
    + rewrite lookup_ge_None_2; [done|].
      rewrite length_app, length_replicate. simpl. lia.
Qed.

Lemma addStep_bucket contrib (h : StructField → list StructField) j fields :
  ∀ X errs r e,
    foldlM (addStep contrib) (X, errs) fields = Some (r, e) →
    (∀ fi c ec, fi ∈ fields → contrib fi = Some (c, ec) → bucket c j = h fi) →
    bucket r j = bucket X j ++ flat_map h fields.
Proof.
  induction fields as [|fi fields IH]; intros X errs r e Hr Hc.
  - simpl in Hr. injection Hr as <- <-. simpl. by rewrite app_nil_r.
  - cbn [foldlM] in Hr. unfold addStep at 1 in Hr.
    destruct (contrib fi) as [[c ec]|] eqn:Hfi; simpl in Hr; [|done].
    rewrite (IH _ _ _ _ Hr).
    + rewrite bucket_merge, (Hc fi c ec (list_elem_of_here _ _) Hfi).
      simpl. by rewrite app_assoc.
    + intros f' c' e' Hin. apply Hc. by right.
Qed.

(** What a call of [expandField] puts into empty buckets: nothing above
    the depth of the call, and below it what [reach] describes. *)
Lemma expandField_buckets g F : ptrBounded g F →
  ∀ fuel f types c e,
    expandField fuel g f types [] = Some (c, e) →
    (∀ j, j < length types → bucket c j = []) ∧
    (∀ d, bucket c (length types + d) = reach g F d types f).
Proof.
  intros HF. induction fuel as [|fuel IH]; intros f types c e Hc; [done|].
  rewrite expandField_step in Hc.
  destruct (baseType fuel g (Typ f)) as [t|] eqn:Hb; [|done]. simpl in Hc.
  apply (baseType_base g F fuel _ _ HF) in Hb. subst t.
  rewrite growTo_merge, merge_nil_l in Hc.
  assert (∀ d, reach g F d types f
               = if inPath types (base g F (Typ f)) then []
                 else if negb (bool_decide (kindOf g (base g F (Typ f)) = Struct))
                         || negb (Anonymous f) then
                   match d with 0 => [f] | S _ => [] end
                 else match d with
                      | 0 => []
                      | S d' => flat_map (reach g F d' (types ++ [base g F (Typ f)]))
                                         (tFields (desc g (base g F (Typ f))))
                      end) as Hreach by (by intros []).
  destruct (inPath types (base g F (Typ f))).
  { injection Hc as <- <-. split; intros; rewrite ?Hreach; apply (bucket_replicate (S _)). }
  destruct (negb _ || negb _).
  { rewrite alter_blank in Hc. injection Hc as <- <-.
    split; intros; rewrite ?Hreach, bucket_blank_one.
    - rewrite decide_False by lia. done.
    - destruct d; [by rewrite Nat.add_0_r, decide_True|]. rewrite decide_False by lia. done. }
  split.
  - intros j Hj.
    rewrite (addStep_bucket _ (λ _, []) j _ _ _ _ _ Hc).
    + rewrite (bucket_replicate (S _)). simpl. clear. by induction (tFields _).
    + intros fi c1 e1 _ H1. apply (IH fi (types ++ [base g F (Typ f)]) c1 e1 H1).
      rewrite length_app. simpl. lia.
  - intros d. rewrite Hreach.
    destruct d as [|d].
    + rewrite Nat.add_0_r.
      rewrite (addStep_bucket _ (λ _, []) (length types) _ _ _ _ _ Hc).
      * rewrite (bucket_replicate (S _)). simpl. clear. by induction (tFields _).
      * intros fi c1 e1 _ H1. apply (IH fi (types ++ [base g F (Typ f)]) c1 e1 H1).
        rewrite length_app. simpl. lia.
    + rewrite (addStep_bucket _ (reach g F d (types ++ [base g F (Typ f)]))
                 (length types + S d) _ _ _ _ _ Hc).
      * by rewrite (bucket_replicate (S _)).
      * intros fi c1 e1 _ H1.
        destruct (IH fi (types ++ [base g F (Typ f)]) c1 e1 H1) as [_ H2].
        rewrite <- H2, length_app. simpl. f_equal. lia.
Qed.

(** The buckets that [structFields] selects from are the fields of the
    embedding depths. *)
Lemma expandAll_buckets g F fuel t expand errs :
  ptrBounded g F →
  expandAll fuel g t = Some (expand, errs) →
  ∀ d, bucket expand d = fieldsAt g F t d.
Proof.
  intros HF Hex d. rewrite expandAll_step in Hex.
  rewrite (addStep_bucket _ (reach g F d []) d _ _ _ _ _ Hex).
  - done.
  - intros fi c1 e1 _ H1.
    destruct (expandField_buckets g F HF fuel fi [] c1 e1 H1) as [_ H2]. apply (H2 d).
Qed.

Lemma expand_level g F fuel t expand errs d level :
  ptrBounded g F →
  expandAll fuel g t = Some (expand, errs) →
  expand !! d = Some level → level = fieldsAt g F t d.
Proof.
  intros HF Hex Hd. rewrite <- (expandAll_buckets g F fuel t expand errs HF Hex d).
  unfold bucket. by rewrite Hd.
Qed.

Lemma expand_level_nonempty g F fuel t expand errs d :
  ptrBounded g F →
  expandAll fuel g t = Some (expand, errs) →
  fieldsAt g F t d ≠ [] → expand !! d = Some (fieldsAt g F t d).
Proof.
  intros HF Hex Hne. rewrite <- (expandAll_buckets g F fuel t expand errs HF Hex d) in *.
  unfold bucket in *. by destruct (expand !! d).
Qed.

Lemma take_buckets (expand : list (list StructField)) d :
  d ≤ length expand → take d expand = bucket expand <$> seq 0 d.
Proof.
  intros Hd. apply list_eq. intros i.
  rewrite list_lookup_fmap. destruct (decide (i < d)) as [Hi|Hi].
  - rewrite lookup_take_lt by done. rewrite lookup_seq_lt by done. simpl.
    unfold bucket. destruct (expand !! i) eqn:H; [done|].
    apply lookup_ge_None in H. lia.
  - rewrite lookup_take_ge by lia. rewrite lookup_seq_ge by lia. done.
Qed.

Lemma expand_take g F fuel t expand errs d :
  ptrBounded g F →
  expandAll fuel g t = Some (expand, errs) →
  d ≤ length expand →
  take d expand = fieldsAt g F t <$> seq 0 d.
Proof.
  intros HF Hex Hd. rewrite take_buckets by done.
  apply list_fmap_ext. intros _ j _. by eapply expandAll_buckets.
Qed.

Lemma named_nonempty displayName k (l : list StructField) :
  0 < occ displayName k l → l ≠ [].
Proof. intros H ->. unfold occ in H. simpl in H. lia. Qed.

Lemma occ_two displayName k (f0 f1 : StructField) level :
  f0 ∈ level → f1 ∈ level → f0 ≠ f1 →
  displayName f0 = k → displayName f1 = k →
  1 < occ displayName k level.
Proof.
  intros H0 H1 Hne Hk0 Hk1.
  apply list_elem_of_split in H0 as (l1 & l2 & ->).
  rewrite occ_app, occ_cons, bool_decide_eq_true_2 by done.
  apply elem_of_app in H1 as [H1|H1].
  - pose proof (occ_pos displayName k f1 l1 H1 Hk1). lia.
  - apply elem_of_cons in H1 as [H1|H1]; [congruence|].
    pose proof (occ_pos displayName k f1 l2 H1 Hk1). lia.
Qed.

Lemma owed_by_depth dn g F fuel t expand errs d k :
  ptrBounded g F →
  expandAll fuel g t = Some (expand, errs) →
  from_option (owed dn (tString (desc g t)) d k) [] (expand !! d)
  = owed dn (tString (desc g t)) d k (fieldsAt g F t d).
Proof.
  intros HF Hex. rewrite <- (expandAll_buckets g F fuel t expand errs HF Hex d).
  unfold bucket. destruct (expand !! d); [done|]. simpl.
  unfold owed. rewrite decide_False; [done|]. unfold occ. simpl. lia.
Qed.

(** [structFields] returns on a graph whose chains of pointers end; no
    two fields returned are counted under one name, and its duplicate
    diagnostics are those that the depths owe. *)
Lemma structFields_by_depth dn g F fuel t :
  ptrBounded g F →
  F + size (dom g) + 1 ≤ fuel →
  kindOf g t = Struct →
  ∃ fields errs,
    structFields dn fuel g t = Some (fields, errs) ∧
    NoDup (dn <$> fields) ∧
    ∀ d k, filter (λ e, dupAt d k e = true) errs
           = owed dn (tString (desc g t)) d k (fieldsAt g F t d).
Proof.
  intros HF Hfuel Hk.
  destruct (expandAll_terminates g F fuel t HF Hfuel) as [[expand errs0] Hex].
  destruct (structFields_spec dn fuel g t expand errs0 Hk Hex)
    as (E & Hsf & _ & _ & Hdup).
  eexists _, _. split; [exact Hsf|]. split; [by eapply structFields_NoDup|].
  intros d k. rewrite Hdup. by eapply owed_by_depth.
Qed.




(** ** The collecting loop and the rendering loop *)

Lemma string_app_assoc (a b c : string) : (a +:+ b) +:+ c = a +:+ (b +:+ c).
Proof.
  induction a as [|x a IH]; [done|].
  change (String x ((a +:+ b) +:+ c) = String x (a +:+ (b +:+ c))). by rewrite IH.
Qed.

Lemma string_app_nil_r (a : string) : a +:+ "" = a.
Proof.
  induction a as [|x a IH]; [done|].
  change (String x (a +:+ "") = String x a). by rewrite IH.
Qed.

#[local] Instance keyLe_total key : Total (keyLe key).
Proof. intros a b. unfold keyLe. apply total, _. Qed.

Lemma sortByKey_perm key l : sortByKey key l ≡ₚ l.
Proof. apply merge_sort_Permutation. Qed.

Lemma sortByKey_keys key l : key <$> sortByKey key l = sort_Strings (key <$> l).
Proof.
  apply (Sorted_unique String.le).
  - apply (Sorted_fmap key (keyLe key)); [done|].
    apply Sorted_merge_sort. apply _.
  - apply Sorted_merge_sort. apply _.
  - unfold sort_Strings, sortByKey. by rewrite !merge_sort_Permutation.
Qed.

(** The rendering loop: entries joined by a comma and a space. *)
Lemma render_join
    (step : string * list Error → nat * string → option (string * list Error))
    (ent : string → string) (d : string → list Error) (n : nat) keys :
  ∀ off r e,
    off + length keys = n →
    (∀ r e i name, name ∈ keys →
       step (r, e) (i, name)
       = Some (if bool_decide (i < n - 1) then (r +:+ ent name) +:+ ", " else r +:+ ent name,
               e ++ d name)) →
    foldlM step (r, e) (imap (λ i, pair (off + i)) keys)
    = Some (r +:+ String.concat ", " (ent <$> keys), e ++ concat (d <$> keys)).
Proof.
  induction keys as [|x keys IH]; intros off r e Hn Hstep.
  - simpl. by rewrite string_app_nil_r, app_nil_r.
  - rewrite imap_cons. cbn [foldlM]. rewrite Hstep by left. 
    rewrite (imap_ext _ (λ i, pair (S off + i))) by (intros; simpl; f_equal; lia).
    rewrite IH; [|simpl in Hn; lia|intros; apply Hstep; by right].
    simpl in Hn. f_equal. f_equal.
    + destruct keys as [|y keys].
      * simpl. rewrite bool_decide_eq_false_2 by (simpl in Hn; lia).
        apply string_app_nil_r.
      * rewrite bool_decide_eq_true_2 by (simpl in Hn; lia).
        cbn [fmap list_fmap String.concat].
        by rewrite !string_app_assoc.
    + simpl. by rewrite app_assoc.
Qed.

(** The collecting loop over fields with distinct keys: the keys of the
    fields kept, in order, and each kept field under its key. *)
Lemma collect_kept (key : StructField → string) (v : StructField → option bool)
    (step : gmap string StructField * list string → StructField
            → option (gmap string StructField * list string)) :
  (∀ st f, step st f
           = b ← v f;
             Some (if b : bool
                   then (<[key f := f]> st.1,
                         match st.1 !! key f with
                         | None => st.2 ++ [key f] | Some _ => st.2 end)
                   else st)) →
  ∀ fields, NoDup (key <$> fields) → (∀ f, f ∈ fields → is_Some (v f)) →
  ∀ fm0 ks0, (∀ f, f ∈ fields → fm0 !! key f = None) →
  ∃ fm,
    foldlM step (fm0, ks0) fields
    = Some (fm, ks0 ++ (key <$> filter (λ f, v f = Some true) fields)) ∧
    (∀ f, f ∈ fields → v f = Some true → fm !! key f = Some f) ∧
    (∀ k, k ∉ key <$> fields → fm !! k = fm0 !! k).
Proof.
  intros Hstep. induction fields as [|f fields IH]; intros Hnd Hv fm0 ks0 Hfresh.
  - exists fm0. simpl. rewrite app_nil_r. split; [done|]. split; [|done].
    intros f Hf. by apply elem_of_nil in Hf.
  - simpl in Hnd. apply NoDup_cons in Hnd as [Hf Hnd].
    cbn [foldlM]. rewrite Hstep.
    destruct (Hv f) as [b Hb]; [left|]. rewrite Hb. cbn [mbind option_bind].
    destruct b.
    + simpl. rewrite (Hfresh f) by left.
      destruct (IH Hnd (λ f' Hf', Hv f' (list_elem_of_further _ _ _ Hf'))
                  (<[key f := f]> fm0) (ks0 ++ [key f])) as (fm & Hfold & Hin & Hout).
      { intros f' Hf'. rewrite lookup_insert_ne; [apply Hfresh; by right|].
        intros Heq. apply Hf. rewrite Heq. apply list_elem_of_fmap. by exists f'. }
      exists fm. rewrite Hfold. rewrite filter_cons_True by done.
      simpl. rewrite <- app_assoc. split; [done|]. split.
      * intros f' [->|Hf']%elem_of_cons Hv'; [|by apply Hin].
        rewrite Hout by done. apply lookup_insert_eq.
      * intros k Hk. rewrite Hout.
        -- apply lookup_insert_ne. intros <-. apply Hk. left.
        -- intros Hk'. apply Hk. by right.
    + destruct (IH Hnd (λ f' Hf', Hv f' (list_elem_of_further _ _ _ Hf')) fm0 ks0)
        as (fm & Hfold & Hin & Hout).
      { intros f' Hf'. apply Hfresh. by right. }
      exists fm. rewrite Hfold. rewrite filter_cons_False by (rewrite Hb; done).
      split; [done|]. split.
      * intros f' [->|Hf']%elem_of_cons Hv'; [congruence|by apply Hin].
      * intros k Hk. apply Hout. intros Hk'. apply Hk. by right.
Qed.

Lemma room_le g types : room g types ≤ size (dom g).
Proof. unfold room. apply subseteq_size. apply subseteq_difference_l. done. Qed.

Lemma baseType_self fuel g b :
  kindOf g b ≠ Pointer → 0 < fuel → baseType fuel g b = Some b.
Proof.
  intros Hk Hf. destruct fuel as [|fuel]; [lia|]. simpl.
  by rewrite bool_decide_eq_false_2.
Qed.

Lemma verdict_total g F fuel f :
  ptrBounded g F → F ≤ fuel → is_Some (verdict fuel g f).
Proof.
  intros HF Hle. unfold verdict. destruct (negb _); [done|].
  destruct (baseType_bounded g F fuel (Typ f) HF Hle) as [b ->]. done.
Qed.

Lemma foldlM_shift {A} (f : string * list Error → A → option (string * list Error))
    (e0 : list Error) (l : list A) :
  (∀ r x it, it ∈ l →
     f (r, e0 ++ x) it = (λ a, (a.1, e0 ++ a.2)) <$> f (r, x) it) →
  ∀ r x, foldlM f (r, e0 ++ x) l = (λ a, (a.1, e0 ++ a.2)) <$> foldlM f (r, x) l.
Proof.
  induction l as [|it l IH]; intros Hstep r x; [done|].
  cbn [foldlM]. rewrite Hstep by left.
  destruct (f (r, x) it) as [[r' x']|]; [|done]. simpl.
  apply IH. intros r1 x1 it1 Hin. apply Hstep. by right.
Qed.

Lemma typeToString_shift g : ∀ fuel t types errs,
  ModelReflect.typeToString fuel g t types errs
  = (λ a, (a.1, errs ++ a.2)) <$> ModelReflect.typeToString fuel g t types [].
Proof.
  induction fuel as [|fuel IH]; intros t types errs; [done|].
  cbn [ModelReflect.typeToString]. destruct t as [t0|]; [|simpl; by rewrite app_nil_r].
  destruct (baseType fuel g t0) as [b|]; [|done]. cbn [mbind option_bind].
  destruct (negb (ModelReflect.isConcrete g b)); [simpl; by rewrite app_nil_r|].
  destruct (inPath types b); [done|].
  assert (∀ t1 e1 (k : string → string),
    (ModelReflect.typeToString fuel g t1 (types ++ [b]) (errs ++ e1)
       ≫= λ '(s, e), Some (k s, e))
    = (λ a, (a.1, errs ++ a.2)) <$>
        (ModelReflect.typeToString fuel g t1 (types ++ [b]) e1
           ≫= λ '(s, e), Some (k s, e))) as Hone.
  { intros t1 e1 k. rewrite (IH t1 _ (errs ++ e1)), (IH t1 _ e1).
    destruct (ModelReflect.typeToString fuel g t1 (types ++ [b]) []) as [[s d]|];
      [|done].
    simpl. by rewrite app_assoc. }
  assert (∀ t1 (k : string → string),
    (ModelReflect.typeToString fuel g t1 (types ++ [b]) errs
       ≫= λ '(s, e), Some (k s, e))
    = (λ a, (a.1, errs ++ a.2)) <$>
        (ModelReflect.typeToString fuel g t1 (types ++ [b]) []
           ≫= λ '(s, e), Some (k s, e))) as Hone0.
  { intros t1 k. rewrite <- (Hone t1 [] k). by rewrite app_nil_r. }
  destruct (kindOf g b); try (simpl; by rewrite app_nil_r).
  - (* Array *) apply (Hone0 _ (λ s, "[" +:+ pretty (tLen (desc g b)) +:+ "]" +:+ s)).
  - (* Map *)
    rewrite (IH (Some (tKey (desc g b))) _ errs).
    destruct (ModelReflect.typeToString fuel g (Some (tKey (desc g b))) (types ++ [b]) [])
      as [[k d]|]; [|done].
    cbn [fmap option_fmap option_map mbind option_bind fst snd].
    apply (Hone _ d (λ s, "map[" +:+ k +:+ "]" +:+ s)).
  - (* Slice *) apply (Hone0 _ (λ s, "[]" +:+ s)).
  - (* Struct *)
    destruct (bool_decide (0 < length (checkInterfaces g b)));
      [simpl; by rewrite app_nil_r|].
    destruct (ModelReflect.structFields fuel g b) as [[fields e]|]; [|done].
    cbn [mbind option_bind].
    destruct (foldlM (ModelReflect.collectStep fuel g) (∅, []) fields)
      as [[fieldMap keys]|]; [|done].
    cbn [mbind option_bind]. rewrite app_nil_l.
    set (n := length (sort_Strings keys)).
    set (x := if bool_decide (n = 0)
              then e ++ [EmptyStructOf (tString (desc g b))] else e).
    assert ((if bool_decide (n = 0)
             then (errs ++ e) ++ [EmptyStructOf (tString (desc g b))] else errs ++ e)
            = errs ++ x) as ->.
    { unfold x. destruct (bool_decide (n = 0)); [by rewrite app_assoc|done]. }
    rewrite foldlM_shift.
    + by destruct (foldlM _ _ _) as [[r d]|].
    + intros r x1 [i name] _.
      destruct (fieldMap !! name) as [f|]; [|done].
      destruct (bool_decide (Tag_Get (Tag f) "reflect" ≠ "")); [done|].
      rewrite (IH (Some (Typ f)) _ (errs ++ x1)), (IH (Some (Typ f)) _ x1).
      destruct (ModelReflect.typeToString fuel g (Some (Typ f)) (types ++ [b]) [])
        as [[s d]|]; [|done].
      simpl. by rewrite app_assoc.
Qed.

Lemma typeToString_returns g F fuel t types errs :
  ptrBounded g F → F + 2 * size (dom g) + 2 ≤ fuel →
  ∃ s d, ModelReflect.typeToString fuel g t types [] = Some (s, d) ∧
         ModelReflect.typeToString fuel g t types errs = Some (s, errs ++ d).
Proof.
  intros HF Hfuel.
  destruct (typeToString_terminates_on g F HF fuel (size (dom g)) t types [])
    as [[s d] Hs]; [apply room_le|lia|].
  exists s, d. split; [done|]. by rewrite typeToString_shift, Hs.
Qed.

(** The signature of a struct without capability, in
    [src/model_reflect.go]: the exported fields of concrete type among
    those that [structFields] returns, sorted by key, each rendered as its
    entry, between braces. *)
Lemma struct_signature g F fuel b types errs fields e :
  ptrBounded g F →
  F + 2 * size (dom g) + 2 ≤ fuel →
  identNames g →
  kindOf g b = Struct →
  b ∉ types →
  checkInterfaces g b = [] →
  structFields Name fuel g b = Some (fields, e) →
  ∃ diags,
    ModelReflect.typeToString (S fuel) g (Some b) types errs
    = Some ("{ " +:+ strings_Join
                       ((λ f, entryOf Name f (signatureAt fuel g (types ++ [b]) f))
                          <$> sortByKey keyOf
                                (filter (λ f, verdict fuel g f = Some true) fields))
                       ", " +:+ " }",
            diags).
Proof.
  intros HF Hfuel Hid Hk Hpath Hci Hsf.
  cbn [ModelReflect.typeToString].
  rewrite (baseType_self fuel g b) by (rewrite ?Hk; done || lia).
  cbn [mbind option_bind].
  unfold ModelReflect.isConcrete, inPath.
  rewrite Hk, Hci, (bool_decide_eq_false_2 (b ∈ types)) by done.
  cbn [negb length]. rewrite bool_decide_eq_false_2 by lia.
  unfold ModelReflect.structFields. rewrite Hsf. cbn [mbind option_bind].
  assert (NoDup (keyOf <$> fields)) as Hnd.
  { apply NoDup_keys; [|by eapply structFields_NoDup].
    eapply (structFields_fields (λ f, ¬ dotted (Name f))); [exact Hid|exact Hsf]. }
  destruct (collect_kept keyOf (verdict fuel g) (ModelReflect.collectStep fuel g))
    with (fields := fields) (fm0 := (∅ : gmap string StructField)) (ks0 := @nil string)
    as (fm & Hfold & Hin & _).
  { intros st f. rewrite collectStep_verdict. unfold fileField. done. }
  { done. }
  { intros f _. apply (verdict_total g F); [done|lia]. }
  { intros f _. apply lookup_empty. }
  rewrite Hfold. cbn [mbind option_bind app].
  set (kept := filter (λ f, verdict fuel g f = Some true) fields) in *.
  rewrite <- sortByKey_keys.
  set (sorted := sortByKey keyOf kept).
  set (n := length (keyOf <$> sorted)).
  set (errs1 := if bool_decide (n = 0) then _ else _).
  set (sub := λ f, signatureAt fuel g (types ++ [b]) f).
  set (ent := λ name : string,
         match fm !! name with Some f => entryOf Name f (sub f) | None => "" end).
  set (dg := λ name : string,
         match fm !! name with
         | Some f =>
             if bool_decide (Tag_Get (Tag f) "reflect" ≠ "") then []
             else from_option snd []
                    (ModelReflect.typeToString fuel g (Some (Typ f)) (types ++ [b]) [])
         | None => []
         end).
  assert (∀ f, f ∈ sorted → fm !! keyOf f = Some f) as Hfm.
  { intros f Hf. unfold sorted in Hf. rewrite sortByKey_perm in Hf.
    apply list_elem_of_filter in Hf as [Hv Hf]. by apply Hin. }
  match goal with
  | |- context [foldlM ?step ?a (imap pair ?l)] =>
      pose proof (render_join step ent dg n l 0 "{ " errs1 eq_refl) as Hren
  end.
  cbn [Nat.add] in Hren.
  change (imap (λ i : nat, pair i) (keyOf <$> sorted))
    with (imap pair (keyOf <$> sorted)) in Hren.
  rewrite Hren; clear Hren.
  - cbn [mbind option_bind]. eexists. rewrite string_app_assoc.
    unfold strings_Join. rewrite <- list_fmap_compose.
    rewrite (list_fmap_ext (ent ∘ keyOf) (λ f, entryOf Name f (sub f)) sorted);
      [reflexivity|].
    intros _ f Hf%list_elem_of_lookup_2. simpl. unfold ent. by rewrite Hfm.
  - intros r e1 i name Hname.
    apply list_elem_of_fmap in Hname as (f & -> & Hf).
    unfold ent, dg. rewrite (Hfm f Hf). unfold entryOf, sub, signatureAt.
    destruct (bool_decide (Tag_Get (Tag f) "reflect" ≠ "")).
    + cbn [mbind option_bind]. rewrite app_nil_r.
      destruct (Anonymous f), (bool_decide (i < n - 1));
        by rewrite ?string_app_assoc.
    + destruct (typeToString_returns g F fuel (Some (Typ f)) (types ++ [b]) e1 HF Hfuel)
        as (s & d & H0 & H1).
      rewrite H1, H0. cbn [mbind option_bind from_option fst snd].
      destruct (Anonymous f), (bool_decide (i < n - 1));
        by rewrite ?string_app_assoc.
Qed.

Lemma tagged_collect_terminates g F fuel fields :
  ptrBounded g F → F ≤ fuel →
  is_Some (foldlM (Tagged.collectStep fuel g) (∅, []) fields).
Proof.
  intros HF Hfuel.
  apply foldlM_total. intros [fm ks] f _. unfold Tagged.collectStep.
  destruct (negb (IsExported f)); [done|].
  destruct (baseType_bounded g F fuel (Typ f) HF Hfuel) as [b ->]. simpl.
  by destruct (negb _).
Qed.

Lemma tagged_typeToString_terminates g F : ptrBounded g F →
  ∀ fuel n t types errs,
    room g types ≤ n → F + size (dom g) + n + 2 ≤ fuel →
    is_Some (Tagged.typeToString fuel g t types errs).
Proof.
  intros HF. induction fuel as [|fuel IH]; intros n t types errs Hroom Hfuel; [lia|].
  cbn [Tagged.typeToString]. destruct t as [t0|]; [|done].
  destruct (baseType_bounded g F fuel t0 HF) as [t Ht]; [lia|].
  rewrite Ht. cbn [mbind option_bind].
  destruct (inPath types t) eqn:Hpath; [done|].
  destruct (Tagged.isConcrete g t) as [interfaces ok].
  destruct (bool_decide (0 < length interfaces)); [done|].
  destruct (negb ok); [done|].
  assert (kindOf g t ≠ Invalid → room g (types ++ [t]) < room g types) as Hlt.
  { intros Hk. apply room_push; [|by apply inPath_false]. by apply kind_in_graph. }
  assert (∀ t' errs', kindOf g t ≠ Invalid →
            is_Some (Tagged.typeToString fuel g t' (types ++ [t]) errs')) as Hrec.
  { intros t' errs' Hk. specialize (Hlt Hk). apply (IH (n - 1)); lia. }
  destruct (kindOf g t) eqn:Hk; try done.
  - destruct (Hrec (Some (tElem (desc g t))) errs) as [[s e] ->]; done.
  - destruct (Hrec (Some (tKey (desc g t))) errs) as [[k e] ->]; [done|]. simpl.
    destruct (Hrec (Some (tElem (desc g t))) e) as [[s e'] ->]; done.
  - destruct (Hrec (Some (tElem (desc g t))) errs) as [[s e] ->]; done.
  - destruct (structFields_terminates Tagged.getName g F fuel t HF) as [[fields e] Hsf];
      [lia|].
    unfold Tagged.structFields. rewrite Hsf. cbn [mbind option_bind].
    destruct (tagged_collect_terminates g F fuel fields HF) as [[fieldMap keys] ->]; [lia|].
    cbn [mbind option_bind].
    match goal with
    | |- is_Some (foldlM ?f ?a ?l ≫= _) =>
        destruct (foldlM_total f l a) as [[r e'] ->]; [|done]
    end.
    intros [r e'] [i name] _.
    destruct (fieldMap !! name) as [f|]; [|done].
    destruct (bool_decide (Tag_Get (Tag f) "reflect" ≠ "")); simpl; [done|].
    destruct (Hrec (Some (Typ f)) e') as [[s e''] ->]; done.
Qed.

Lemma tagged_typeToString_shift g : ∀ fuel t types errs,
  Tagged.typeToString fuel g t types errs
  = (λ a, (a.1, errs ++ a.2)) <$> Tagged.typeToString fuel g t types [].
Proof.
  induction fuel as [|fuel IH]; intros t types errs; [done|].
  cbn [Tagged.typeToString]. destruct t as [t0|]; [|simpl; by rewrite app_nil_r].
  destruct (baseType fuel g t0) as [b|]; [|done]. cbn [mbind option_bind].
  destruct (inPath types b); [done|].
  destruct (Tagged.isConcrete g b) as [interfaces ok].
  destruct (bool_decide (0 < length interfaces)); [simpl; by rewrite app_nil_r|].
  destruct (negb ok); [simpl; by rewrite app_nil_r|].
  assert (∀ t1 e1 (k : string → string),
    (Tagged.typeToString fuel g t1 (types ++ [b]) (errs ++ e1)
       ≫= λ '(s, e), Some (k s, e))
    = (λ a, (a.1, errs ++ a.2)) <$>
        (Tagged.typeToString fuel g t1 (types ++ [b]) e1
           ≫= λ '(s, e), Some (k s, e))) as Hone.
  { intros t1 e1 k. rewrite (IH t1 _ (errs ++ e1)), (IH t1 _ e1).
    destruct (Tagged.typeToString fuel g t1 (types ++ [b]) []) as [[s d]|];
      [|done].
    simpl. by rewrite app_assoc. }
  assert (∀ t1 (k : string → string),
    (Tagged.typeToString fuel g t1 (types ++ [b]) errs
       ≫= λ '(s, e), Some (k s, e))
    = (λ a, (a.1, errs ++ a.2)) <$>
        (Tagged.typeToString fuel g t1 (types ++ [b]) []
           ≫= λ '(s, e), Some (k s, e))) as Hone0.
  { intros t1 k. rewrite <- (Hone t1 [] k). by rewrite app_nil_r. }
  destruct (kindOf g b); try (simpl; by rewrite app_nil_r).
  - (* Array *) apply (Hone0 _ (λ s, "[" +:+ pretty (tLen (desc g b)) +:+ "]" +:+ s)).
  - (* Map *)
    rewrite (IH (Some (tKey (desc g b))) _ errs).
    destruct (Tagged.typeToString fuel g (Some (tKey (desc g b))) (types ++ [b]) [])
      as [[k d]|]; [|done].
    cbn [fmap option_fmap option_map mbind option_bind fst snd].
    apply (Hone _ d (λ s, "map[" +:+ k +:+ "]" +:+ s)).
  - (* Slice *) apply (Hone0 _ (λ s, "[]" +:+ s)).
  - (* Struct *)
    destruct (Tagged.structFields fuel g b) as [[fields e]|]; [|done].
    cbn [mbind option_bind].
    destruct (foldlM (Tagged.collectStep fuel g) (∅, []) fields)
      as [[fieldMap keys]|]; [|done].
    cbn [mbind option_bind]. rewrite app_nil_l.
    set (n := length (sort_Strings keys)).
    set (x := if bool_decide (n = 0)
              then e ++ [EmptyStructOf (tString (desc g b))] else e).
    assert ((if bool_decide (n = 0)
             then (errs ++ e) ++ [EmptyStructOf (tString (desc g b))] else errs ++ e)
            = errs ++ x) as ->.
    { unfold x. destruct (bool_decide (n = 0)); [by rewrite app_assoc|done]. }
    rewrite foldlM_shift.
    + by destruct (foldlM _ _ _) as [[r d]|].
    + intros r x1 [i name] _.
      destruct (fieldMap !! name) as [f|]; [|done].
      destruct (bool_decide (Tag_Get (Tag f) "reflect" ≠ "")); [done|].
      rewrite (IH (Some (Typ f)) _ (errs ++ x1)), (IH (Some (Typ f)) _ x1).
      destruct (Tagged.typeToString fuel g (Some (Typ f)) (types ++ [b]) [])
        as [[s d]|]; [|done].
      simpl. by rewrite app_assoc.
Qed.

Lemma tagged_typeToString_returns g F fuel t types errs :
  ptrBounded g F → F + 2 * size (dom g) + 2 ≤ fuel →
  ∃ s d, Tagged.typeToString fuel g t types [] = Some (s, d) ∧
         Tagged.typeToString fuel g t types errs = Some (s, errs ++ d).
Proof.
  intros HF Hfuel.
  destruct (tagged_typeToString_terminates g F HF fuel (size (dom g)) t types [])
    as [[s d] Hs]; [apply room_le|lia|].
  exists s, d. split; [done|]. by rewrite tagged_typeToString_shift, Hs.
Qed.

Lemma taggedVerdict_total g F fuel f :
  ptrBounded g F → F ≤ fuel → is_Some (taggedVerdict fuel g f).
Proof.
  intros HF Hle. unfold taggedVerdict. destruct (negb _); [done|].
  destruct (baseType_bounded g F fuel (Typ f) HF Hle) as [b ->]. done.
Qed.

Lemma taggedKey_inj (x y : StructField) :
  ¬ dotted (Tagged.getName x) → ¬ dotted (Tagged.getName y) →
  taggedKey x = taggedKey y → Tagged.getName x = Tagged.getName y.
Proof.
  unfold taggedKey. intros Hx Hy.
  destruct (Anonymous x), (Anonymous y); simpl; intros Heq.
  - by injection Heq.
  - destruct Hy. by eexists.
  - destruct Hx. by eexists.
  - done.
Qed.

Lemma NoDup_taggedKeys (l : list StructField) :
  Forall (λ f, ¬ dotted (Tagged.getName f)) l →
  NoDup (Tagged.getName <$> l) → NoDup (taggedKey <$> l).
Proof.
  induction l as [|f l IH]; intros Hd Hn; [constructor|].
  apply Forall_cons_1 in Hd as [Hf Hd]. simpl in Hn.
  apply NoDup_cons in Hn as [Hnot Hn]. simpl. constructor; [|by apply IH].
  intros Hin. apply list_elem_of_fmap in Hin as (f' & Heq & Hin).
  apply Hnot. apply list_elem_of_fmap. exists f'. split; [|done].
  apply taggedKey_inj; [done| |done]. by eapply Forall_forall in Hd.
Qed.

(** The same in the revision with naming tags, where the label and the
    key of a field come from [getName]. *)
Lemma tagged_struct_signature g F fuel b types errs fields e :
  ptrBounded g F →
  F + 2 * size (dom g) + 2 ≤ fuel →
  tagNames g →
  kindOf g b = Struct →
  b ∉ types →
  checkInterfaces g b = [] →
  structFields Tagged.getName fuel g b = Some (fields, e) →
  ∃ diags,
    Tagged.typeToString (S fuel) g (Some b) types errs
    = Some ("{ " +:+ strings_Join
                       ((λ f, entryOf Tagged.getName f
                                (taggedSignatureAt fuel g (types ++ [b]) f))
                          <$> sortByKey taggedKey
                                (filter (λ f, taggedVerdict fuel g f = Some true) fields))
                       ", " +:+ " }",
            diags).
Proof.
  intros HF Hfuel Hid Hk Hpath Hci Hsf.
  cbn [Tagged.typeToString].
  rewrite (baseType_self fuel g b) by (rewrite ?Hk; done || lia).
  cbn [mbind option_bind].
  unfold Tagged.isConcrete, inPath.
  rewrite Hk, Hci, (bool_decide_eq_false_2 (b ∈ types)) by done.
  cbn [negb length]. rewrite bool_decide_eq_false_2 by lia.
  cbn [negb length]. rewrite bool_decide_eq_false_2 by (simpl; lia). cbn [negb].
  unfold Tagged.structFields. rewrite Hsf. cbn [mbind option_bind].
  assert (NoDup (taggedKey <$> fields)) as Hnd.
  { apply NoDup_taggedKeys; [|by eapply structFields_NoDup].
    eapply (structFields_fields (λ f, ¬ dotted (Tagged.getName f)));
      [exact Hid|exact Hsf]. }
  destruct (collect_kept taggedKey (taggedVerdict fuel g) (Tagged.collectStep fuel g))
    with (fields := fields) (fm0 := (∅ : gmap string StructField)) (ks0 := @nil string)
    as (fm & Hfold & Hin & _).
  { intros [fm0 ks0] f. unfold Tagged.collectStep, taggedVerdict, taggedKey.
    destruct (negb (IsExported f)); [done|].
    destruct (baseType fuel g (Typ f)) as [b0|]; [|done]. simpl.
    by destruct ((Tagged.isConcrete g b0).2). }
  { done. }
  { intros f _. apply (taggedVerdict_total g F); [done|lia]. }
  { intros f _. apply lookup_empty. }
  rewrite Hfold. cbn [mbind option_bind app].
  set (kept := filter (λ f, taggedVerdict fuel g f = Some true) fields) in *.
  rewrite <- sortByKey_keys.
  set (sorted := sortByKey taggedKey kept).
  set (n := length (taggedKey <$> sorted)).
  set (errs1 := if bool_decide (n = 0) then _ else _).
  set (sub := λ f, taggedSignatureAt fuel g (types ++ [b]) f).
  set (ent := λ name : string,
         match fm !! name with
         | Some f => entryOf Tagged.getName f (sub f) | None => "" end).
  set (dg := λ name : string,
         match fm !! name with
         | Some f =>
             if bool_decide (Tag_Get (Tag f) "reflect" ≠ "") then []
             else from_option snd []
                    (Tagged.typeToString fuel g (Some (Typ f)) (types ++ [b]) [])
         | None => []
         end).
  assert (∀ f, f ∈ sorted → fm !! taggedKey f = Some f) as Hfm.
  { intros f Hf. unfold sorted in Hf. rewrite sortByKey_perm in Hf.
    apply list_elem_of_filter in Hf as [Hv Hf]. by apply Hin. }
  match goal with
  | |- context [foldlM ?step ?a (imap pair ?l)] =>
      pose proof (render_join step ent dg n l 0 "{ " errs1 eq_refl) as Hren
  end.
  cbn [Nat.add] in Hren.
  change (imap (λ i : nat, pair i) (taggedKey <$> sorted))
    with (imap pair (taggedKey <$> sorted)) in Hren.
  rewrite Hren; clear Hren.
  - cbn [mbind option_bind]. eexists. rewrite string_app_assoc.
    unfold strings_Join. rewrite <- list_fmap_compose.
    rewrite (list_fmap_ext (ent ∘ taggedKey)
               (λ f, entryOf Tagged.getName f (sub f)) sorted);
      [reflexivity|].
    intros _ f Hf%list_elem_of_lookup_2. simpl. unfold ent. by rewrite Hfm.
  - intros r e1 i name Hname.
    apply list_elem_of_fmap in Hname as (f & -> & Hf).
    unfold ent, dg. rewrite (Hfm f Hf). unfold entryOf, sub, taggedSignatureAt.
    destruct (bool_decide (Tag_Get (Tag f) "reflect" ≠ "")).
    + cbn [mbind option_bind]. rewrite app_nil_r.
      destruct (Anonymous f), (bool_decide (i < n - 1));
        by rewrite ?string_app_assoc.
    + destruct (tagged_typeToString_returns g F fuel (Some (Typ f)) (types ++ [b]) e1
                  HF Hfuel) as (s & d & H0 & H1).
      rewrite H1, H0. cbn [mbind option_bind from_option fst snd].
      destruct (Anonymous f), (bool_decide (i < n - 1));
        by rewrite ?string_app_assoc.
Qed.

Lemma graph_fields_intro g (P : nat → StructField → Prop) `{∀ t f, Decision (P t f)} :
  bool_decide (map_Forall (λ t d, Forall (P t) (tFields d)) g) = true →
  ∀ t f, f ∈ tFields (desc g t) → P t f.
Proof.
  intros Hall%bool_decide_eq_true t f Hin. unfold desc in Hin.
  destruct (g !! t) as [d|] eqn:Ht; simpl in Hin.
  - specialize (Hall t d Ht). simpl in Hall. by eapply Forall_forall in Hall.
  - by apply elem_of_nil in Hin.
Qed.

(** ** Shadowing, collisions and the ignore tag *)



(** The example of the specification with two types for [X]: the entry is
    that of the outer field. *)
Example shadow_signature :
  fieldsAt shadowStringGraph 1 3 0 = [field "X" 0] ∧
  fieldsAt shadowStringGraph 1 3 1 = [field "X" 1] ∧
  ModelReflect.New 12 shadowStringGraph (mkAny (Some 3) [])
    = Some (mkModelInfo "{ X:int }" [] DefaultHasher, None) ∧
  Tagged.New 12 shadowStringGraph (mkAny (Some 3) [])
    = Some (mkModelInfo "{ X:int }" [] DefaultHasher, None).
Proof. repeat split; vm_compute; reflexivity. Qed.


(** A field whose base type is already on its path stands at no depth: in
    [struct{B; C}] with [B = struct{Y *B; Z int}] and [C = struct{Y int}]
    the field [Y] of [B] is dropped with a loop diagnostic, and the field
    [Y] of [C] is alone under its name at depth 1. *)
Example loop_guard_drops_before_counting :
  fieldsAt loopGuardGraph 2 4 0 = [] ∧
  fieldsAt loopGuardGraph 2 4 1 = [field "Z" 0; field "Y" 0] ∧
  structFields Name 10 loopGuardGraph 4
    = Some ([field "Z" 0; field "Y" 0], [LoopDetectedIn "main.B"]).
Proof. repeat split; vm_compute; reflexivity. Qed.

(** C2, as amended.  When an embedding depth [d] has several fields
    counted under one name, not all of them with the ignore tag, then
    [structFields] emits exactly one duplicate diagnostic for that name and
    that depth, and none of the colliding fields is returned: the fields
    returned under the name are those promoted from the depths above [d],
    so there is none when the name does not occur above.  The depths hold
    the fields that [expandField] files, as in [fieldsAt]; the statement
    covers both revisions. *)
Theorem same_depth_collision displayName g F fuel t k d :
  ptrBounded g F →
  F + size (dom g) + 1 ≤ fuel →
  kindOf g t = Struct →
  1 < occ displayName k (fieldsAt g F t d) →
  visible displayName k (fieldsAt g F t d) →
  ∃ fields errs,
    structFields displayName fuel g t = Some (fields, errs) ∧
    filter (λ e, dupAt d k e = true) errs
      = [DuplicateAt (tString (desc g t)) d (occ displayName k (fieldsAt g F t d)) k] ∧
    named displayName k fields
      = named displayName k
          (promoted displayName (λ _, 0) (fieldsAt g F t <$> seq 0 d)) ∧
    ((∀ j, j < d → occ displayName k (fieldsAt g F t j) = 0) →
     named displayName k fields = []).
Proof.
  intros HF Hfuel Hk Hocc Hvis.
  destruct (expandAll_terminates g F fuel t HF Hfuel) as [[expand errs0] Hex].
  destruct (structFields_spec displayName fuel g t expand errs0 Hk Hex)
    as (E & Hsf & _ & _ & Hdup).
  assert (expand !! d = Some (fieldsAt g F t d)) as Hd.
  { apply (expand_level_nonempty g F fuel t expand errs0 d HF Hex).
    apply (named_nonempty displayName k). lia. }
  eexists _, _. split; [exact Hsf|]. split; [|split].
  - rewrite Hdup, Hd. simpl. unfold owed. by rewrite decide_True.
  - rewrite <- (expand_take g F fuel t expand errs0 d HF Hex)
      by (apply Nat.lt_le_incl; by eapply lookup_lt_Some).
    apply (promoted_cut displayName _ k d (fieldsAt g F t d)); [done| |lia].
    by apply promoted_collision.
  - intros Habove.
    apply (promoted_ambiguous displayName expand _ k d (fieldsAt g F t d)); [|done..].
    intros j l Hj Hl. rewrite (expand_level g F fuel t expand errs0 j l HF Hex Hl).
    by apply Habove.
Qed.

Lemma same_depth_collision_witness :
  ∃ fields errs,
    structFields Name 6 collisionGraph 3 = Some (fields, errs) ∧
    filter (λ e, dupAt 1 "X" e = true) errs = [DuplicateAt "main.B" 1 2 "X"] ∧
    named Name "X" fields = [].
Proof.
  destruct (same_depth_collision Name collisionGraph 1 6 3 "X" 1)
    as (fields & errs & Hsf & Hdup & _ & Hnone).
  - apply ptrBounded_intro; [lia|]. vm_compute. reflexivity.
  - vm_compute. lia.
  - reflexivity.
  - vm_compute. lia.
  - apply Exists_cons_hd. split; reflexivity.
  - exists fields, errs. split; [exact Hsf|]. split; [exact Hdup|].
    apply Hnone. intros [|j] Hj; [vm_compute; reflexivity|lia].
Defined.

(** C2 as stated fails.  In [struct{A1; A2}] the two fields [X] of depth 1
    collide, the name occurs at no other depth, one duplicate diagnostic is
    emitted, and neither field is retained: [structFields] returns no field
    and the signature has no entry.  In [struct{A1; A2; C}] with
    [C = struct{A1; A2}] the name collides at depth 1 and at depth 2, and
    the one type gets two duplicate diagnostics for it.  When both fields
    [X] carry [reflect:"-"] they collide and no duplicate diagnostic is
    emitted. *)
Lemma colliding_fields_not_retained :
  (expandAll 10 collisionGraph 3 = Some ([[]; [field "X" 0; field "X" 0]], []) ∧
   ModelReflect.structFields 10 collisionGraph 3
     = Some ([], [DuplicateAt "main.B" 1 2 "X"]) ∧
   Tagged.structFields 10 collisionGraph 3
     = Some ([], [DuplicateAt "main.B" 1 2 "X"]) ∧
   string_ <$> (fst <$> ModelReflect.New 10 collisionGraph (mkAny (Some 3) []))
     = Some "{  }") ∧
  ModelReflect.structFields 10 twoLevelCollisionGraph 4
    = Some ([], [DuplicateAt "main.B" 1 2 "X"; DuplicateAt "main.B" 2 2 "X"]) ∧
  ModelReflect.structFields 10 allIgnoredGraph 3 = Some ([], []).
Proof. repeat split; vm_compute; reflexivity. Qed.

(** C8, as amended.  A field with the ignore tag that stands at an
    embedding depth [d] is never returned by [structFields] and is skipped
    by the loop that emits the diagnostics, but it is counted like any
    other field: from its depth and from the depths below nothing is
    returned under its name, and when its depth has another field under
    that name without the tag, that field is reported as a duplicate; when
    it has none, no duplicate diagnostic of that depth mentions the name.
    The statement covers both revisions. *)
Theorem ignored_field_is_counted displayName g F fuel t k d f0 :
  ptrBounded g F →
  F + size (dom g) + 1 ≤ fuel →
  kindOf g t = Struct →
  f0 ∈ fieldsAt g F t d →
  ignored f0 = true →
  displayName f0 = k →
  ∃ fields errs,
    structFields displayName fuel g t = Some (fields, errs) ∧
    Forall (λ f, ignored f = false) fields ∧
    named displayName k fields
      = named displayName k
          (promoted displayName (λ _, 0) (fieldsAt g F t <$> seq 0 d)) ∧
    (visible displayName k (fieldsAt g F t d) →
     1 < occ displayName k (fieldsAt g F t d) ∧
     filter (λ e, dupAt d k e = true) errs
       = [DuplicateAt (tString (desc g t)) d
            (occ displayName k (fieldsAt g F t d)) k]) ∧
    (¬ visible displayName k (fieldsAt g F t d) →
     Forall (λ e, dupAt d k e = false) errs).
Proof.
  intros HF Hfuel Hk Hin Hig Hname.
  destruct (expandAll_terminates g F fuel t HF Hfuel) as [[expand errs0] Hex].
  destruct (structFields_spec displayName fuel g t expand errs0 Hk Hex)
    as (E & Hsf & _ & _ & Hdup).
  set (level := fieldsAt g F t d) in *.
  assert (expand !! d = Some level) as Hd.
  { apply (expand_level_nonempty g F fuel t expand errs0 d HF Hex).
    intros H0. fold level in H0. rewrite H0 in Hin. by apply elem_of_nil in Hin. }
  eexists _, _. split; [exact Hsf|].
  split; [apply promoted_not_ignored|]. split; [|split].
  - pose proof (occ_pos displayName k f0 level Hin Hname) as Hpos.
    rewrite <- (expand_take g F fuel t expand errs0 d HF Hex)
      by (apply Nat.lt_le_incl; by eapply lookup_lt_Some).
    apply (promoted_cut displayName _ k d level); [done| |done].
    set (seen := λ k', 0 + occs displayName k' (take d expand)).
    destruct (decide (0 < seen k)) as [Hs|Hs]; [by apply promoted_shadowed|].
    destruct (decide (1 < occ displayName k level)) as [H2|H2];
      [by apply promoted_collision|].
    assert (f0 ∈ named displayName k level) as Hin'
      by (apply list_elem_of_filter; done).
    assert (length (named displayName k level) = 1) as H1
      by (rewrite <- occ_named; lia).
    destruct (named displayName k level) as [|x [|??]] eqn:Hn; simpl in H1; try lia.
    apply list_elem_of_singleton in Hin' as <-.
    rewrite (promoted_single displayName seen k f0) by (done || lia).
    by rewrite Hig.
  - intros Hvis.
    assert (1 < occ displayName k level) as Hocc.
    { apply Exists_exists in Hvis as (f1 & Hin1 & Hig1 & Hn1).
      apply (occ_two displayName k f0 f1); try done. congruence. }
    split; [done|].
    rewrite Hdup, Hd. simpl. unfold owed. by rewrite decide_True.
  - intros Hvis.
    assert (filter (λ e, dupAt d k e = true) (errs0 ++ E) = []) as Hnone.
    { rewrite Hdup, Hd. simpl. unfold owed.
      rewrite decide_False; [done|]. by intros [_ ?]. }
    apply Forall_forall. intros e He.
    destruct (dupAt d k e) eqn:Hde; [|done].
    assert (e ∈ filter (λ e, dupAt d k e = true) (errs0 ++ E)) as Hin2
      by (apply list_elem_of_filter; done).
    rewrite Hnone in Hin2. by apply elem_of_nil in Hin2.
Qed.

Lemma ignored_field_is_counted_witness :
  ∃ fields errs,
    structFields Name 6 ignoredGraph 3 = Some (fields, errs) ∧
    Forall (λ f, ignored f = false) fields ∧
    named Name "X" fields = [] ∧
    filter (λ e, dupAt 1 "X" e = true) errs = [DuplicateAt "main.B" 1 2 "X"].
Proof.
  destruct (ignored_field_is_counted Name ignoredGraph 1 6 3 "X" 1
              (tagged (field "X" 0) "reflect" "-"))
    as (fields & errs & Hsf & Hig & Hnamed & Hvis & _).
  - apply ptrBounded_intro; [lia|]. vm_compute. reflexivity.
  - vm_compute. lia.
  - reflexivity.
  - apply list_elem_of_further, list_elem_of_here.
  - reflexivity.
  - reflexivity.
  - exists fields, errs. split; [exact Hsf|]. split; [exact Hig|]. split.
    + rewrite Hnamed. vm_compute. reflexivity.
    + apply Hvis. apply Exists_cons_hd. split; reflexivity.
Defined.

(** C8 as stated fails: in [struct{A1; A2}] where the field [X] of [A2]
    carries [reflect:"-"], that field is counted; the field [X] of [A1] is
    reported as a duplicate and is not returned. *)
Lemma ignored_field_still_collides :
  expandAll 10 ignoredGraph 3
    = Some ([[]; [field "X" 0; tagged (field "X" 0) "reflect" "-"]], []) ∧
  ModelReflect.structFields 10 ignoredGraph 3
    = Some ([], [DuplicateAt "main.B" 1 2 "X"]) ∧
  Tagged.structFields 10 ignoredGraph 3
    = Some ([], [DuplicateAt "main.B" 1 2 "X"]).
Proof. repeat split; vm_compute; reflexivity. Qed.

(** ** The display name *)

Lemma capitalize_upperFirst name : Tagged.capitalize name = upperFirst name.
Proof.
  destruct name as [|c rest]; [done|].
  destruct c as [[] [] [] [] [] [] [] []]; reflexivity.
Qed.

(** C9, as amended.  In the revision with naming tags [getName] tries the
    tags [json], [msgpack], [cbor] in that order; the first whose value has
    a non-empty part before its first comma gives the name, with its first
    byte in upper case; when no tag has one, the name is the declared
    identifier.  For a struct without capability that revision counts the
    fields under this name, so that its duplicate diagnostics are those
    owed under [getName] depth by depth and no two fields returned share
    it, and it labels and sorts the entries of the signature by it.
    [src/model_reflect.go] reads no naming tag: there the fields are
    counted, labelled and sorted under the declared identifier. *)
Theorem display_name_resolution g F fuel t (f : StructField) :
  ptrBounded g F →
  F + 2 * size (dom g) + 2 ≤ fuel →
  kindOf g t = Struct →
  checkInterfaces g t = [] →
  (Tagged.DefaultNameTags = ["json"; "msgpack"; "cbor"] ∧
   (∀ before tag after,
      Tagged.DefaultNameTags = before ++ tag :: after →
      Forall (λ t, tagPortion f t = "") before →
      tagPortion f tag ≠ "" →
      Tagged.getName f = upperFirst (tagPortion f tag)) ∧
   (Forall (λ t, tagPortion f t = "") Tagged.DefaultNameTags →
    Tagged.getName f = Name f) ∧
   (∀ tag a b, Tag_Get (Tag f) tag = a +:+ "," +:+ b → noComma a →
      tagPortion f tag = a) ∧
   (∀ tag, noComma (Tag_Get (Tag f) tag) → tagPortion f tag = Tag_Get (Tag f) tag)) ∧
  (tagNames g →
   ∃ fields errs diags,
     Tagged.structFields fuel g t = Some (fields, errs) ∧
     NoDup (Tagged.getName <$> fields) ∧
     (∀ d k, filter (λ e, dupAt d k e = true) errs
             = owed Tagged.getName (tString (desc g t)) d k (fieldsAt g F t d)) ∧
     Tagged.typeToString (S fuel) g (Some t) [] []
     = Some ("{ " +:+ strings_Join
                        ((λ x, entryOf Tagged.getName x (taggedSignatureAt fuel g [t] x))
                           <$> sortByKey taggedKey
                                 (filter (λ x, taggedVerdict fuel g x = Some true) fields))
                        ", " +:+ " }", diags)) ∧
  (identNames g →
   ∃ fields errs diags,
     ModelReflect.structFields fuel g t = Some (fields, errs) ∧
     NoDup (Name <$> fields) ∧
     (∀ d k, filter (λ e, dupAt d k e = true) errs
             = owed Name (tString (desc g t)) d k (fieldsAt g F t d)) ∧
     ModelReflect.typeToString (S fuel) g (Some t) [] []
     = Some ("{ " +:+ strings_Join
                        ((λ x, entryOf Name x (signatureAt fuel g [t] x))
                           <$> sortByKey keyOf
                                 (filter (λ x, verdict fuel g x = Some true) fields))
                        ", " +:+ " }", diags)).
Proof.
  intros HF Hfuel Hk Hci. split; [|split].
  - split; [done|]. split; [|split; [|split]].
    + intros before tag after H1 H2 H3. rewrite <- capitalize_upperFirst.
      by eapply getName_from_first.
    + apply getName_from_none.
    + intros tag a b Hs Ha. unfold tagPortion. rewrite Hs. by apply beforeComma_split.
    + intros tag. apply beforeComma_noComma.
  - intros Hid.
    destruct (structFields_by_depth Tagged.getName g F fuel t HF ltac:(lia) Hk)
      as (fields & errs & Hsf & Hnd & Hdup).
    destruct (tagged_struct_signature g F fuel t [] [] fields errs HF Hfuel Hid Hk
                ltac:(apply not_elem_of_nil) Hci Hsf) as [diags Hsig].
    by exists fields, errs, diags.
  - intros Hid.
    destruct (structFields_by_depth Name g F fuel t HF ltac:(lia) Hk)
      as (fields & errs & Hsf & Hnd & Hdup).
    destruct (struct_signature g F fuel t [] [] fields errs HF Hfuel Hid Hk
                ltac:(apply not_elem_of_nil) Hci Hsf) as [diags Hsig].
    by exists fields, errs, diags.
Qed.

Lemma display_name_resolution_witness :
  Tagged.getName (tagged (tagged (field "B" 0) "cbor" "beta") "json" ",omitempty")
    = "Beta" ∧
  (∃ fields errs diags,
     Tagged.structFields 9 tagsGraph 1 = Some (fields, errs) ∧
     NoDup (Tagged.getName <$> fields) ∧
     (∀ d k, filter (λ e, dupAt d k e = true) errs
             = owed Tagged.getName "main.T" d k (fieldsAt tagsGraph 1 1 d)) ∧
     Tagged.typeToString 10 tagsGraph (Some 1) [] []
     = Some ("{ " +:+ strings_Join
                        ((λ x, entryOf Tagged.getName x (taggedSignatureAt 9 tagsGraph [1] x))
                           <$> sortByKey taggedKey
                                 (filter (λ x, taggedVerdict 9 tagsGraph x = Some true)
                                    fields))
                        ", " +:+ " }", diags)) ∧
  (∃ fields errs diags,
     ModelReflect.structFields 9 tagsGraph 1 = Some (fields, errs) ∧
     NoDup (Name <$> fields) ∧
     (∀ d k, filter (λ e, dupAt d k e = true) errs
             = owed Name "main.T" d k (fieldsAt tagsGraph 1 1 d)) ∧
     ModelReflect.typeToString 10 tagsGraph (Some 1) [] []
     = Some ("{ " +:+ strings_Join
                        ((λ x, entryOf Name x (signatureAt 9 tagsGraph [1] x))
                           <$> sortByKey keyOf
                                 (filter (λ x, verdict 9 tagsGraph x = Some true) fields))
                        ", " +:+ " }", diags)).
Proof.
  destruct (display_name_resolution tagsGraph 1 9 1
              (tagged (tagged (field "B" 0) "cbor" "beta") "json" ",omitempty"))
    as ((_ & Hfirst & _) & Htagged & Hplain).
  - apply ptrBounded_intro; [lia|]. vm_compute. reflexivity.
  - vm_compute. lia.
  - reflexivity.
  - reflexivity.
  - split; [|split].
    + rewrite (Hfirst ["json"; "msgpack"] "cbor" []); [reflexivity|reflexivity| |done].
      repeat constructor.
    + apply Htagged. intros t f.
      apply (graph_fields_intro tagsGraph (λ _ f, ¬ dotted (Tagged.getName f))).
      vm_compute. reflexivity.
    + apply Hplain. apply identNames_intro. vm_compute. reflexivity.
Defined.

(** C9 as stated fails for [src/model_reflect.go]: the fields of
    [struct{A int `json:"alpha,omitempty"`; B int `json:",omitempty" cbor:"beta"`; C int}]
    are labelled [A], [B], [C] there and [Alpha], [Beta], [C] in the other
    revision, and in [struct{A int `json:"x"`; B int `json:"x"`}] the two
    fields collide under [X] in the other revision only. *)
Lemma first_revision_ignores_naming_tags :
  string_ <$> (fst <$> Tagged.New 10 tagsGraph (mkAny (Some 1) []))
    = Some "{ Alpha:int, Beta:int, C:int }" ∧
  string_ <$> (fst <$> ModelReflect.New 10 tagsGraph (mkAny (Some 1) []))
    = Some "{ A:int, B:int, C:int }" ∧
  Tagged.structFields 10 tagsGraph 2 = Some ([], [DuplicateAt "main.U" 0 2 "X"]) ∧
  ModelReflect.structFields 10 tagsGraph 2
    = Some ([tagged (field "A" 0) "json" "x"; tagged (field "B" 0) "json" "x"], []).
Proof. repeat split; vm_compute; reflexivity. Qed.

(** ** Capabilities and the fields of a struct *)

Section FieldsOfCapability.
(** A struct [b] with other fields, in a graph where a set [C] of types holds
    [b] and every struct that embeds one of its members. *)
Variable C : nat → Prop.
Variable g : gmap nat TypeDesc.
Variable b : nat.
Variable fields : list StructField.

Local Abbreviation g' := (<[b := withFields (desc g b) fields]> g).

Hypothesis Cb : C b.
Hypothesis Cclosed : ∀ t' f n s,
  f ∈ tFields (desc g t') → Anonymous f = true →
  baseType n g (Typ f) = Some s → C s → C t'.







Hypothesis Ccap : ∀ s, C s → checkInterfaces g s ≠ [].


End FieldsOfCapability.




(** * Further properties of the code *)

(** ** [uniqueErrors] *)

Lemma uniqueErrors_keeps l : ∀ keys lst,
  (∀ s, is_Some (keys !! s) ↔ s ∈ Error_msg <$> lst) →
  NoDup (Error_msg <$> (lst ++ l)) →
  (foldl uniqueErrors_step (keys, lst) l).2 = lst ++ l.
Proof.
  induction l as [|e l IH]; intros keys lst Hkeys Hnd; cbn [foldl].
  - by rewrite app_nil_r.
  - unfold uniqueErrors_step at 2.
    assert (Error_msg e ∉ Error_msg <$> lst) as Hfresh.
    { rewrite fmap_app in Hnd. apply NoDup_app in Hnd as (_ & Hd & _).
      intros Hin. apply (Hd _ Hin). simpl. left. }
    destruct (keys !! Error_msg e) eqn:Hlook.
    { exfalso. apply Hfresh, Hkeys. by rewrite Hlook. }
    rewrite IH; [by rewrite <- app_assoc| |by rewrite <- app_assoc].
    intros s. rewrite fmap_app, elem_of_app. simpl.
    rewrite list_elem_of_singleton, <- Hkeys.
    destruct (decide (Error_msg e = s)) as [<-|Hne].
    + rewrite lookup_insert_eq. split; [by right|eauto].
    + rewrite lookup_insert_ne by done. split; [by left|]. by intros [?|?].
Qed.

(** X1.  [uniqueErrors] leaves alone a list in which no message repeats,
    and applying it twice is applying it once. *)
Theorem uniqueErrors_idempotent (l : list Error) :
  uniqueErrors (uniqueErrors l) = uniqueErrors l ∧
  (NoDup (Error_msg <$> l) → uniqueErrors l = l).
Proof.
  assert (∀ l', NoDup (Error_msg <$> l') → uniqueErrors l' = l') as H.
  { intros l' Hnd. unfold uniqueErrors. rewrite uniqueErrors_keeps; [done| |done].
    intros s. rewrite lookup_empty. simpl. split; [by intros []|].
    intros Hin. by apply elem_of_nil in Hin. }
  split; [|apply H]. apply H. apply uniqueErrors_spec.
Qed.

Lemma Error_msg_kind e1 e2 :
  Error_msg e1 = Error_msg e2 →
  match e1, e2 with
  | LoopDetectedIn t1, LoopDetectedIn t2 => t1 = t2
  | EmptyStructOf t1, EmptyStructOf t2 => t1 = t2
  | DuplicateAt _ _ _ _, DuplicateAt _ _ _ _ => True
  | _, _ => False
  end.
Proof.
  destruct e1, e2; simpl; intros H; try done; try discriminate H.
  - by repeat injection H as H.
  - by repeat injection H as H.
Qed.

(** X2.  The messages of the three kinds of diagnostic begin differently,
    and a loop or an empty-struct message names its type after a fixed
    prefix; so [uniqueErrors], which compares messages, keeps every loop and
    every empty-struct diagnostic of its argument, and adds none. *)
Theorem uniqueErrors_keeps_each_type (l : list Error) (t : string) :
  (LoopDetectedIn t ∈ uniqueErrors l ↔ LoopDetectedIn t ∈ l) ∧
  (EmptyStructOf t ∈ uniqueErrors l ↔ EmptyStructOf t ∈ l).
Proof.
  destruct (uniqueErrors_spec l) as (_ & Hsub & Hall).
  assert (∀ e : Error, e ∈ uniqueErrors l → e ∈ l) as Hincl.
  { intros e He. by eapply elem_of_sublist. }
  assert (∀ e : Error, (∀ e', Error_msg e' = Error_msg e → e' = e) →
            e ∈ l → e ∈ uniqueErrors l) as Hkeep.
  { intros e Hinj Hin. apply Hall, list_elem_of_fmap in Hin as (e' & Hmsg & He').
    by rewrite <- (Hinj e'). }
  split; (split; [apply Hincl|apply Hkeep]);
    intros e' Hmsg; apply Error_msg_kind in Hmsg; destruct e'; try done; by subst.
Qed.

(** ** [baseType] *)

Lemma baseType_idem fuel g t b :
  baseType fuel g t = Some b → baseType fuel g b = Some b.
Proof.
  intros Hb. pose proof (baseType_not_pointer fuel g t b Hb) as Hk.
  destruct fuel as [|fuel]; [done|]. simpl. by rewrite bool_decide_eq_false_2.
Qed.

(** X3.  What [baseType] returns is not a pointer type and is its own base
    type; a type that is not a pointer is its own base type, with any fuel
    but none. *)
Theorem baseType_is_base fuel g t b :
  baseType fuel g t = Some b →
  kindOf g b ≠ Pointer ∧
  baseType fuel g b = Some b ∧
  (kindOf g t ≠ Pointer → b = t).
Proof.
  intros Hb. split; [by eapply baseType_not_pointer|].
  split; [by eapply baseType_idem|].
  intros Ht. destruct fuel as [|fuel]; [done|]. simpl in Hb.
  rewrite bool_decide_eq_false_2 in Hb by done. by injection Hb.
Qed.

Lemma baseType_is_base_witness :
  kindOf capabilityGraph 1 ≠ Pointer ∧
  baseType 3 capabilityGraph 1 = Some 1 ∧
  (kindOf capabilityGraph 2 ≠ Pointer → 1 = 2).
Proof.
  apply (baseType_is_base 3 capabilityGraph 2 1). reflexivity.
Defined.

(** X4.  Pointers do not show in a signature: in both revisions
    [typeToString] returns for a type what it returns for the base type of
    that type, on every path and with every list of diagnostics. *)
Theorem pointers_are_transparent fuel g t b types errs :
  baseType fuel g t = Some b →
  ModelReflect.typeToString (S fuel) g (Some t) types errs
    = ModelReflect.typeToString (S fuel) g (Some b) types errs ∧
  Tagged.typeToString (S fuel) g (Some t) types errs
    = Tagged.typeToString (S fuel) g (Some b) types errs.
Proof.
  intros Hb. pose proof (baseType_idem fuel g t b Hb) as Hbb.
  split; cbn [ModelReflect.typeToString Tagged.typeToString]; by rewrite Hb, Hbb.
Qed.

Lemma pointers_are_transparent_witness :
  ModelReflect.typeToString 3 capabilityGraph (Some 2) [] []
    = ModelReflect.typeToString 3 capabilityGraph (Some 1) [] [] ∧
  Tagged.typeToString 3 capabilityGraph (Some 2) [] []
    = Tagged.typeToString 3 capabilityGraph (Some 1) [] [].
Proof.
  apply (pointers_are_transparent 2 capabilityGraph 2 1 [] []). reflexivity.
Defined.

(** ** [typeToString]: the diagnostics *)

(** X5.  [typeToString] only appends to the diagnostics it is given: the
    signature does not depend on them, and the list it returns is the list
    it was given followed by what the same call returns from an empty
    list. *)
Theorem typeToString_appends_diagnostics fuel g t types errs s errs' :
  ModelReflect.typeToString fuel g t types errs = Some (s, errs') →
  ∃ added,
    errs' = errs ++ added ∧
    ∀ other, ModelReflect.typeToString fuel g t types other = Some (s, other ++ added).
Proof.
  rewrite typeToString_shift.
  destruct (ModelReflect.typeToString fuel g t types []) as [[s0 d]|] eqn:H0; [|done].
  simpl. intros [= <- <-]. exists d. split; [done|].
  intros other. by rewrite typeToString_shift, H0.
Qed.

Lemma typeToString_appends_diagnostics_witness :
  ∃ added,
    [LoopDetectedIn "main.Q"; DuplicateAt "main.B" 1 2 "X"; EmptyStructOf "main.B"]
      = [LoopDetectedIn "main.Q"] ++ added ∧
    ∀ other, ModelReflect.typeToString 10 collisionGraph (Some 3) [] other
             = Some ("{  }", other ++ added).
Proof.
  apply (typeToString_appends_diagnostics 10 collisionGraph (Some 3) []
           [LoopDetectedIn "main.Q"] "{  }"
           [LoopDetectedIn "main.Q"; DuplicateAt "main.B" 1 2 "X"; EmptyStructOf "main.B"]).
  vm_compute. reflexivity.
Defined.

(** ** The cycle guards *)

(** X6.  A base type that is already on the path is not entered.
    [typeToString] of [src/model_reflect.go] renders it as ["..."] when it
    is concrete, the other revision as ["<...>"] whatever its kind, and
    [expandField] records no field for it and leaves the buckets to the
    siblings, grown to the depth of the call; each adds the one diagnostic
    that names the type. *)
Theorem path_guard fuel g t b types errs f result :
  baseType fuel g t = Some b →
  b ∈ types →
  (ModelReflect.isConcrete g b = true →
   ModelReflect.typeToString (S fuel) g (Some t) types errs
     = Some ("...", errs ++ [LoopDetectedIn (tString (desc g b))])) ∧
  Tagged.typeToString (S fuel) g (Some t) types errs
    = Some ("<...>", errs ++ [LoopDetectedIn (tString (desc g b))]) ∧
  (Typ f = t →
   expandField (S fuel) g f types result
     = Some (result ++ replicate (S (length types) - length result) [],
             [LoopDetectedIn (tString (desc g b))])).
Proof.
  intros Hb Hin. split; [|split].
  - intros Hc. by apply typeToString_loop.
  - simpl. rewrite Hb. simpl. unfold inPath. by rewrite bool_decide_eq_true_2.
  - intros <-. by apply expandField_loop.
Qed.

Lemma path_guard_witness :
  (ModelReflect.isConcrete recursiveGraph 1 = true →
   ModelReflect.typeToString 3 recursiveGraph (Some 4) [1; 2] []
     = Some ("...", [] ++ [LoopDetectedIn (tString (desc recursiveGraph 1))])) ∧
  Tagged.typeToString 3 recursiveGraph (Some 4) [1; 2] []
    = Some ("<...>", [] ++ [LoopDetectedIn (tString (desc recursiveGraph 1))]) ∧
  (Typ (mkField "testA" "main" 4 [] true) = 4 →
   expandField 3 recursiveGraph (mkField "testA" "main" 4 [] true) [1; 2] [[field "A" 0]]
     = Some ([[field "A" 0]] ++ replicate (S (length [1; 2]) - length [[field "A" 0]]) [],
             [LoopDetectedIn (tString (desc recursiveGraph 1))])).
Proof.
  apply (path_guard 2 recursiveGraph 4 1 [1; 2] [] (mkField "testA" "main" 4 [] true)
           [[field "A" 0]]).
  - reflexivity.
  - apply list_elem_of_here.
Defined.

(** ** [expandField] and [structFields] *)

Lemma merge_length a : ∀ b, length (merge a b) = length a `max` length b.
Proof.
  induction a as [|x a IH]; intros b; [done|].
  destruct b as [|y b]; simpl; [done|]. by rewrite IH.
Qed.

(** X7.  A call of [expandField] adds to the buckets it is given, level by
    level, what it puts into empty buckets, and returns the same errors;
    the buckets it returns reach the depth of the call, and its errors are
    loop diagnostics only. *)
Theorem expandField_adds_to_buckets fuel g f types result r e :
  expandField fuel g f types result = Some (r, e) →
  ∃ c,
    expandField fuel g f types [] = Some (c, e) ∧
    r = merge result c ∧
    length types < length c ∧
    Forall (λ err, isLoopDetected err = true) e.
Proof.
  intros Hr. pose proof (expandField_errors fuel g f types result r e Hr) as He.
  rewrite expandField_merge in Hr.
  destruct (expandField fuel g f types []) as [[c e0]|] eqn:Hc; [|done].
  simpl in Hr. injection Hr as <- <-. exists c. split; [done|]. split; [done|].
  split; [|done]. clear He.
  destruct fuel as [|fuel]; [done|]. rewrite expandField_step in Hc.
  destruct (baseType fuel g (Typ f)) as [t|]; [|done]. simpl in Hc.
  rewrite growTo_merge, merge_nil_l in Hc.
  destruct (inPath types t).
  { injection Hc as <- <-. simpl. rewrite length_replicate. lia. }
  destruct (negb _ || negb _).
  { injection Hc as <- <-. rewrite length_alter. simpl. rewrite length_replicate. lia. }
  revert Hc. apply (foldlM_inv (λ st, length types < length st.1)).
  - simpl. rewrite length_replicate. lia.
  - intros [a ea] fi [a' ea'] _ Ha Hstep. unfold addStep in Hstep. simpl in *.
    destruct (expandField fuel g fi (types ++ [t]) []) as [[c1 e1]|]; [|done].
    simpl in Hstep. injection Hstep as <- <-. rewrite merge_length. lia.
Qed.

Lemma expandField_adds_to_buckets_witness :
  ∃ c,
    expandField 5 recursiveGraph (mkField "testB" "main" 3 [] true) [] []
      = Some (c, [LoopDetectedIn "main.testB"; LoopDetectedIn "main.testB"]) ∧
    [[field "A" 0]; [field "B" 0]; [field "A" 0]] = merge [[field "A" 0]] c ∧
    length (@nil nat) < length c ∧
    Forall (λ err, isLoopDetected err = true)
      [LoopDetectedIn "main.testB"; LoopDetectedIn "main.testB"].
Proof.
  apply (expandField_adds_to_buckets 5 recursiveGraph (mkField "testB" "main" 3 [] true)
           [] [[field "A" 0]]).
  vm_compute. reflexivity.
Defined.

(** X8.  On a graph whose chains of pointers end, [structFields] returns,
    however the structs embed one another, and what it returns does not
    depend on the fuel from a bound on.  The statement holds for both
    revisions. *)
Theorem structFields_returns displayName g F t :
  ptrBounded g F →
  ∃ r, ∀ fuel, F + size (dom g) + 1 ≤ fuel → structFields displayName fuel g t = Some r.
Proof.
  intros HF.
  destruct (structFields_terminates displayName g F (F + size (dom g) + 1) t HF)
    as [r Hr]; [lia|].
  exists r. intros fuel Hle. by apply (structFields_mono displayName g _ fuel t r Hr).
Qed.

Lemma structFields_returns_witness :
  ∃ r, ∀ fuel, 2 + size (dom recursiveGraph) + 1 ≤ fuel →
    structFields Name fuel recursiveGraph 1 = Some r.
Proof.
  apply (structFields_returns Name recursiveGraph 2 1).
  apply ptrBounded_intro; [lia|]. vm_compute. reflexivity.
Defined.

(** X9.  Whatever [structFields] returns, no two of the fields are counted
    under the same name, none carries the ignore tag, each is a declared
    field of some struct of the graph, and every error is a loop diagnostic
    or a duplicate diagnostic of the type at hand that counts at least two
    fields.  The statement holds for both revisions. *)
Theorem structFields_invariants displayName fuel g t fields errs :
  structFields displayName fuel g t = Some (fields, errs) →
  NoDup (displayName <$> fields) ∧
  Forall (λ f, ignored f = false) fields ∧
  Forall (λ f, ∃ t', f ∈ tFields (desc g t')) fields ∧
  Forall (λ e, isLoopDetected e = true ∨
               ∃ d c k, e = DuplicateAt (tString (desc g t)) d c k ∧ 1 < c) errs.
Proof.
  intros Hsf. split; [by eapply structFields_NoDup|].
  split; [|split].
  - revert Hsf. unfold structFields. destruct (negb _); [by intros [= <- <-]|].
    destruct (expandAll fuel g t) as [[ex e0]|]; [|done]. simpl.
    destruct (selectFields_spec displayName (tString (desc g t)) ex e0) as (E & -> & _).
    intros [= <- <-]. apply promoted_not_ignored.
  - eapply (structFields_fields (λ f, ∃ t', f ∈ tFields (desc g t'))); [|exact Hsf].
    intros t' f Hf. by exists t'.
  - revert Hsf. unfold structFields. destruct (negb _); [by intros [= <- <-]|].
    destruct (expandAll fuel g t) as [[ex e0]|] eqn:Hex; [|done]. simpl.
    destruct (selectFields_spec displayName (tString (desc g t)) ex e0)
      as (E & -> & HE & _).
    intros [= <- <-]. apply Forall_app. split.
    + eapply Forall_impl; [by eapply expandAll_errors|]. intros e He. by left.
    + eapply Forall_impl; [exact HE|].
      intros e (k & d & level & _ & -> & Hlt & _). right. by eexists _, _, _.
Qed.

Lemma structFields_invariants_witness :
  NoDup (Name <$> [field "A" 0; field "X" 3; field "B" 0]) ∧
  Forall (λ f, ignored f = false) [field "A" 0; field "X" 3; field "B" 0] ∧
  Forall (λ f, ∃ t', f ∈ tFields (desc recursiveGraph t'))
         [field "A" 0; field "X" 3; field "B" 0] ∧
  Forall (λ e, isLoopDetected e = true ∨
               ∃ d c k, e = DuplicateAt (tString (desc recursiveGraph 1)) d c k ∧ 1 < c)
         [LoopDetectedIn "main.testB"; LoopDetectedIn "main.testB"].
Proof.
  apply (structFields_invariants Name 10 recursiveGraph 1).
  vm_compute. reflexivity.
Defined.

(** X10.  The fields that [structFields] returns do not depend on the order
    in which the structs of the graph declare their fields: in two graphs
    that differ only in that order it returns the same fields, in some
    order, or returns in neither.  The statement holds for both
    revisions. *)
Theorem structFields_ignores_field_order displayName g g' fuel t :
  fieldPerm g g' →
  match structFields displayName fuel g t, structFields displayName fuel g' t with
  | Some (fields, _), Some (fields', _) => fields ≡ₚ fields'
  | None, None => True
  | _, _ => False
  end.
Proof.
  intros Hp.
  by destruct (structFields_perm displayName g g' fuel t Hp) as [[??] [??] ?|].
Qed.

Lemma structFields_ignores_field_order_witness :
  match structFields Tagged.getName 10 lolipopGraph 2,
        structFields Tagged.getName 10
          (<[2 := withFields (desc lolipopGraph 2)
                    [field "Data" 0; field "Lolipop" 1; field "Stuff" 0]]> lolipopGraph) 2
  with
  | Some (fields, _), Some (fields', _) => fields ≡ₚ fields'
  | None, None => True
  | _, _ => False
  end.
Proof.
  apply (structFields_ignores_field_order Tagged.getName lolipopGraph
           (<[2 := withFields (desc lolipopGraph 2)
                     [field "Data" 0; field "Lolipop" 1; field "Stuff" 0]]> lolipopGraph)
           10 2).
  apply fieldPerm_withFields.
  apply (Permutation_app_comm [field "Lolipop" 1; field "Stuff" 0] [field "Data" 0]).
Defined.

(** ** The empty struct *)

(** X11.  A struct without capability, met off the path, none of whose
    promoted fields is exported with a concrete type, is rendered as
    ["{  }"]; the errors of [structFields] and then one empty-struct
    diagnostic are appended. *)
Theorem empty_struct_signature fuel g t b types errs fields e :
  baseType fuel g t = Some b →
  kindOf g b = Struct →
  checkInterfaces g b = [] →
  b ∉ types →
  ModelReflect.structFields fuel g b = Some (fields, e) →
  Forall (λ f, verdict fuel g f = Some false) fields →
  ModelReflect.typeToString (S fuel) g (Some t) types errs
  = Some ("{  }", errs ++ e ++ [EmptyStructOf (tString (desc g b))]).
Proof.
  intros Hb Hk Hci Hpath Hsf Hnone. cbn [ModelReflect.typeToString].
  rewrite Hb. cbn [mbind option_bind].
  unfold ModelReflect.isConcrete, inPath.
  rewrite Hk, Hci, (bool_decide_eq_false_2 (b ∈ types)) by done.
  cbn [negb length]. rewrite bool_decide_eq_false_2 by lia.
  rewrite Hsf. cbn [mbind option_bind].
  assert (foldlM (ModelReflect.collectStep fuel g) (∅, []) fields = Some (∅, [])) as ->.
  { clear Hsf. induction Hnone as [|f fields Hf _ IH]; [done|].
    rewrite foldlM_cons, collectStep_verdict, Hf. done. }
  cbn [mbind option_bind]. simpl. by rewrite <- app_assoc.
Qed.

Lemma empty_struct_signature_witness :
  ModelReflect.typeToString 6 shadowFuncGraph (Some 3) [] []
  = Some ("{  }", [] ++ [] ++ [EmptyStructOf (tString (desc shadowFuncGraph 3))]).
Proof.
  apply (empty_struct_signature 5 shadowFuncGraph 3 3 [] [] [field "X" 2] []).
  - reflexivity.
  - reflexivity.
  - reflexivity.
  - apply not_elem_of_nil.
  - vm_compute. reflexivity.
  - repeat constructor.
Defined.

(** ** The hash reads the whole key *)

Lemma byteZ_inj a b : byteZ a = byteZ b → a = b.
Proof.
  unfold byteZ. intros H%(inj Z.of_N).
  assert (Byte.of_N (Byte.to_N a) = Byte.of_N (Byte.to_N b)) as H' by (by rewrite H).
  rewrite !Byte.of_to_N in H'. by injection H'.
Qed.

Lemma le_value_inj k1 : ∀ k2,
  length k1 = length k2 → le_value k1 = le_value k2 → k1 = k2.
Proof.
  induction k1 as [|x k1 IH]; intros [|y k2] Hlen Hv; try done.
  simpl in Hlen, Hv. injection Hlen as Hlen.
  pose proof (byteZ_range x). pose proof (byteZ_range y).
  assert (byteZ x = byteZ y ∧ le_value k1 = le_value k2) as [Hx Hk] by lia.
  f_equal; [by apply byteZ_inj|by apply IH].
Qed.

(** X12.  [Hash] loses nothing of the eight bytes that Argon2id returns:
    two models whose keys differ have different hashes. *)
Theorem Hash_injective_in_key
    (argon2_IDKey : list byte → list byte → Z → Z → Z → Z → option (list byte))
    (m1 m2 : ModelInfo) (k1 k2 : list byte) :
  argon2_IDKey (bytes_of (string_ m1)) (Salt (Hasher m1)) (Time (Hasher m1))
               (Memory (Hasher m1)) (Threads (Hasher m1)) 8%Z = Some k1 →
  argon2_IDKey (bytes_of (string_ m2)) (Salt (Hasher m2)) (Time (Hasher m2))
               (Memory (Hasher m2)) (Threads (Hasher m2)) 8%Z = Some k2 →
  length k1 = 8 → length k2 = 8 →
  Hash argon2_IDKey m1 = Hash argon2_IDKey m2 → k1 = k2.
Proof.
  intros H1 H2 Hl1 Hl2. unfold Hash. rewrite H1, H2. simpl.
  do 9 (destruct k1 as [|? k1]; try discriminate Hl1).
  do 9 (destruct k2 as [|? k2]; try discriminate Hl2).
  rewrite !Uint64_value. intros [= Hv]. by apply le_value_inj.
Qed.

Lemma Hash_injective_in_key_witness :
  take 8 (bytes_of "{ X:int }" ++ replicate 8 Byte.x00)
  = take 8 (bytes_of "{ X:int }" ++ replicate 8 Byte.x00).
Proof.
  apply (Hash_injective_in_key prefixKDF
           (mkModelInfo "{ X:int }" [] DefaultHasher)
           (mkModelInfo "{ X:int }" [EmptyStructOf "main.T"] DefaultHasher));
    reflexivity.
Defined.

(** ** [getName] *)

Lemma beforeComma_prefix s :
  noComma (Tagged.beforeComma s) ∧
  (Tagged.beforeComma s = s ∨ ∃ rest, s = Tagged.beforeComma s +:+ "," +:+ rest).
Proof.
  induction s as [|c s [IH1 IH2]]; [by split; [|left]|].
  simpl. case_bool_decide as Hc.
  - subst c. split; [done|]. right. by exists s.
  - split; [done|]. destruct IH2 as [->|[rest Hrest]]; [by left|].
    right. exists rest. change (String c s = String c (Tagged.beforeComma s +:+ "," +:+ rest)).
    by f_equal.
Qed.

Lemma capitalize_nonempty name : name ≠ "" → Tagged.capitalize name ≠ "".
Proof.
  destruct name as [|c rest]; [done|]. intros _. simpl. unfold Tagged.ToUpper_byte.
  by repeat case_bool_decide.
Qed.

(** X13.  The part of a tag value that [getName] reads has no comma and is
    the whole value or what precedes its first comma; and a field with a
    declared name never gets the empty name. *)
Theorem getName_reads_before_comma (f : StructField) :
  (∀ tag, noComma (tagPortion f tag) ∧
          (tagPortion f tag = Tag_Get (Tag f) tag ∨
           ∃ rest, Tag_Get (Tag f) tag = tagPortion f tag +:+ "," +:+ rest)) ∧
  (Name f ≠ "" → Tagged.getName f ≠ "").
Proof.
  split; [intros tag; apply beforeComma_prefix|].
  intros Hn. unfold Tagged.getName.
  induction Tagged.DefaultNameTags as [|tag tags IH]; [done|].
  simpl. case_bool_decide; [by apply capitalize_nonempty|done].
Qed.

(** ** The revision with naming tags: capabilities, termination *)



Lemma tagged_typeToString_mono g : ∀ n m t types errs r,
  Tagged.typeToString n g t types errs = Some r → n ≤ m →
  Tagged.typeToString m g t types errs = Some r.
Proof.
  induction n as [|n IH]; intros m t types errs r Hr Hle; [done|].
  destruct m as [|m]; [lia|]. cbn [Tagged.typeToString] in *.
  destruct t as [t0|]; [|done].
  destruct (baseType n g t0) as [b|] eqn:Hb; [|done].
  rewrite (baseType_mono n g m t0 b Hb) by lia. cbn [mbind option_bind] in *.
  destruct (inPath types b); [done|].
  destruct (Tagged.isConcrete g b) as [interfaces ok].
  destruct (bool_decide (0 < length interfaces)); [done|].
  destruct (negb ok); [done|].
  assert (∀ t1 e1 (k : string * list Error → option (string * list Error)),
            Tagged.typeToString n g t1 (types ++ [b]) e1 ≫= k = Some r →
            Tagged.typeToString m g t1 (types ++ [b]) e1 ≫= k = Some r) as Hbind.
  { intros t1 e1 k Hk.
    destruct (Tagged.typeToString n g t1 (types ++ [b]) e1) as [a|] eqn:Ha; [|done].
    by rewrite (IH m t1 (types ++ [b]) e1 a Ha) by lia. }
  destruct (kindOf g b); try done; try (by apply Hbind).
  - destruct (Tagged.typeToString n g (Some (tKey (desc g b))) (types ++ [b]) errs)
      as [[k e]|] eqn:Hk; [|done].
    rewrite (IH m _ _ _ _ Hk) by lia. cbn [mbind option_bind] in *.
    by apply Hbind.
  - unfold Tagged.structFields in *.
    destruct (structFields Tagged.getName n g b) as [[fields e]|] eqn:Hsf; [|done].
    rewrite (structFields_mono Tagged.getName g n m b _ Hsf) by lia.
    cbn [mbind option_bind] in *.
    destruct (foldlM (Tagged.collectStep n g) (∅, []) fields)
      as [[fieldMap keys]|] eqn:Hc; [|done].
    assert (foldlM (Tagged.collectStep m g) (∅, []) fields = Some (fieldMap, keys)) as ->.
    { revert Hc. apply foldlM_mono.
      intros [fm ks] f a' _. unfold Tagged.collectStep.
      destruct (negb (IsExported f)); [done|].
      destruct (baseType n g (Typ f)) as [b'|] eqn:Hb'; [|done].
      by rewrite (baseType_mono n g m (Typ f) b' Hb') by lia. }
    cbn [mbind option_bind] in *.
    match type of Hr with
    | foldlM ?f ?a ?l ≫= _ = _ => destruct (foldlM f a l) as [[r0 e0]|] eqn:Hren; [|done]
    end.
    erewrite foldlM_mono; [exact Hr| |exact Hren].
    intros [r1 e1] [i name] a' _. simpl.
    destruct (fieldMap !! name) as [f|]; [|done].
    destruct (bool_decide (Tag_Get (Tag f) "reflect" ≠ "")); [done|].
    destruct (Tagged.typeToString n g (Some (Typ f)) (types ++ [b]) e1)
      as [a|] eqn:Ha; [|done].
    by rewrite (IH m _ _ _ _ Ha) by lia.
Qed.

(** X15.  On a graph whose chains of pointers end, [New] of the revision
    with naming tags returns, with one result for every amount of fuel
    from a bound on; the model carries [DefaultHasher], the error is the
    join of the errors of the model, nil exactly when there is none, and no
    two errors of the model have the same message. *)
Theorem tagged_New_returns g F v :
  ptrBounded g F →
  ∃ m err,
    (∀ fuel, F + 2 * size (dom g) + 2 ≤ fuel → Tagged.New fuel g v = Some (m, err)) ∧
    Hasher m = DefaultHasher ∧
    err = errors_Join (Errs m) ∧
    (err = None ↔ Errs m = []) ∧
    NoDup (Error_msg <$> Errs m).
Proof.
  intros HF.
  destruct (tagged_typeToString_terminates g F HF (F + 2 * size (dom g) + 2)
              (size (dom g)) (TypeOf v) [] []) as [[sig diags] Ht];
    [by rewrite room_nil|lia|].
  assert (∀ fuel, F + 2 * size (dom g) + 2 ≤ fuel →
            Tagged.typeToString fuel g (TypeOf v) [] [] = Some (sig, diags)) as Hall.
  { intros fuel Hle. by apply (tagged_typeToString_mono g _ fuel _ _ _ _ Ht). }
  destruct (uniqueErrors_spec diags) as (Hnd & _ & _).
  destruct (uniqueErrors diags) as [|e u] eqn:Hu.
  - exists (mkModelInfo sig [] DefaultHasher), None. split.
    + intros fuel Hfuel. unfold Tagged.New. rewrite (Hall fuel Hfuel). simpl.
      by rewrite Hu.
    + split; [done|]. split; [done|]. split; [by split|]. constructor.
  - exists (mkModelInfo sig (e :: u) DefaultHasher), (Some (e :: u)). split.
    + intros fuel Hfuel. unfold Tagged.New. rewrite (Hall fuel Hfuel). simpl.
      by rewrite Hu.
    + split; [done|]. split; [done|]. split; [by split|]. done.
Qed.

Lemma tagged_New_returns_witness :
  ∃ m err,
    (∀ fuel, 2 + 2 * size (dom recursiveGraph) + 2 ≤ fuel →
       Tagged.New fuel recursiveGraph (mkAny (Some 4) []) = Some (m, err)) ∧
    Hasher m = DefaultHasher ∧
    err = errors_Join (Errs m) ∧
    (err = None ↔ Errs m = []) ∧
    NoDup (Error_msg <$> Errs m).
Proof.
  apply (tagged_New_returns recursiveGraph 2 (mkAny (Some 4) [])).
  apply ptrBounded_intro; [lia|]. vm_compute. reflexivity.
Defined.
